(** * QPanda-lite noisy simulator: opcode recorder, noise policies, replay
      and the amplitude kernel of [noisy_simulator.cpp]

    The development follows the C++ sources function by function.

    - [size_t] and [uint32_t] values are binary naturals ([N]); no
      computation below leaves their range for a register of at most
      [max_qubit_num] qubits.  The one place where the width matters is the
      sentinel [-1] of [_insert_gate_error2q], which is [SIZE_MAX].
    - [double] values are real numbers ([R]): the arithmetic of the kernel is
      read in exact arithmetic.  [complex_t] is a pair of them.
    - [std::vector] is a list; [v[i]] on a vector is a list lookup.
    - [std::map] is a finite map ([gmap]); where the source iterates over a
      map, the entries are visited in ascending key order, as [std::map]
      does.  [gate_error2q], the one map with a composite key that is
      iterated, is kept as its entry sequence in that order.
    - The random source [qpandalite::rand()] is the sequence of the draws
      still to come; a call takes the first.
    - A member function is a computation in a state-and-exception monad over
      the object it mutates.  A thrown exception keeps the state reached so
      far, as in C++. *)

From Stdlib Require Import Reals Lra Lia NArith ZArith Ascii String Bool.
From stdpp Require Import list finite gmap strings pretty.

(** ** Exceptions and the monad of member functions *)

Inductive exception : Type :=
| RuntimeError (msg : string)
| InvalidArgument (msg : string).

(** [Undefined] stands for a vector subscript out of range, for which C++
    defines no behaviour. *)
Inductive outcome (A : Type) : Type :=
| Ret (a : A)
| Throw (e : exception)
| Undefined.

Arguments Ret {A} a.
Arguments Throw {A} e.
Arguments Undefined {A}.

Definition M (S A : Type) : Type := S -> outcome A * S.

#[global] Instance M_ret (S : Type) : MRet (M S) :=
  fun A a s => (Ret a, s).

#[global] Instance M_bind (S : Type) : MBind (M S) :=
  fun A B f m s =>
    match m s with
    | (Ret a, s') => f a s'
    | (Throw e, s') => (Throw e, s')
    | (Undefined, s') => (Undefined, s')
    end.

Definition throw {S A : Type} (e : exception) : M S A := fun s => (Throw e, s).
Definition undefined {S A : Type} : M S A := fun s => (Undefined, s).
Definition get {S : Type} : M S S := fun s => (Ret s, s).
Definition modify {S : Type} (f : S -> S) : M S unit := fun s => (Ret tt, f s).

(** Range-based [for] over a container whose body may throw. *)
Fixpoint for_each {S A : Type} (l : list A) (body : A -> M S unit) : M S unit :=
  match l with
  | [] => mret tt
  | a :: l' => body a ;; for_each l' body
  end.

(** [v[i]] for a [std::vector]. *)
Definition subscript {S A : Type} (v : list A) (i : nat) : M S A :=
  match v !! i with
  | Some a => mret a
  | None => undefined
  end.

(** [for (size_t i = 0; i < n; ++i) s = body(i, s);] *)
Definition for_range {S : Type} (n : N) (body : N -> S -> S) (s : S) : S :=
  N.peano_rect (fun _ => S) s body n.

(** ** Enumerations and their string forms *)

(** The header at hand lists [Depolarizing], [Damping], [BitFlip] and
    [PhaseFlip], in this order.  [noisy_simulator.cpp] names three more
    enumerators: [TwoQubitDepolarizing] and the two sentinels that
    [_insert_global_error] compares against. *)
Inductive NoiseType : Type :=
| __NoiseTypeBegin
| Depolarizing
| Damping
| BitFlip
| PhaseFlip
| TwoQubitDepolarizing
| __NoiseTypeEnd.

(** Modelled from the spec: the declaration that places the three extra
    enumerators of [NoiseType] is not among the sources at hand.  Noise tags are small
    integers, numbered in declaration order from zero as an [enum class]
    without initialisers is.  The sentinels enclose the noise types: the
    test [noise_type <= __NoiseTypeBegin || noise_type >= __NoiseTypeEnd]
    of [_insert_global_error] has to let the four types of the header
    through. *)
Definition NoiseType_u32 (t : NoiseType) : N :=
  match t with
  | __NoiseTypeBegin => 0
  | Depolarizing => 1
  | Damping => 2
  | BitFlip => 3
  | PhaseFlip => 4
  | TwoQubitDepolarizing => 5
  | __NoiseTypeEnd => 6
  end.

Definition NoiseType_of_u32 (n : N) : option NoiseType :=
  match n with
  | 0 => Some __NoiseTypeBegin
  | 1 => Some Depolarizing
  | 2 => Some Damping
  | 3 => Some BitFlip
  | 4 => Some PhaseFlip
  | 5 => Some TwoQubitDepolarizing
  | 6 => Some __NoiseTypeEnd
  | _ => None
  end%N.

(** The enumerators in ascending order: the order in which a
    [std::map<NoiseType, double>] is iterated. *)
Definition NoiseType_ascending : list NoiseType :=
  [__NoiseTypeBegin; Depolarizing; Damping; BitFlip; PhaseFlip;
   TwoQubitDepolarizing; __NoiseTypeEnd].

(** [a <= b] on enumerators. *)
Definition NoiseType_le (a b : NoiseType) : bool :=
  (NoiseType_u32 a <=? NoiseType_u32 b)%N.

#[global] Instance NoiseType_eq_dec : EqDecision NoiseType.
Proof. solve_decision. Defined.

#[global] Instance NoiseType_countable : Countable NoiseType :=
  inj_countable' NoiseType_u32 (fun n => default Depolarizing (NoiseType_of_u32 n))
    (fun t => match t with __NoiseTypeBegin => eq_refl | _ => eq_refl end).

(** The gate tags that the sources at hand name: the sixteen of the
    header and [IDENTITY], [SWAP], [TOFFOLI], [CSWAP], which
    [noisy_simulator.cpp] records. *)
Inductive SupportOperationType : Type :=
| HADAMARD
| U22
| X
| Y
| Z
| SX
| CZ
| ISWAP
| XY
| CNOT
| RX
| RY
| RZ
| RPHI90
| RPHI180
| RPHI
| IDENTITY
| SWAP
| TOFFOLI
| CSWAP.

Definition SupportOperationType_all : list SupportOperationType :=
  [HADAMARD; U22; X; Y; Z; SX; CZ; ISWAP; XY; CNOT; RX; RY; RZ;
   RPHI90; RPHI180; RPHI; IDENTITY; SWAP; TOFFOLI; CSWAP].

#[global] Instance SupportOperationType_eq_dec : EqDecision SupportOperationType.
Proof. solve_decision. Defined.

#[global] Instance SupportOperationType_finite : Finite SupportOperationType.
Proof.
  refine {| enum := SupportOperationType_all |}.
  - apply (bool_decide_unpack _). vm_compute. reflexivity.
  - intros g. apply list_elem_of_In. destruct g; simpl; tauto.
Defined.

(** The numbers behind the gate tags.  The header that numbers the four
    extra enumerators is not at hand, so the numbering is a parameter of
    the development. *)
Class GateNumbering : Type :=
  SupportOperationType_u32 : SupportOperationType -> N.

(** The tag-namespace rule: gate tags start at 1000 and no two gates share
    one.  Noise tags are below 7, so a gate tag is never a noise tag. *)
Definition numbering_wf (G : GateNumbering) : Prop :=
  (forall g, (1000 <= @SupportOperationType_u32 G g)%N) /\
  (forall g h, @SupportOperationType_u32 G g = @SupportOperationType_u32 G h -> g = h).

(** One such numbering: [HADAMARD = 1000] and its successors as the header
    has them, the four other tags after them. *)
Definition header_numbering : GateNumbering :=
  fun g =>
    match g with
    | HADAMARD => 1000 | U22 => 1001 | X => 1002 | Y => 1003 | Z => 1004
    | SX => 1005 | CZ => 1006 | ISWAP => 1007 | XY => 1008 | CNOT => 1009
    | RX => 1010 | RY => 1011 | RZ => 1012 | RPHI90 => 1013
    | RPHI180 => 1014 | RPHI => 1015 | IDENTITY => 1016 | SWAP => 1017
    | TOFFOLI => 1018 | CSWAP => 1019
    end%N.

Definition newline : string := String "010"%char EmptyString.

(** [fmt::format("Failed to handle noise_str: {}\nPlease check.", s)] *)
Definition noise_str_message (noise_str : string) : string :=
  ("Failed to handle noise_str: " +:+ noise_str +:+ newline +:+ "Please check.")%string.

Definition gate_str_message (gate_str : string) : string :=
  ("Failed to handle gate_str: " +:+ gate_str +:+ newline +:+ "Please check.")%string.

Definition string_to_NoiseType (noise_str : string) : outcome NoiseType :=
  if String.eqb noise_str "depolarizing" then Ret Depolarizing
  else if String.eqb noise_str "damping" then Ret Damping
  else if String.eqb noise_str "bitflip" then Ret BitFlip
  else if String.eqb noise_str "phaseflip" then Ret PhaseFlip
  else Throw (RuntimeError (noise_str_message noise_str)).

Definition string_to_SupportOperationType (gate_str : string) : outcome SupportOperationType :=
  if String.eqb gate_str "HADAMARD" then Ret HADAMARD
  else if String.eqb gate_str "U22" then Ret U22
  else if String.eqb gate_str "X" then Ret X
  else if String.eqb gate_str "Y" then Ret Y
  else if String.eqb gate_str "Z" then Ret Z
  else if String.eqb gate_str "SX" then Ret SX
  else if String.eqb gate_str "CZ" then Ret CZ
  else if String.eqb gate_str "ISWAP" then Ret ISWAP
  else if String.eqb gate_str "XY" then Ret XY
  else if String.eqb gate_str "CNOT" then Ret CNOT
  else if String.eqb gate_str "RX" then Ret RX
  else if String.eqb gate_str "RY" then Ret RY
  else if String.eqb gate_str "RZ" then Ret RZ
  else if String.eqb gate_str "RPHI90" then Ret RPHI90
  else if String.eqb gate_str "RPHI180" then Ret RPHI180
  else if String.eqb gate_str "RPHI" then Ret RPHI
  else Throw (RuntimeError (gate_str_message gate_str)).

(** Modelled from the spec: [gate_qubit_count] is declared in a header that
    is not at hand.  It is the number of qubits a gate acts on: the
    rotations and single-qubit gates take one, CZ, SWAP, iSWAP, XY and CNOT
    take two, Toffoli and CSWAP take three. *)
Definition gate_qubit_count (gateType : SupportOperationType) : BinNums.Z :=
  match gateType with
  | HADAMARD | U22 | X | Y | Z | SX | RX | RY | RZ
  | RPHI90 | RPHI180 | RPHI | IDENTITY => 1
  | CZ | ISWAP | XY | CNOT | SWAP => 2
  | TOFFOLI | CSWAP => 3
  end%Z.

(** [s] occurs in [msg]. *)
Definition contains (msg s : string) : Prop :=
  exists before after : string, msg = (before +:+ s +:+ after)%string.

(** ** Data model *)

Definition complex_t : Type := R * R.

Definition real (z : complex_t) : R := z.1.
Definition imag (z : complex_t) : R := z.2.

(** [z * x] and [z / x] for a complex [z] and a double [x]; [0] as a complex. *)
Definition cscale (z : complex_t) (x : R) : complex_t := (z.1 * x, z.2 * x)%R.
Definition cdiv (z : complex_t) (x : R) : complex_t := (z.1 / x, z.2 / x)%R.
Definition czero : complex_t := (0, 0)%R.

(** Modelled from the spec: [abs_sqr] comes from a header that is not at
    hand.  [abs_sqr z] is the squared magnitude [|z|^2] of an amplitude. *)
Definition abs_sqr (z : complex_t) : R := (z.1 * z.1 + z.2 * z.2)%R.

(** Modelled from the spec: [pow2] is declared in the same header; a
    register of [n] qubits has [2^n] basis states. *)
Definition pow2 (n : N) : N := (2 ^ n)%N.

(** [size_t(-1)], the sentinel of [_insert_gate_error2q]. *)
Definition SIZE_MAX : N := 18446744073709551615%N.

Record u22_t : Type := mk_u22 {
  u22_0 : complex_t;
  u22_1 : complex_t;
  u22_2 : complex_t;
  u22_3 : complex_t
}.

Record OpcodeType : Type := mkOpcode {
  op : N;
  qubits : list N;
  parameters : list R;
  dagger : bool;
  global_controller : list N
}.

(** The state-vector simulator of [simulator.h], as far as its data goes. *)
Record StatevectorSimulator : Type := mkStatevector {
  total_qubit : N;
  state : list complex_t
}.

Definition max_qubit_num : N := 30%N.

(** The three classes that share the recorder: [insert_error] is
    dispatched on the class of the object. *)
Inductive SimulatorClass : Type :=
| Class_NoisySimulator
| Class_GateDependent
| Class_GateSpecificError.

Record NoisySimulator : Type := mkNoisySimulator {
  dynamic_class : SimulatorClass;
  noise : gmap NoiseType R;
  gate_dependent_noise : gmap SupportOperationType (gmap NoiseType R);
  gate_error1q : gmap (SupportOperationType * N) (gmap NoiseType R);
  (** entries in ascending key order: the source iterates over this map *)
  gate_error2q : list (SupportOperationType * (N * N) * gmap NoiseType R);
  measurement_error_matrices : list (R * R);
  simulator : StatevectorSimulator;
  nqubit : N;
  measure_qubits : list N;
  measure_map : gmap N N;
  opcodes : list OpcodeType
}.

Definition set_opcodes (ops : list OpcodeType) (ns : NoisySimulator) : NoisySimulator :=
  {| dynamic_class := dynamic_class ns;
     noise := noise ns;
     gate_dependent_noise := gate_dependent_noise ns;
     gate_error1q := gate_error1q ns;
     gate_error2q := gate_error2q ns;
     measurement_error_matrices := measurement_error_matrices ns;
     simulator := simulator ns;
     nqubit := nqubit ns;
     measure_qubits := measure_qubits ns;
     measure_map := measure_map ns;
     opcodes := ops |}.

Definition set_noise (m : gmap NoiseType R) (ns : NoisySimulator) : NoisySimulator :=
  {| dynamic_class := dynamic_class ns;
     noise := m;
     gate_dependent_noise := gate_dependent_noise ns;
     gate_error1q := gate_error1q ns;
     gate_error2q := gate_error2q ns;
     measurement_error_matrices := measurement_error_matrices ns;
     simulator := simulator ns;
     nqubit := nqubit ns;
     measure_qubits := measure_qubits ns;
     measure_map := measure_map ns;
     opcodes := opcodes ns |}.

Definition set_simulator (sv : StatevectorSimulator) (ns : NoisySimulator) : NoisySimulator :=
  {| dynamic_class := dynamic_class ns;
     noise := noise ns;
     gate_dependent_noise := gate_dependent_noise ns;
     gate_error1q := gate_error1q ns;
     gate_error2q := gate_error2q ns;
     measurement_error_matrices := measurement_error_matrices ns;
     simulator := sv;
     nqubit := nqubit ns;
     measure_qubits := measure_qubits ns;
     measure_map := measure_map ns;
     opcodes := opcodes ns |}.

(** The entries of a [std::map<NoiseType, double>] in iteration order. *)
Definition map_entries (m : gmap NoiseType R) : list (NoiseType * R) :=
  omap (fun k => (fun v => (k, v)) <$> m !! k) NoiseType_ascending.

(** [find] on a map kept as its entry sequence. *)
Fixpoint entries_find {K V : Type} `{EqDecision K} (k : K) (m : list (K * V)) : option V :=
  match m with
  | [] => None
  | (k', v) :: m' => if decide (k' = k) then Some v else entries_find k m'
  end.

(** ** Construction *)

Definition _load_noise (noise_description : gmap string R) : M NoisySimulator unit :=
  match noise_description !! "depolarizing"%string with
  | Some p => modify (fun ns => set_noise (<[Depolarizing := p]> (noise ns)) ns)
  | None => mret tt
  end;;
  match noise_description !! "damping"%string with
  | Some p => modify (fun ns => set_noise (<[Damping := p]> (noise ns)) ns)
  | None => mret tt
  end;;
  match noise_description !! "bitflip"%string with
  | Some p => modify (fun ns => set_noise (<[BitFlip := p]> (noise ns)) ns)
  | None => mret tt
  end;;
  match noise_description !! "phaseflip"%string with
  | Some p => modify (fun ns => set_noise (<[PhaseFlip := p]> (noise ns)) ns)
  | None => mret tt
  end.

(** The object as the member initialisers leave it, before the body of the
    constructor runs: every container empty, the state vector not
    allocated. *)
Definition member_init (n_qubit : N) (measurement_error : list (R * R)) : NoisySimulator :=
  {| dynamic_class := Class_NoisySimulator;
     noise := ∅;
     gate_dependent_noise := ∅;
     gate_error1q := ∅;
     gate_error2q := [];
     measurement_error_matrices := measurement_error;
     simulator := mkStatevector 0 [];
     nqubit := n_qubit;
     measure_qubits := [];
     measure_map := ∅;
     opcodes := [] |}.

(** [NoisySimulator::NoisySimulator(n_qubit, noise_description,
    measurement_error)]: the outcome of the body and the object built. *)
Definition NoisySimulator_new (n_qubit : N) (noise_description : gmap string R)
    (measurement_error : list (R * R)) : outcome unit * NoisySimulator :=
  _load_noise noise_description (member_init n_qubit measurement_error).

(** ** The opcode recorder *)

Definition emplace_back (o : OpcodeType) : M NoisySimulator unit :=
  modify (fun ns => set_opcodes (opcodes ns ++ [o]) ns).

Definition global_error_message : string :=
  "General noise type does not belong to the following: Depolarizing Damping BitFlip PhaseFlip.".

Definition gate_specific_message : string :=
  "[Fatal] Error type and gate qubit count is not correctly specified, which is not as expected.".

Definition _insert_global_error (qubits : list N) : M NoisySimulator unit :=
  ns ← get;
  for_each (map_entries (noise ns)) (fun noise_pair =>
    let noise_type := noise_pair.1 in
    let noise_probability := noise_pair.2 in
    if NoiseType_le noise_type __NoiseTypeBegin || NoiseType_le __NoiseTypeEnd noise_type
    then throw (RuntimeError global_error_message)
    else emplace_back (mkOpcode (NoiseType_u32 noise_type) qubits [noise_probability] false [])).

Definition _insert_generic_error (qubits : list N) (generic_noise_map : gmap NoiseType R)
    : M NoisySimulator unit :=
  for_each (map_entries generic_noise_map) (fun noise_pair =>
    let noise_type := noise_pair.1 in
    let noise_probability := noise_pair.2 in
    emplace_back (mkOpcode (NoiseType_u32 noise_type) qubits [noise_probability] false [])).

Definition _insert_gate_dependent_error (qubits : list N) (gateType : SupportOperationType)
    : M NoisySimulator unit :=
  ns ← get;
  if decide (gate_dependent_noise ns = ∅) then mret tt
  else
    match gate_dependent_noise ns !! gateType with
    | Some generic_noise_map => _insert_generic_error qubits generic_noise_map
    | None => mret tt
    end.

Definition _insert_gate_error1q (gateType : SupportOperationType) (qn : N)
    : M NoisySimulator unit :=
  ns ← get;
  if decide (gate_error1q ns = ∅) then mret tt
  else
    match gate_error1q ns !! (gateType, qn) with
    | Some generic_noise_map => _insert_generic_error [qn] generic_noise_map
    | None => mret tt
    end.

Definition _insert_gate_error2q (gateType : SupportOperationType) (qn1 qn2 : N)
    : M NoisySimulator unit :=
  ns ← get;
  match gate_error2q ns with
  | [] => mret tt
  | _ :: _ =>
    if (qn2 =? SIZE_MAX)%N then
      (* 1q gate has 2q error *)
      for_each (gate_error2q ns) (fun gate_error =>
        if negb (bool_decide (gate_error.1.1 = gateType)) then mret tt
        else if (gate_error.1.2.1 =? qn1)%N then
          let qn2_crosstalk_error := gate_error.1.2.2 in
          _insert_generic_error [qn1; qn2_crosstalk_error] gate_error.2
        else mret tt)
    else
      (* 2q gate has 2q error *)
      match entries_find (gateType, (qn1, qn2)) (gate_error2q ns) with
      | Some generic_noise_map => _insert_generic_error [qn1; qn2] generic_noise_map
      | None => mret tt
      end
  end.

(** [insert_error], one body per class. *)
Definition NoisySimulator_insert_error (qubits : list N) (gate_type : SupportOperationType)
    : M NoisySimulator unit :=
  _insert_global_error qubits.

Definition GateDependent_insert_error (qubits : list N) (gateType : SupportOperationType)
    : M NoisySimulator unit :=
  _insert_global_error qubits;;
  _insert_gate_dependent_error qubits gateType.

Definition GateSpecificError_insert_error (qubits : list N) (gateType : SupportOperationType)
    : M NoisySimulator unit :=
  _insert_global_error qubits;;
  let gate_qcount := gate_qubit_count gateType in
  match gate_qcount with
  | 1%Z =>
    q0 ← subscript qubits 0;
    _insert_gate_error1q gateType q0;;
    _insert_gate_error2q gateType q0 SIZE_MAX
  | 2%Z =>
    q0 ← subscript qubits 0;
    q1 ← subscript qubits 1;
    _insert_gate_error2q gateType q0 q1;;
    _insert_gate_error1q gateType q0;;
    _insert_gate_error1q gateType q1
  | _ => throw (RuntimeError gate_specific_message)
  end.

Definition insert_error (qubits : list N) (gateType : SupportOperationType)
    : M NoisySimulator unit :=
  ns ← get;
  match dynamic_class ns with
  | Class_NoisySimulator => NoisySimulator_insert_error qubits gateType
  | Class_GateDependent => GateDependent_insert_error qubits gateType
  | Class_GateSpecificError => GateSpecificError_insert_error qubits gateType
  end.

Section Recorder.
Context `{GateNumbering}.

(** [(uint32_t)SupportOperationType::G] *)
Definition gate_tag (g : SupportOperationType) : N := SupportOperationType_u32 g.

Definition load_opcode (opstr : string) (qubits : list N) (parameters : list R)
    (dagger : bool) (global_controller : list N) : M NoisySimulator unit :=
  match string_to_SupportOperationType opstr with
  | Ret op =>
    emplace_back (mkOpcode (gate_tag op) qubits parameters dagger global_controller);;
    insert_error qubits op
  | Throw e => throw e
  | Undefined => undefined
  end.

Definition id (qn : N) (global_controller : list N) (is_dagger : bool) : M NoisySimulator unit :=
  emplace_back (mkOpcode (gate_tag IDENTITY) [qn] [] is_dagger global_controller);;
  insert_error [qn] IDENTITY.

Definition hadamard (qn : N) (global_controller : list N) (is_dagger : bool) : M NoisySimulator unit :=
  emplace_back (mkOpcode (gate_tag HADAMARD) [qn] [] is_dagger global_controller);;
  insert_error [qn] HADAMARD.

Definition u22 (qn : N) (unitary : u22_t) (global_controller : list N) (is_dagger : bool)
    : M NoisySimulator unit :=
  emplace_back (mkOpcode (gate_tag U22) [qn]
    [real (u22_0 unitary); imag (u22_0 unitary);
     real (u22_1 unitary); imag (u22_1 unitary);
     real (u22_2 unitary); imag (u22_2 unitary);
     real (u22_3 unitary); imag (u22_3 unitary)]
    is_dagger global_controller);;
  insert_error [qn] U22.

Definition x (qn : N) (global_controller : list N) (is_dagger : bool) : M NoisySimulator unit :=
  emplace_back (mkOpcode (gate_tag X) [qn] [] is_dagger global_controller);;
  insert_error [qn] X.

Definition y (qn : N) (global_controller : list N) (is_dagger : bool) : M NoisySimulator unit :=
  emplace_back (mkOpcode (gate_tag Y) [qn] [] is_dagger global_controller);;
  insert_error [qn] Y.

Definition z (qn : N) (global_controller : list N) (is_dagger : bool) : M NoisySimulator unit :=
  emplace_back (mkOpcode (gate_tag Z) [qn] [] is_dagger global_controller);;
  insert_error [qn] Z.

Definition sx (qn : N) (global_controller : list N) (is_dagger : bool) : M NoisySimulator unit :=
  emplace_back (mkOpcode (gate_tag SX) [qn] [] is_dagger global_controller);;
  insert_error [qn] SX.

Definition cz (qn1 qn2 : N) (global_controller : list N) (is_dagger : bool) : M NoisySimulator unit :=
  emplace_back (mkOpcode (gate_tag CZ) [qn1; qn2] [] is_dagger global_controller);;
  insert_error [qn1; qn2] CZ.

Definition swap (qn1 qn2 : N) (global_controller : list N) (is_dagger : bool) : M NoisySimulator unit :=
  emplace_back (mkOpcode (gate_tag SWAP) [qn1; qn2] [] is_dagger global_controller);;
  insert_error [qn1; qn2] SWAP.

Definition xy (qn1 qn2 : N) (theta : R) (global_controller : list N) (is_dagger : bool)
    : M NoisySimulator unit :=
  emplace_back (mkOpcode (gate_tag XY) [qn1; qn2] [theta] is_dagger global_controller);;
  insert_error [qn1; qn2] XY.

Definition iswap (qn1 qn2 : N) (global_controller : list N) (is_dagger : bool) : M NoisySimulator unit :=
  emplace_back (mkOpcode (gate_tag ISWAP) [qn1; qn2] [] is_dagger global_controller);;
  insert_error [qn1; qn2] ISWAP.

Definition cnot (controller target : N) (global_controller : list N) (is_dagger : bool)
    : M NoisySimulator unit :=
  emplace_back (mkOpcode (gate_tag CNOT) [controller; target] [] is_dagger global_controller);;
  insert_error [controller; target] CNOT.

Definition rx (qn : N) (theta : R) (global_controller : list N) (is_dagger : bool)
    : M NoisySimulator unit :=
  emplace_back (mkOpcode (gate_tag RX) [qn] [theta] is_dagger global_controller);;
  insert_error [qn] RX.

Definition ry (qn : N) (theta : R) (global_controller : list N) (is_dagger : bool)
    : M NoisySimulator unit :=
  emplace_back (mkOpcode (gate_tag RY) [qn] [theta] is_dagger global_controller);;
  insert_error [qn] RY.

Definition rz (qn : N) (theta : R) (global_controller : list N) (is_dagger : bool)
    : M NoisySimulator unit :=
  emplace_back (mkOpcode (gate_tag RZ) [qn] [theta] is_dagger global_controller);;
  insert_error [qn] RZ.

Definition rphi90 (qn : N) (phi : R) (global_controller : list N) (is_dagger : bool)
    : M NoisySimulator unit :=
  emplace_back (mkOpcode (gate_tag RPHI90) [qn] [phi] is_dagger global_controller);;
  insert_error [qn] RPHI90.

Definition rphi180 (qn : N) (phi : R) (global_controller : list N) (is_dagger : bool)
    : M NoisySimulator unit :=
  emplace_back (mkOpcode (gate_tag RPHI180) [qn] [phi] is_dagger global_controller);;
  insert_error [qn] RPHI180.

Definition rphi (qn : N) (phi theta : R) (global_controller : list N) (is_dagger : bool)
    : M NoisySimulator unit :=
  emplace_back (mkOpcode (gate_tag RPHI) [qn] [phi; theta] is_dagger global_controller);;
  insert_error [qn] RPHI.

Definition toffoli (qn1 qn2 target : N) (global_controller : list N) (is_dagger : bool)
    : M NoisySimulator unit :=
  emplace_back (mkOpcode (gate_tag TOFFOLI) [qn1; qn2; target] [] is_dagger global_controller);;
  insert_error [qn1; qn2; target] TOFFOLI.

Definition cswap (controller target1 target2 : N) (global_controller : list N) (is_dagger : bool)
    : M NoisySimulator unit :=
  emplace_back (mkOpcode (gate_tag CSWAP) [controller; target1; target2] [] is_dagger
    global_controller);;
  insert_error [controller; target1; target2] CSWAP.

(** A call of a recording operation: a gate mutator or [load_opcode], with
    its arguments. *)
Inductive Recording : Type :=
| call_id (qn : N) (global_controller : list N) (is_dagger : bool)
| call_hadamard (qn : N) (global_controller : list N) (is_dagger : bool)
| call_u22 (qn : N) (unitary : u22_t) (global_controller : list N) (is_dagger : bool)
| call_x (qn : N) (global_controller : list N) (is_dagger : bool)
| call_y (qn : N) (global_controller : list N) (is_dagger : bool)
| call_z (qn : N) (global_controller : list N) (is_dagger : bool)
| call_sx (qn : N) (global_controller : list N) (is_dagger : bool)
| call_cz (qn1 qn2 : N) (global_controller : list N) (is_dagger : bool)
| call_swap (qn1 qn2 : N) (global_controller : list N) (is_dagger : bool)
| call_xy (qn1 qn2 : N) (theta : R) (global_controller : list N) (is_dagger : bool)
| call_iswap (qn1 qn2 : N) (global_controller : list N) (is_dagger : bool)
| call_cnot (controller target : N) (global_controller : list N) (is_dagger : bool)
| call_rx (qn : N) (theta : R) (global_controller : list N) (is_dagger : bool)
| call_ry (qn : N) (theta : R) (global_controller : list N) (is_dagger : bool)
| call_rz (qn : N) (theta : R) (global_controller : list N) (is_dagger : bool)
| call_rphi90 (qn : N) (phi : R) (global_controller : list N) (is_dagger : bool)
| call_rphi180 (qn : N) (phi : R) (global_controller : list N) (is_dagger : bool)
| call_rphi (qn : N) (phi theta : R) (global_controller : list N) (is_dagger : bool)
| call_toffoli (qn1 qn2 target : N) (global_controller : list N) (is_dagger : bool)
| call_cswap (controller target1 target2 : N) (global_controller : list N) (is_dagger : bool)
| call_load_opcode (opstr : string) (qubits : list N) (parameters : list R)
    (dagger : bool) (global_controller : list N).

Definition record (c : Recording) : M NoisySimulator unit :=
  match c with
  | call_id qn gc dg => id qn gc dg
  | call_hadamard qn gc dg => hadamard qn gc dg
  | call_u22 qn u gc dg => u22 qn u gc dg
  | call_x qn gc dg => x qn gc dg
  | call_y qn gc dg => y qn gc dg
  | call_z qn gc dg => z qn gc dg
  | call_sx qn gc dg => sx qn gc dg
  | call_cz q1 q2 gc dg => cz q1 q2 gc dg
  | call_swap q1 q2 gc dg => swap q1 q2 gc dg
  | call_xy q1 q2 th gc dg => xy q1 q2 th gc dg
  | call_iswap q1 q2 gc dg => iswap q1 q2 gc dg
  | call_cnot c t gc dg => cnot c t gc dg
  | call_rx qn th gc dg => rx qn th gc dg
  | call_ry qn th gc dg => ry qn th gc dg
  | call_rz qn th gc dg => rz qn th gc dg
  | call_rphi90 qn ph gc dg => rphi90 qn ph gc dg
  | call_rphi180 qn ph gc dg => rphi180 qn ph gc dg
  | call_rphi qn ph th gc dg => rphi qn ph th gc dg
  | call_toffoli q1 q2 t gc dg => toffoli q1 q2 t gc dg
  | call_cswap c t1 t2 gc dg => cswap c t1 t2 gc dg
  | call_load_opcode opstr qs ps dg gc => load_opcode opstr qs ps dg gc
  end.

(** The gate tag a recording operation records, if it records one, and the
    gate opcode it appends. *)
Definition recorded_gate (c : Recording) : option SupportOperationType :=
  match c with
  | call_id _ _ _ => Some IDENTITY
  | call_hadamard _ _ _ => Some HADAMARD
  | call_u22 _ _ _ _ => Some U22
  | call_x _ _ _ => Some X
  | call_y _ _ _ => Some Y
  | call_z _ _ _ => Some Z
  | call_sx _ _ _ => Some SX
  | call_cz _ _ _ _ => Some CZ
  | call_swap _ _ _ _ => Some SWAP
  | call_xy _ _ _ _ _ => Some XY
  | call_iswap _ _ _ _ => Some ISWAP
  | call_cnot _ _ _ _ => Some CNOT
  | call_rx _ _ _ _ => Some RX
  | call_ry _ _ _ _ => Some RY
  | call_rz _ _ _ _ => Some RZ
  | call_rphi90 _ _ _ _ => Some RPHI90
  | call_rphi180 _ _ _ _ => Some RPHI180
  | call_rphi _ _ _ _ _ => Some RPHI
  | call_toffoli _ _ _ _ _ => Some TOFFOLI
  | call_cswap _ _ _ _ _ => Some CSWAP
  | call_load_opcode opstr _ _ _ _ =>
    match string_to_SupportOperationType opstr with
    | Ret g => Some g
    | _ => None
    end
  end.

End Recorder.

(** ** The amplitude kernel *)

Module Simulator.

(** The member functions of the state-vector simulator that the noise
    channels and the replay call.  [simulator.h] declares them, with the
    default arguments [global_controller = {}] and [is_dagger = false];
    their bodies are in a file that is not at hand, so they are parameters
    here. *)
Class Ops : Type := {
  init_n_qubit : N -> M StatevectorSimulator unit;
  hadamard : N -> list N -> bool -> M StatevectorSimulator unit;
  x : N -> list N -> bool -> M StatevectorSimulator unit;
  y : N -> list N -> bool -> M StatevectorSimulator unit;
  z : N -> list N -> bool -> M StatevectorSimulator unit;
  sx : N -> list N -> bool -> M StatevectorSimulator unit;
  cz : N -> N -> list N -> bool -> M StatevectorSimulator unit;
  iswap : N -> N -> list N -> bool -> M StatevectorSimulator unit;
  xy : N -> N -> R -> list N -> bool -> M StatevectorSimulator unit;
  cnot : N -> N -> list N -> bool -> M StatevectorSimulator unit;
  rx : N -> R -> list N -> bool -> M StatevectorSimulator unit;
  ry : N -> R -> list N -> bool -> M StatevectorSimulator unit;
  rz : N -> R -> list N -> bool -> M StatevectorSimulator unit;
  rphi90 : N -> R -> list N -> bool -> M StatevectorSimulator unit;
  rphi180 : N -> R -> list N -> bool -> M StatevectorSimulator unit;
  rphi : N -> R -> R -> list N -> bool -> M StatevectorSimulator unit;
  toffoli : N -> N -> N -> list N -> bool -> M StatevectorSimulator unit;
  cswap : N -> N -> N -> list N -> bool -> M StatevectorSimulator unit
}.

End Simulator.

(** The process-wide uniform source: the draws still to come. *)
Definition Rng : Type := nat -> R.

(** What a member function of [NoiseSimulatorImpl] can touch: the simulator
    and the random source. *)
Definition Kernel : Type := (StatevectorSimulator * Rng)%type.

(** [qpandalite::rand()]: take the next draw. *)
Definition rand : M Kernel R :=
  fun k => (Ret (k.2 0%nat), (k.1, fun i => k.2 (S i))).

Definition on_statevector {A : Type} (m : M StatevectorSimulator A) : M Kernel A :=
  fun k => let (o, sv) := m k.1 in (o, (sv, k.2)).

Definition set_state (st : list complex_t) : M Kernel unit :=
  modify (fun k => (mkStatevector (total_qubit k.1) st, k.2)).

Definition Rltb (a b : R) : bool := if Rlt_dec a b then true else false.
Definition Rgtb (a b : R) : bool := if Rgt_dec a b then true else false.
Definition Rleb (a b : R) : bool := if Rle_dec a b then true else false.

(** [state[i]] and [state[i] = v].  The subscript is in range whenever the
    vector holds [pow2 total_qubit] amplitudes and [i] is below it. *)
Definition vget (st : list complex_t) (i : N) : complex_t :=
  default czero (st !! N.to_nat i).

Definition vset (st : list complex_t) (i : N) (v : complex_t) : list complex_t :=
  <[N.to_nat i := v]> st.

(** [(i >> qn) & 1] as a condition. *)
Definition qubit_is_one (i qn : N) : bool :=
  negb (N.land (N.shiftr i qn) 1 =? 0)%N.

(** [int(x)] for a double: truncation towards zero. *)
Definition double_to_int (v : R) : BinNums.Z :=
  if Rle_dec 0 v then Int_part v else (- Int_part (- v))%Z.

Definition damping_message : string :=
  "Error: Probabilities after applying Kraus operators do not sum up to 1.".

Definition measure_message : string :=
  "NoisySimulator::get_measure() internal fatal error!".

Section NoiseSimulatorImpl.
Context `{Simulator.Ops}.

Definition depolarizing (qn : N) (p : R) : M Kernel unit :=
  r ← rand;
  if Rgtb r p then mret tt
  else if Rltb r (p / 3) then on_statevector (Simulator.x qn [] false)
  else if Rltb r (p / 3 * 2) then on_statevector (Simulator.y qn [] false)
  else on_statevector (Simulator.z qn [] false).

(** The first loop of [damping]: the pair [(p0, p1)] it accumulates. *)
Definition damping_probabilities (st : list complex_t) (nq qn : N) (E0 E1 : R) : R * R :=
  for_range (pow2 nq) (fun i acc =>
    if qubit_is_one i qn then
      let p1 := (acc.2 + abs_sqr (cscale (vget st i) E1))%R in
      let p0 := (acc.1 + (abs_sqr (cscale (vget st i) E0)
                          + abs_sqr (vget st (i - pow2 qn))))%R in
      (p0, p1)
    else acc) (0, 0)%R.

(** The loop of the decay branch: transfer the amplitude, clear the source. *)
Definition damping_decay (st : list complex_t) (nq qn : N) : list complex_t :=
  for_range (pow2 nq) (fun i st =>
    if qubit_is_one i qn then
      let zero_state_index := (i - pow2 qn)%N in
      let st := vset st zero_state_index (vget st i) in
      vset st i czero
    else st) st.

(** The loop of the no-decay branch: scale the amplitude of the one-state. *)
Definition damping_scale (st : list complex_t) (nq qn : N) (E0 : R) : list complex_t :=
  for_range (pow2 nq) (fun i st =>
    if qubit_is_one i qn then vset st i (cscale (vget st i) E0) else st) st.

Definition normalize_state_vector : M Kernel unit :=
  k ← get;
  let nq := total_qubit k.1 in
  let norm := for_range (pow2 nq) (fun i norm => (norm + abs_sqr (vget (state k.1) i))%R) 0%R in
  let norm := sqrt norm in
  set_state (for_range (pow2 nq) (fun i st => vset st i (cdiv (vget st i) norm)) (state k.1)).

Definition damping (qn : N) (p : R) : M Kernel unit :=
  let E0 := sqrt (1 - p) in
  let E1 := sqrt p in
  k ← get;
  let nq := total_qubit k.1 in
  let probabilities := damping_probabilities (state k.1) nq qn E0 E1 in
  let p0 := probabilities.1 in
  let p1 := probabilities.2 in
  if Rgtb (Rabs (p0 + p1 - 1)) 1e-10 then throw (RuntimeError damping_message)
  else
    r ← rand;
    (if Rltb r p1 then set_state (damping_decay (state k.1) nq qn)
     else set_state (damping_scale (state k.1) nq qn E0));;
    normalize_state_vector.

Definition bitflip (qn : N) (p : R) : M Kernel unit :=
  r ← rand;
  if Rgtb r p then mret tt
  else on_statevector (Simulator.x qn [] false).

Definition phaseflip (qn : N) (p : R) : M Kernel unit :=
  r ← rand;
  if Rgtb r p then mret tt
  else on_statevector (Simulator.z qn [] false).

Definition twoqubit_depolarizing (qn1 qn2 : N) (p : R) : M Kernel unit :=
  r ← rand;
  if Rgtb r p then mret tt
  else
    let depol_case := (double_to_int (15 * r / p) + 1)%Z in
    match Z.rem depol_case 4 with
    | 0%Z => mret tt
    | 1%Z => on_statevector (Simulator.x qn1 [] false)
    | 2%Z => on_statevector (Simulator.y qn1 [] false)
    | 3%Z => on_statevector (Simulator.z qn1 [] false)
    | _ => throw (RuntimeError "?????")
    end;;
    match Z.quot depol_case 4 with
    | 0%Z => mret tt
    | 1%Z => on_statevector (Simulator.x qn2 [] false)
    | 2%Z => on_statevector (Simulator.y qn2 [] false)
    | 3%Z => on_statevector (Simulator.z qn2 [] false)
    | _ => throw (RuntimeError "?????")
    end.

End NoiseSimulatorImpl.

(** ** Replay and sampling *)

(** What the simulator object and the random source hold together. *)
Definition Machine : Type := (NoisySimulator * Rng)%type.

(** A member function of the [simulator] member, run from the outside. *)
Definition on_simulator {A : Type} (m : M Kernel A) : M Machine A :=
  fun w =>
    let (o, k) := m (simulator w.1, w.2) in
    (o, (set_simulator k.1 w.1, k.2)).

(** The [case] labels of the [switch] in [execute_once]. *)
Inductive switch_label : Type :=
| case_noise (t : NoiseType)
| case_gate (g : SupportOperationType)
| case_default.

(** [fmt::format("Failed to handle opcode = {}\nPlease check.", opcode.op)] *)
Definition opcode_message (op : N) : string :=
  ("Failed to handle opcode = " +:+ pretty op +:+ newline +:+ "Please check.")%string.

Definition twoqubit_message : string :=
  "The TwoQubitDepolarizing is not correctly applied.".

Section Replay.
Context `{GateNumbering} `{Simulator.Ops}.

(** The labels in the order of the source, each with its value. *)
Definition switch_labels : list (N * switch_label) :=
  [(NoiseType_u32 Depolarizing, case_noise Depolarizing);
   (NoiseType_u32 Damping, case_noise Damping);
   (NoiseType_u32 BitFlip, case_noise BitFlip);
   (NoiseType_u32 PhaseFlip, case_noise PhaseFlip);
   (NoiseType_u32 TwoQubitDepolarizing, case_noise TwoQubitDepolarizing);
   (gate_tag HADAMARD, case_gate HADAMARD);
   (gate_tag X, case_gate X);
   (gate_tag SX, case_gate SX);
   (gate_tag Y, case_gate Y);
   (gate_tag Z, case_gate Z);
   (gate_tag RX, case_gate RX);
   (gate_tag RY, case_gate RY);
   (gate_tag RZ, case_gate RZ);
   (gate_tag CZ, case_gate CZ);
   (gate_tag CNOT, case_gate CNOT);
   (gate_tag ISWAP, case_gate ISWAP);
   (gate_tag XY, case_gate XY);
   (gate_tag RPHI90, case_gate RPHI90);
   (gate_tag RPHI180, case_gate RPHI180);
   (gate_tag RPHI, case_gate RPHI);
   (gate_tag TOFFOLI, case_gate TOFFOLI);
   (gate_tag CSWAP, case_gate CSWAP)].

(** [switch (opcode.op)]: the label whose value is [op], [default] when
    there is none. *)
Definition switch (op : N) : switch_label :=
  default case_default (entries_find op switch_labels).

(** The body of the loop of [execute_once] for one opcode. *)
Definition execute_opcode (opcode : OpcodeType) : M Kernel unit :=
  match switch (op opcode) with
  | case_noise Depolarizing =>
    for_each (qubits opcode) (fun q =>
      p ← subscript (parameters opcode) 0; depolarizing q p)
  | case_noise Damping =>
    for_each (qubits opcode) (fun q =>
      p ← subscript (parameters opcode) 0; damping q p)
  | case_noise BitFlip =>
    for_each (qubits opcode) (fun q =>
      p ← subscript (parameters opcode) 0; bitflip q p)
  | case_noise PhaseFlip =>
    for_each (qubits opcode) (fun q =>
      p ← subscript (parameters opcode) 0; phaseflip q p)
  | case_noise TwoQubitDepolarizing =>
    if negb (length (qubits opcode) =? 2)%nat
    then throw (InvalidArgument twoqubit_message)
    else
      q0 ← subscript (qubits opcode) 0;
      q1 ← subscript (qubits opcode) 1;
      p ← subscript (parameters opcode) 0;
      twoqubit_depolarizing q0 q1 p
  | case_gate HADAMARD =>
    q0 ← subscript (qubits opcode) 0;
    on_statevector (Simulator.hadamard q0 (global_controller opcode) (dagger opcode))
  | case_gate X =>
    q0 ← subscript (qubits opcode) 0;
    on_statevector (Simulator.x q0 (global_controller opcode) (dagger opcode))
  | case_gate SX =>
    q0 ← subscript (qubits opcode) 0;
    on_statevector (Simulator.sx q0 (global_controller opcode) (dagger opcode))
  | case_gate Y =>
    q0 ← subscript (qubits opcode) 0;
    on_statevector (Simulator.y q0 (global_controller opcode) (dagger opcode))
  | case_gate Z =>
    q0 ← subscript (qubits opcode) 0;
    on_statevector (Simulator.z q0 (global_controller opcode) (dagger opcode))
  | case_gate RX =>
    q0 ← subscript (qubits opcode) 0;
    p0 ← subscript (parameters opcode) 0;
    on_statevector (Simulator.rx q0 p0 (global_controller opcode) (dagger opcode))
  | case_gate RY =>
    q0 ← subscript (qubits opcode) 0;
    p0 ← subscript (parameters opcode) 0;
    on_statevector (Simulator.ry q0 p0 (global_controller opcode) (dagger opcode))
  | case_gate RZ =>
    q0 ← subscript (qubits opcode) 0;
    p0 ← subscript (parameters opcode) 0;
    on_statevector (Simulator.rz q0 p0 (global_controller opcode) (dagger opcode))
  | case_gate CZ =>
    q0 ← subscript (qubits opcode) 0;
    q1 ← subscript (qubits opcode) 1;
    on_statevector (Simulator.cz q0 q1 (global_controller opcode) (dagger opcode))
  | case_gate CNOT =>
    q0 ← subscript (qubits opcode) 0;
    q1 ← subscript (qubits opcode) 1;
    on_statevector (Simulator.cnot q0 q1 [] false)
  | case_gate ISWAP =>
    q0 ← subscript (qubits opcode) 0;
    q1 ← subscript (qubits opcode) 1;
    on_statevector (Simulator.iswap q0 q1 (global_controller opcode) (dagger opcode))
  | case_gate XY =>
    q0 ← subscript (qubits opcode) 0;
    q1 ← subscript (qubits opcode) 1;
    p0 ← subscript (parameters opcode) 0;
    on_statevector (Simulator.xy q0 q1 p0 (global_controller opcode) (dagger opcode))
  | case_gate RPHI90 =>
    q0 ← subscript (qubits opcode) 0;
    p0 ← subscript (parameters opcode) 0;
    on_statevector (Simulator.rphi90 q0 p0 (global_controller opcode) (dagger opcode))
  | case_gate RPHI180 =>
    q0 ← subscript (qubits opcode) 0;
    p0 ← subscript (parameters opcode) 0;
    on_statevector (Simulator.rphi180 q0 p0 (global_controller opcode) (dagger opcode))
  | case_gate RPHI =>
    q0 ← subscript (qubits opcode) 0;
    p0 ← subscript (parameters opcode) 0;
    p1 ← subscript (parameters opcode) 1;
    on_statevector (Simulator.rphi q0 p0 p1 (global_controller opcode) (dagger opcode))
  | case_gate TOFFOLI =>
    q0 ← subscript (qubits opcode) 0;
    q1 ← subscript (qubits opcode) 1;
    q2 ← subscript (qubits opcode) 2;
    on_statevector (Simulator.toffoli q0 q1 q2 (global_controller opcode) (dagger opcode))
  | case_gate CSWAP =>
    q0 ← subscript (qubits opcode) 0;
    q1 ← subscript (qubits opcode) 1;
    q2 ← subscript (qubits opcode) 2;
    on_statevector (Simulator.cswap q0 q1 q2 (global_controller opcode) (dagger opcode))
  | _ => throw (RuntimeError (opcode_message (op opcode)))
  end.

(** The loop of [execute_once] over an opcode stream. *)
Definition replay (stream : list OpcodeType) : M Machine unit :=
  for_each stream (fun opcode => on_simulator (execute_opcode opcode)).

Definition execute_once : M Machine unit :=
  w ← get;
  on_simulator (on_statevector (Simulator.init_n_qubit (nqubit w.1)));;
  replay (opcodes w.1).

End Replay.

(** The loop of [get_measure_no_readout_error]: [count] iterations are
    left, [i] is the index reached and [r] what is left of the draw. *)
Fixpoint measure_scan (st : list complex_t) (count : nat) (i : N) (r : R) : option N :=
  match count with
  | O => None
  | S count' =>
    if Rltb r (abs_sqr (vget st i)) then Some i
    else measure_scan st count' (i + 1)%N (r - abs_sqr (vget st i))%R
  end.

Definition get_measure_no_readout_error : M Machine N :=
  on_simulator (
    r ← rand;
    k ← get;
    match measure_scan (state k.1) (N.to_nat (pow2 (total_qubit k.1))) 0%N r with
    | Some i => mret i
    | None => throw (RuntimeError measure_message)
    end).

(** ** Notions used to state the properties *)

(** The opcodes that one pass over a noise map appends: one per entry, on
    the given qubits, with the probability as the only parameter. *)
Definition generic_opcodes (qubits : list N) (m : gmap NoiseType R) : list OpcodeType :=
  map (fun e => mkOpcode (NoiseType_u32 e.1) qubits [e.2] false []) (map_entries m).

(** No sentinel is a key of the global noise map. *)
Definition noise_in_range (m : gmap NoiseType R) : Prop :=
  m !! __NoiseTypeBegin = None /\ m !! __NoiseTypeEnd = None.

(** An opcode of a noise channel: a noise tag, one parameter, no dagger and
    no controller. *)
Definition is_noise_opcode (o : OpcodeType) : Prop :=
  exists (t : NoiseType) (p : R),
    op o = NoiseType_u32 t /\ parameters o = [p] /\
    dagger o = false /\ global_controller o = [].

(** [m] changes nothing but the opcode stream, and that only by appending
    opcodes that satisfy [P]. *)
Definition appends (P : OpcodeType -> Prop) {A : Type} (m : M NoisySimulator A) : Prop :=
  forall s, exists ops, (m s).2 = set_opcodes (opcodes s ++ ops) s /\ Forall P ops.

(** The crosstalk opcodes of a one-qubit gate on [q]: for every entry of
    [gate_error2q] under a key [(gate, (q, q'))], in key order, the opcodes
    of its noise map on [q; q']. *)
Definition crosstalk_opcodes (gateType : SupportOperationType) (q : N)
    (m : list (SupportOperationType * (N * N) * gmap NoiseType R)) : list OpcodeType :=
  flat_map (fun e => generic_opcodes [q; e.1.2.2] e.2)
    (filter (fun e => e.1.1 = gateType /\ e.1.2.1 = q) m).

(** The opcodes of an optional noise map. *)
Definition optional_opcodes (qubits : list N) (m : option (gmap NoiseType R)) : list OpcodeType :=
  match m with
  | Some generic_noise_map => generic_opcodes qubits generic_noise_map
  | None => []
  end.

Section RecordedOpcode.
Context `{GateNumbering}.

(** The gate opcode a recording operation appends, when it appends one. *)
Definition recorded_opcode (c : Recording) : option OpcodeType :=
  match c with
  | call_id qn gc dg => Some (mkOpcode (gate_tag IDENTITY) [qn] [] dg gc)
  | call_hadamard qn gc dg => Some (mkOpcode (gate_tag HADAMARD) [qn] [] dg gc)
  | call_u22 qn u gc dg =>
    Some (mkOpcode (gate_tag U22) [qn]
      [(u22_0 u).1; (u22_0 u).2; (u22_1 u).1; (u22_1 u).2;
       (u22_2 u).1; (u22_2 u).2; (u22_3 u).1; (u22_3 u).2] dg gc)
  | call_x qn gc dg => Some (mkOpcode (gate_tag X) [qn] [] dg gc)
  | call_y qn gc dg => Some (mkOpcode (gate_tag Y) [qn] [] dg gc)
  | call_z qn gc dg => Some (mkOpcode (gate_tag Z) [qn] [] dg gc)
  | call_sx qn gc dg => Some (mkOpcode (gate_tag SX) [qn] [] dg gc)
  | call_cz q1 q2 gc dg => Some (mkOpcode (gate_tag CZ) [q1; q2] [] dg gc)
  | call_swap q1 q2 gc dg => Some (mkOpcode (gate_tag SWAP) [q1; q2] [] dg gc)
  | call_xy q1 q2 th gc dg => Some (mkOpcode (gate_tag XY) [q1; q2] [th] dg gc)
  | call_iswap q1 q2 gc dg => Some (mkOpcode (gate_tag ISWAP) [q1; q2] [] dg gc)
  | call_cnot c t gc dg => Some (mkOpcode (gate_tag CNOT) [c; t] [] dg gc)
  | call_rx qn th gc dg => Some (mkOpcode (gate_tag RX) [qn] [th] dg gc)
  | call_ry qn th gc dg => Some (mkOpcode (gate_tag RY) [qn] [th] dg gc)
  | call_rz qn th gc dg => Some (mkOpcode (gate_tag RZ) [qn] [th] dg gc)
  | call_rphi90 qn ph gc dg => Some (mkOpcode (gate_tag RPHI90) [qn] [ph] dg gc)
  | call_rphi180 qn ph gc dg => Some (mkOpcode (gate_tag RPHI180) [qn] [ph] dg gc)
  | call_rphi qn ph th gc dg => Some (mkOpcode (gate_tag RPHI) [qn] [ph; th] dg gc)
  | call_toffoli q1 q2 t gc dg => Some (mkOpcode (gate_tag TOFFOLI) [q1; q2; t] [] dg gc)
  | call_cswap c t1 t2 gc dg => Some (mkOpcode (gate_tag CSWAP) [c; t1; t2] [] dg gc)
  | call_load_opcode opstr qs ps dg gc =>
    match string_to_SupportOperationType opstr with
    | Ret g => Some (mkOpcode (gate_tag g) qs ps dg gc)
    | _ => None
    end
  end.

End RecordedOpcode.

(** A simulator of class [NoisySimulator_GateSpecificError] with the given
    noise maps and an empty opcode stream. *)
Definition gate_specific_simulator (n_qubit : N) (global : gmap NoiseType R)
    (error1q : gmap (SupportOperationType * N) (gmap NoiseType R))
    (error2q : list (SupportOperationType * (N * N) * gmap NoiseType R)) : NoisySimulator :=
  {| dynamic_class := Class_GateSpecificError;
     noise := global;
     gate_dependent_noise := ∅;
     gate_error1q := error1q;
     gate_error2q := error2q;
     measurement_error_matrices := [];
     simulator := mkStatevector 0 [];
     nqubit := n_qubit;
     measure_qubits := [];
     measure_map := ∅;
     opcodes := [] |}.

(** The [gate_error2q] keys under which a one-qubit gate on [q] finds
    crosstalk. *)
Definition crosstalk_keys (gateType : SupportOperationType) (q : N)
    (m : list (SupportOperationType * (N * N) * gmap NoiseType R))
    : list (SupportOperationType * (N * N)) :=
  map fst (filter (fun e => e.1.1 = gateType /\ e.1.2.1 = q) m).

(** A gate-specific simulator without global or one-qubit noise whose only
    [gate_error2q] entry puts two channels on the pair [(0, 1)] for [X]. *)
Definition crosstalk_example : NoisySimulator :=
  gate_specific_simulator 2 ∅ ∅
    [((X, (0%N, 1%N)), <[Depolarizing := 0.25%R]> (<[BitFlip := 0.5%R]> ∅))].

(** The token that names a noise type in a description, for the types
    [string_to_NoiseType] produces. *)
Definition NoiseType_token (t : NoiseType) : option string :=
  match t with
  | Depolarizing => Some "depolarizing"%string
  | Damping => Some "damping"%string
  | BitFlip => Some "bitflip"%string
  | PhaseFlip => Some "phaseflip"%string
  | _ => None
  end.

(** [noise[k] = p] when the description has the token, nothing otherwise. *)
Definition record_token (k : NoiseType) (entry : option R) (m : gmap NoiseType R)
    : gmap NoiseType R :=
  match entry with
  | Some p => <[k := p]> m
  | None => m
  end.

(** What [execute_once] does when the opcode after a replayed prefix has
    no [case]: if the prefix went through, throw; otherwise the prefix
    already decided the outcome. *)
Definition then_throw (r : outcome unit * Machine) (e : exception) : outcome unit * Machine :=
  match r with
  | (Ret _, w) => (Throw e, w)
  | _ => r
  end.

(** ** A kernel for the Pauli and controlled-Pauli gates *)

Module PauliKernel.

(** The bodies of the simulator's gates are in a file that is not at
    hand.  This module gives the gates whose action is a signed permutation
    of amplitudes, after the single-qubit update of the spec; the closed
    examples below run on it. *)

(** Modelled from the spec: a gate fires on a basis state only if every
    controller bit is set in its index. *)
Definition controllers_set (i : N) (C : list N) : bool :=
  forallb (fun c => N.testbit i c) C.

(** Modelled from the spec: the single-qubit update.  Basis indices are
    paired as [(i0, i1)] with bit [q] of [i0] clear and
    [i1 = i0 | (1 << q)]; a pair whose controllers are all set gets
    [(psi[i0], psi[i1]) <- f (psi[i0], psi[i1])], the others are left
    alone. *)
Definition update_pairs (f : complex_t * complex_t -> complex_t * complex_t)
    (q : N) (C : list N) (nq : N) (st : list complex_t) : list complex_t :=
  for_range (pow2 nq) (fun i0 st =>
    if negb (N.testbit i0 q) && controllers_set i0 C then
      let i1 := N.lor i0 (pow2 q) in
      let r := f (vget st i0, vget st i1) in
      vset (vset st i0 r.1) i1 r.2
    else st) st.

(** Modelled from the spec: the errors of a gate.  A qubit index not below
    the register size, or a target among the controllers, is an invalid
    argument. *)
Definition controlled (f : complex_t * complex_t -> complex_t * complex_t)
    (q : N) (C : list N) : M StatevectorSimulator unit :=
  sv ← get;
  if forallb (fun c => (c <? total_qubit sv)%N) (q :: C) && negb (bool_decide (q ∈ C))
     && bool_decide (NoDup C)
  then modify (fun sv => mkStatevector (total_qubit sv)
                           (update_pairs f q C (total_qubit sv) (state sv)))
  else throw (InvalidArgument "qubit index out of range or repeated").

(** Modelled from the spec: the Pauli matrices X, Y and Z acting on a pair
    of amplitudes. *)
Definition pauli_x (ab : complex_t * complex_t) : complex_t * complex_t := (ab.2, ab.1).

Definition pauli_y (ab : complex_t * complex_t) : complex_t * complex_t :=
  ((ab.2.2, - ab.2.1)%R, (- ab.1.2, ab.1.1)%R).

Definition pauli_z (ab : complex_t * complex_t) : complex_t * complex_t :=
  (ab.1, (- ab.2.1, - ab.2.2)%R).

(** The gates outside the fragment are not modelled. *)
Definition not_modelled : M StatevectorSimulator unit :=
  throw (InvalidArgument "gate outside the Pauli fragment").

(** Modelled from the spec: [init_n_qubit n] makes the state |0...0>:
    [psi[0] = 1] and [psi[i] = 0] for the other [2^n - 1] indices. *)
Definition init_n_qubit (nqubit : N) : M StatevectorSimulator unit :=
  modify (fun _ => mkStatevector nqubit
                     ((1, 0)%R :: replicate (N.to_nat (pow2 nqubit) - 1) czero)).

(** Modelled from the spec: CNOT, CZ and Toffoli are X or Z on the target
    with the control qubits added to the controller set; the Pauli gates
    are their own inverses, so the dagger flag changes nothing here. *)
Definition ops : Simulator.Ops := {|
  Simulator.init_n_qubit := init_n_qubit;
  Simulator.hadamard := fun _ _ _ => not_modelled;
  Simulator.x := fun qn C _ => controlled pauli_x qn C;
  Simulator.y := fun qn C _ => controlled pauli_y qn C;
  Simulator.z := fun qn C _ => controlled pauli_z qn C;
  Simulator.sx := fun _ _ _ => not_modelled;
  Simulator.cz := fun qn1 qn2 C _ => controlled pauli_z qn2 (qn1 :: C);
  Simulator.iswap := fun _ _ _ _ => not_modelled;
  Simulator.xy := fun _ _ _ _ _ => not_modelled;
  Simulator.cnot := fun controller target C _ => controlled pauli_x target (controller :: C);
  Simulator.rx := fun _ _ _ _ => not_modelled;
  Simulator.ry := fun _ _ _ _ => not_modelled;
  Simulator.rz := fun _ _ _ _ => not_modelled;
  Simulator.rphi90 := fun _ _ _ _ => not_modelled;
  Simulator.rphi180 := fun _ _ _ _ => not_modelled;
  Simulator.rphi := fun _ _ _ _ _ => not_modelled;
  Simulator.toffoli := fun qn1 qn2 target C _ => controlled pauli_x target (qn1 :: qn2 :: C);
  Simulator.cswap := fun _ _ _ _ _ => not_modelled
|}.

End PauliKernel.

(** A stream of draws that is constantly [r]. *)
Definition constant_draws (r : R) : Rng := fun _ => r.

(** Three qubits, no noise: [X] on qubit 0, then a CNOT from qubit 0 to
    qubit 1 recorded with qubit 2 as global controller. *)
Definition controlled_cnot_program : NoisySimulator :=
  ((x (H := header_numbering) 0 [] false;;
    cnot (H := header_numbering) 0 1 [2%N] false) (member_init 3 [])).2.

(** The same two gates applied to |000> by the kernel itself, the CNOT
    with its controller. *)
Definition controlled_cnot_direct : outcome unit * StatevectorSimulator :=
  (PauliKernel.init_n_qubit 3;;
   Simulator.x (Ops := PauliKernel.ops) 0 [] false;;
   Simulator.cnot (Ops := PauliKernel.ops) 0 1 [2%N] false) (mkStatevector 0 []).

(** The draws after the first. *)
Definition later_draws (rng : Rng) : Rng := fun i => rng (S i).

(** What is left of the draw [r] after the squared magnitudes of the first
    [k] amplitudes have been subtracted from it. *)
Definition remainder (st : list complex_t) (r : R) (k : N) : R :=
  for_range k (fun i acc => (acc - abs_sqr (vget st i))%R) r.

(** Follows the claim's words, for comparison with [measure_scan]: subtract
    [|psi[i]|^2] from the draw until the remainder is non-positive and
    return that [i]. *)
Fixpoint sample_until_non_positive (st : list complex_t) (count : nat) (i : N) (r : R)
    : option N :=
  match count with
  | O => None
  | S count' =>
    let r' := (r - abs_sqr (vget st i))%R in
    if Rleb r' 0 then Some i
    else sample_until_non_positive st count' (i + 1)%N r'
  end.

(** One qubit in the state |1>. *)
Definition one_state : StatevectorSimulator := mkStatevector 1 [(0, 0)%R; (1, 0)%R].

(** ** The amplitude-damping step in closed form *)

(** The sum of [f i] over the indices [i < n] that satisfy [c]. *)
Definition sum_where (n : N) (c : N -> bool) (f : N -> R) : R :=
  for_range n (fun i acc => if c i then (acc + f i)%R else acc) 0%R.

(** The probability of finding qubit [qn] at [b]: the sum of
    [|psi[i]|^2] over the basis states whose bit [qn] is [b]. *)
Definition probability (st : list complex_t) (nq qn : N) (b : bool) : R :=
  sum_where (pow2 nq) (fun i => Bool.eqb (N.testbit i qn) b) (fun i => abs_sqr (vget st i)).

(** The sum of all [|psi[i]|^2]. *)
Definition norm_sqr (st : list complex_t) (nq : N) : R :=
  for_range (pow2 nq) (fun i norm => (norm + abs_sqr (vget st i))%R) 0%R.

(** Decay: every pair [(i0, i1)] gets [psi[i0] <- psi[i1]] and
    [psi[i1] <- 0]. *)
Definition decayed (st : list complex_t) (qn : N) : list complex_t :=
  imap (fun j _ =>
    if N.testbit (N.of_nat j) qn then czero
    else vget st (N.of_nat j + pow2 qn)) st.

(** The state of the decay loop after the indices below [k]. *)
Definition decay_upto (st : list complex_t) (qn k : N) : list complex_t :=
  imap (fun j _ =>
    let i := N.of_nat j in
    if N.testbit i qn then (if (i <? k)%N then czero else vget st i)
    else (if (i + pow2 qn <? k)%N then vget st (i + pow2 qn) else vget st i)) st.

(** No decay: every [psi[i1]] is scaled by [E0]. *)
Definition scaled (st : list complex_t) (qn : N) (E0 : R) : list complex_t :=
  imap (fun j z => if N.testbit (N.of_nat j) qn then cscale z E0 else z) st.

(** Every amplitude divided by the square root of the sum of all
    [|psi[i]|^2]. *)
Definition normalized (st : list complex_t) (nq : N) : list complex_t :=
  map (fun z => cdiv z (sqrt (norm_sqr st nq))) st.

(** Follows the claim's words, for comparison with [damping_probabilities]:
    [p1] is [p] times the probability of finding the qubit at one and
    [p0 = 1 - p1]. *)
Definition claimed_probabilities (st : list complex_t) (nq qn : N) (p : R) : R * R :=
  let p1 := (p * probability st nq qn true)%R in
  ((1 - p1)%R, p1).

(** One qubit with the amplitude 2 on |0>: not a unit vector. *)
Definition long_state : StatevectorSimulator := mkStatevector 1 [(2, 0)%R; (0, 0)%R].

(** ** The rest of the noise kernel *)

(** [fmt::format("Exceed total (total_qubit = {}, input = {})", total_qubit, qn)] *)
Definition exceed_message (total_qubit qn : N) : string :=
  ("Exceed total (total_qubit = " +:+ pretty total_qubit +:+ ", input = "
   +:+ pretty qn +:+ ")")%string.

(** The loop of [reset].  [i & ~pow2(qn)] is [i] without the bit of
    [pow2 qn].  [std::norm(abs_sqr(state[i]))] squares the double it is
    given, and the assignment makes it the real part of the amplitude. *)
Definition reset_loop (st : list complex_t) (nq qn : N) : list complex_t :=
  for_range (pow2 nq) (fun i st =>
    if qubit_is_one i qn then
      let corresponding_zero_state := N.ldiff i (pow2 qn) in
      let st := vset st corresponding_zero_state
                  ((abs_sqr (vget st i) * abs_sqr (vget st i))%R, 0%R) in
      vset st i czero
    else st) st.

Definition reset (qn : N) : M Kernel unit :=
  k ← get;
  if (total_qubit k.1 <=? qn)%N
  then throw (InvalidArgument (exceed_message (total_qubit k.1) qn))
  else set_state (reset_loop (state k.1) (total_qubit k.1) qn).

(** The loop of [is_qubit_one], which leaves at the first index whose bit
    is set and whose amplitude has a positive squared magnitude
    ([std::norm] of a complex number). *)
Fixpoint is_qubit_one_scan (st : list complex_t) (count : nat) (i qn : N) : bool :=
  match count with
  | O => false
  | S count' =>
    if qubit_is_one i qn && Rgtb (abs_sqr (vget st i)) 0 then true
    else is_qubit_one_scan st count' (i + 1)%N qn
  end.

Definition is_qubit_one (qn : N) : M Kernel bool :=
  k ← get;
  mret (is_qubit_one_scan (state k.1) (N.to_nat (pow2 (total_qubit k.1))) 0 qn).

Definition scale_amplitude (qn : N) (scale_factor : R) : M Kernel unit :=
  k ← get;
  set_state (for_range (pow2 (total_qubit k.1)) (fun i st =>
    if qubit_is_one i qn then vset st i (cscale (vget st i) scale_factor) else st)
    (state k.1)).

(** ** Readout error and shots *)

Definition readout_message : string :=
  "The size of the measurement_error_matrices does not match the qubit number!".

(** [measurement_error_matrices[i]], in range inside the loop of
    [get_measure], which runs only when the vector has [nqubit] entries. *)
Definition error_matrix (m : list (R * R)) (i : N) : R * R :=
  default (0, 0)%R (m !! N.to_nat i).

(** One turn of the loop of [get_measure]: the result so far and the draws
    still to come, before and after qubit [i]. *)
Definition readout_step (m : list (R * R)) (i : N) (acc : N * Rng) : N * Rng :=
  let meas_result := acc.1 in
  let r := acc.2 0%nat in
  let rng := later_draws acc.2 in
  if negb (N.land meas_result (pow2 i) =? 0)%N then
    (* |1> case *)
    let meas_error := (error_matrix m i).2 in
    if Rltb r meas_error then ((meas_result - pow2 i)%N, rng) else (meas_result, rng)
  else
    (* |0> case *)
    let meas_error := (error_matrix m i).1 in
    if Rltb r meas_error then ((meas_result + pow2 i)%N, rng) else (meas_result, rng).

Definition get_measure : M Machine N :=
  meas_result ← get_measure_no_readout_error;
  w ← get;
  let m := measurement_error_matrices w.1 in
  if (length m =? 0)%nat then mret meas_result
  else if negb (N.of_nat (length m) =? nqubit w.1)%N
  then throw (RuntimeError readout_message)
  else
    let final := for_range (nqubit w.1) (readout_step m) (meas_result, w.2) in
    modify (fun w : Machine => (w.1, final.2));;
    mret final.1.

(** One more observation of [meas] in the histogram: [it->second++] when
    the outcome was seen before, [emplace(meas, 1)] otherwise. *)
Definition count_outcome (meas : N) (measured_result : gmap N N) : gmap N N :=
  match measured_result !! meas with
  | Some seen => <[meas := (seen + 1)%N]> measured_result
  | None => <[meas := 1%N]> measured_result
  end.

Definition set_measure (qs : list N) (m : gmap N N) (ns : NoisySimulator) : NoisySimulator :=
  {| dynamic_class := dynamic_class ns;
     noise := noise ns;
     gate_dependent_noise := gate_dependent_noise ns;
     gate_error1q := gate_error1q ns;
     gate_error2q := gate_error2q ns;
     measurement_error_matrices := measurement_error_matrices ns;
     simulator := simulator ns;
     nqubit := nqubit ns;
     measure_qubits := qs;
     measure_map := m;
     opcodes := opcodes ns |}.

(** A pure helper run inside a member function. *)
Definition lift_outcome {S A : Type} (o : outcome A) : M S A := fun s => (o, s).

Section Shots.
Context `{GateNumbering} `{Simulator.Ops}.

(** The two helpers of the measurement plan are declared in a header that
    is not at hand; they are parameters here, free to raise. *)
Variable preprocess_measure_list : list N -> N -> outcome (gmap N N).
Variable get_state_with_qubit : N -> gmap N N -> outcome N.

Definition measure (measure_qubits_ : list N) : M NoisySimulator unit :=
  modify (fun ns => set_measure measure_qubits_ (measure_map ns) ns);;
  ns ← get;
  m ← lift_outcome (preprocess_measure_list (measure_qubits ns) (total_qubit (simulator ns)));
  modify (set_measure (measure_qubits ns) m).

(** The loop of [measure_shots(shots)]: [shots] turns are left. *)
Fixpoint shots_loop (shots : nat) (measured_result : gmap N N) : M Machine (gmap N N) :=
  match shots with
  | O => mret measured_result
  | S shots' =>
    execute_once;;
    meas ← get_measure;
    shots_loop shots' (count_outcome meas measured_result)
  end.

(** [measure_shots(size_t shots)]: every qubit is measured. *)
Definition measure_shots (shots : N) : M Machine (gmap N N) :=
  shots_loop (N.to_nat shots) ∅.

(** The loop of [measure_shots(measure_list, shots)]. *)
Fixpoint shots_list_loop (shots : nat) (measured_result : gmap N N) : M Machine (gmap N N) :=
  match shots with
  | O => mret measured_result
  | S shots' =>
    execute_once;;
    meas ← get_measure;
    w ← get;
    meas_idx ← lift_outcome (get_state_with_qubit meas (measure_map w.1));
    shots_list_loop shots' (count_outcome meas_idx measured_result)
  end.

Definition measure_shots_list (measure_list : list N) (shots : N) : M Machine (gmap N N) :=
  w ← get;
  m ← lift_outcome (preprocess_measure_list measure_list (nqubit w.1));
  modify (fun w : Machine => (set_measure (measure_qubits w.1) m w.1, w.2));;
  shots_list_loop (N.to_nat shots) ∅.

End Shots.

(** The number of observations a histogram holds. *)
Definition histogram_total (measured_result : gmap N N) : N :=
  map_fold (fun _ seen total => (seen + total)%N) 0%N measured_result.

(** ** The noise descriptions of the derived classes *)

Definition set_class (c : SimulatorClass) (ns : NoisySimulator) : NoisySimulator :=
  {| dynamic_class := c;
     noise := noise ns;
     gate_dependent_noise := gate_dependent_noise ns;
     gate_error1q := gate_error1q ns;
     gate_error2q := gate_error2q ns;
     measurement_error_matrices := measurement_error_matrices ns;
     simulator := simulator ns;
     nqubit := nqubit ns;
     measure_qubits := measure_qubits ns;
     measure_map := measure_map ns;
     opcodes := opcodes ns |}.

Definition set_gate_dependent_noise (m : gmap SupportOperationType (gmap NoiseType R))
    (ns : NoisySimulator) : NoisySimulator :=
  {| dynamic_class := dynamic_class ns;
     noise := noise ns;
     gate_dependent_noise := m;
     gate_error1q := gate_error1q ns;
     gate_error2q := gate_error2q ns;
     measurement_error_matrices := measurement_error_matrices ns;
     simulator := simulator ns;
     nqubit := nqubit ns;
     measure_qubits := measure_qubits ns;
     measure_map := measure_map ns;
     opcodes := opcodes ns |}.

Definition set_gate_error1q (m : gmap (SupportOperationType * N) (gmap NoiseType R))
    (ns : NoisySimulator) : NoisySimulator :=
  {| dynamic_class := dynamic_class ns;
     noise := noise ns;
     gate_dependent_noise := gate_dependent_noise ns;
     gate_error1q := m;
     gate_error2q := gate_error2q ns;
     measurement_error_matrices := measurement_error_matrices ns;
     simulator := simulator ns;
     nqubit := nqubit ns;
     measure_qubits := measure_qubits ns;
     measure_map := measure_map ns;
     opcodes := opcodes ns |}.

Definition set_gate_error2q (m : list (SupportOperationType * (N * N) * gmap NoiseType R))
    (ns : NoisySimulator) : NoisySimulator :=
  {| dynamic_class := dynamic_class ns;
     noise := noise ns;
     gate_dependent_noise := gate_dependent_noise ns;
     gate_error1q := gate_error1q ns;
     gate_error2q := m;
     measurement_error_matrices := measurement_error_matrices ns;
     simulator := simulator ns;
     nqubit := nqubit ns;
     measure_qubits := measure_qubits ns;
     measure_map := measure_map ns;
     opcodes := opcodes ns |}.

(** The inner loop of the three loaders: a [std::map<std::string, double>],
    given as its entries in iteration order, is translated name by name
    into [noiseProbabilities]; the first unknown name throws. *)
Fixpoint load_noise_probabilities (noise_type : list (string * R))
    (noiseProbabilities : gmap NoiseType R) : outcome (gmap NoiseType R) :=
  match noise_type with
  | [] => Ret noiseProbabilities
  | noise_pair :: rest =>
    match string_to_NoiseType noise_pair.1 with
    | Ret noiseType =>
      load_noise_probabilities rest (<[noiseType := noise_pair.2]> noiseProbabilities)
    | Throw e => Throw e
    | Undefined => Undefined
    end
  end.

(** A description map is given as its entries in iteration order. *)
Definition _load_gate_dependent_noise
    (gate_noise_description : list (string * list (string * R))) : M NoisySimulator unit :=
  for_each gate_noise_description (fun gate_pair =>
    gateType ← lift_outcome (string_to_SupportOperationType gate_pair.1);
    noiseProbabilities ← lift_outcome (load_noise_probabilities gate_pair.2 ∅);
    modify (fun ns =>
      set_gate_dependent_noise (<[gateType := noiseProbabilities]> (gate_dependent_noise ns)) ns)).

(** [NoisySimulator_GateDependent::NoisySimulator_GateDependent]: the base
    constructor, then the gate-dependent description. *)
Definition NoisySimulator_GateDependent_new (n_qubit : N) (noise_description : gmap string R)
    (gate_noise_description : list (string * list (string * R)))
    (measurement_error : list (R * R)) : outcome unit * NoisySimulator :=
  (_load_noise noise_description;;
   _load_gate_dependent_noise gate_noise_description)
    (set_class Class_GateDependent (member_init n_qubit measurement_error)).

Definition _load_gate_error1q
    (gate_error_description : list (string * N * list (string * R))) : M NoisySimulator unit :=
  for_each gate_error_description (fun entry =>
    let gate_qubit := entry.1 in
    let noise_type := entry.2 in
    gateType ← lift_outcome (string_to_SupportOperationType gate_qubit.1);
    noiseProbabilities ← lift_outcome (load_noise_probabilities noise_type ∅);
    modify (fun ns =>
      set_gate_error1q (<[(gateType, gate_qubit.2) := noiseProbabilities]> (gate_error1q ns)) ns)).

Definition not_1q_or_2q_message : string := "The specified gate is not 1q or 2q.".

Section GateSpecificLoader.
Context `{GateNumbering}.

(** [a < b] on the keys of [gate_error2q]: pairs compare first by the gate
    tag, then by the qubit pair, each pair in lexicographic order. *)
Definition error2q_key_ltb (a b : SupportOperationType * (N * N)) : bool :=
  (SupportOperationType_u32 a.1 <? SupportOperationType_u32 b.1)%N
  || ((SupportOperationType_u32 a.1 =? SupportOperationType_u32 b.1)%N
      && ((a.2.1 <? b.2.1)%N || ((a.2.1 =? b.2.1)%N && (a.2.2 <? b.2.2)%N))).

(** [gate_error2q[k] = v] on the entry sequence: overwrite the entry of an
    equal key, or put the new entry before the first greater key. *)
Fixpoint error2q_assign (k : SupportOperationType * (N * N)) (v : gmap NoiseType R)
    (m : list (SupportOperationType * (N * N) * gmap NoiseType R))
    : list (SupportOperationType * (N * N) * gmap NoiseType R) :=
  match m with
  | [] => [(k, v)]
  | e :: m' =>
    if decide (e.1 = k) then (k, v) :: m'
    else if error2q_key_ltb k e.1 then (k, v) :: e :: m'
    else e :: error2q_assign k v m'
  end.

Definition _load_gate_error2q
    (gate_error_description : list (string * (N * N) * list (string * R)))
    : M NoisySimulator unit :=
  for_each gate_error_description (fun entry =>
    let gate_qubit := entry.1 in
    let noise_type := entry.2 in
    gateType ← lift_outcome (string_to_SupportOperationType gate_qubit.1);
    if (gate_qubit_count gateType <=? 2)%Z then
      noiseProbabilities ← lift_outcome (load_noise_probabilities noise_type ∅);
      modify (fun ns =>
        set_gate_error2q
          (error2q_assign (gateType, gate_qubit.2) noiseProbabilities (gate_error2q ns)) ns)
    else throw (InvalidArgument not_1q_or_2q_message)).

(** [NoisySimulator_GateSpecificError::NoisySimulator_GateSpecificError] *)
Definition NoisySimulator_GateSpecificError_new (n_qubit : N)
    (noise_description : gmap string R)
    (gate_error1q_description : list (string * N * list (string * R)))
    (gate_error2q_description : list (string * (N * N) * list (string * R)))
    (measurement_error : list (R * R)) : outcome unit * NoisySimulator :=
  (_load_noise noise_description;;
   _load_gate_error1q gate_error1q_description;;
   _load_gate_error2q gate_error2q_description)
    (set_class Class_GateSpecificError (member_init n_qubit measurement_error)).

End GateSpecificLoader.

(** ** More notions used to state the properties *)

(** [m] is the translation of the named probabilities [noise_type]: it
    holds [p] under the noise type [t] exactly when the description holds
    [p] under a name that [string_to_NoiseType] turns into [t]. *)
Definition translates (noise_type : list (string * R)) (m : gmap NoiseType R) : Prop :=
  forall t p,
    m !! t = Some p <->
    exists name, (name, p) ∈ noise_type /\ string_to_NoiseType name = Ret t.

(** The shape that the three loaders of the derived classes share: for
    each entry of a description, parse the gate name, check the gate,
    translate the noise names and store the map under the key of the
    entry. *)
Definition load_entries {E : Type} (name : E -> string)
    (noise_type : E -> list (string * R)) (ok : SupportOperationType -> bool)
    (err : exception)
    (store : SupportOperationType -> E -> gmap NoiseType R -> NoisySimulator -> NoisySimulator)
    (description : list E) : M NoisySimulator unit :=
  for_each description (fun entry =>
    gateType ← lift_outcome (string_to_SupportOperationType (name entry));
    if ok gateType then
      noiseProbabilities ← lift_outcome (load_noise_probabilities (noise_type entry) ∅);
      modify (store gateType entry noiseProbabilities)
    else throw err).

(** The name under which [string_to_SupportOperationType] knows a gate. *)
Definition gate_name (g : SupportOperationType) : option string :=
  match g with
  | HADAMARD => Some "HADAMARD"
  | U22 => Some "U22"
  | X => Some "X"
  | Y => Some "Y"
  | Z => Some "Z"
  | SX => Some "SX"
  | CZ => Some "CZ"
  | ISWAP => Some "ISWAP"
  | XY => Some "XY"
  | CNOT => Some "CNOT"
  | RX => Some "RX"
  | RY => Some "RY"
  | RZ => Some "RZ"
  | RPHI90 => Some "RPHI90"
  | RPHI180 => Some "RPHI180"
  | RPHI => Some "RPHI"
  | IDENTITY | SWAP | TOFFOLI | CSWAP => None
  end%string.

(** The number of parameters that the replay of a gate opcode reads. *)
Definition gate_parameter_count (g : SupportOperationType) : nat :=
  match g with
  | RX | RY | RZ | XY | RPHI90 | RPHI180 => 1
  | RPHI => 2
  | _ => 0
  end.

(** A recording operation other than [load_opcode]. *)
Definition is_mutator (c : Recording) : bool :=
  match c with
  | call_load_opcode _ _ _ _ _ => false
  | _ => true
  end.

Section KernelCall.
Context `{Simulator.Ops}.

(** The call of the state-vector simulator that has the name and the
    arguments of a mutator call, for the gates the replay knows. *)
Definition kernel_call (c : Recording) : option (M StatevectorSimulator unit) :=
  match c with
  | call_hadamard qn gc dg => Some (Simulator.hadamard qn gc dg)
  | call_x qn gc dg => Some (Simulator.x qn gc dg)
  | call_y qn gc dg => Some (Simulator.y qn gc dg)
  | call_z qn gc dg => Some (Simulator.z qn gc dg)
  | call_sx qn gc dg => Some (Simulator.sx qn gc dg)
  | call_cz q1 q2 gc dg => Some (Simulator.cz q1 q2 gc dg)
  | call_xy q1 q2 th gc dg => Some (Simulator.xy q1 q2 th gc dg)
  | call_iswap q1 q2 gc dg => Some (Simulator.iswap q1 q2 gc dg)
  | call_cnot c t gc dg => Some (Simulator.cnot c t gc dg)
  | call_rx qn th gc dg => Some (Simulator.rx qn th gc dg)
  | call_ry qn th gc dg => Some (Simulator.ry qn th gc dg)
  | call_rz qn th gc dg => Some (Simulator.rz qn th gc dg)
  | call_rphi90 qn ph gc dg => Some (Simulator.rphi90 qn ph gc dg)
  | call_rphi180 qn ph gc dg => Some (Simulator.rphi180 qn ph gc dg)
  | call_rphi qn ph th gc dg => Some (Simulator.rphi qn ph th gc dg)
  | call_toffoli q1 q2 t gc dg => Some (Simulator.toffoli q1 q2 t gc dg)
  | call_cswap c t1 t2 gc dg => Some (Simulator.cswap c t1 t2 gc dg)
  | _ => None
  end.

(** The kernel call that [execute_once] makes for the opcode of a mutator
    call: that of [kernel_call], but for [cnot] without the controller list
    and the dagger flag of the call. *)
Definition replayed_call (c : Recording) : option (M StatevectorSimulator unit) :=
  match c with
  | call_cnot controller target _ _ => Some (Simulator.cnot controller target [] false)
  | _ => kernel_call c
  end.

(** A call that the replay reproduces: a mutator of a gate the replay
    knows, and for [cnot] one without controller and dagger. *)
Definition replayable (c : Recording) : Prop :=
  is_Some (kernel_call c) /\
  forall controller target gc dg, c = call_cnot controller target gc dg ->
    gc = [] /\ dg = false.

(** The kernel calls of a program of such calls, in order. *)
Definition kernel_program (cs : list Recording) : M StatevectorSimulator unit :=
  for_each cs (fun c => default (mret tt) (kernel_call c)).

(** The Pauli gate with index 1, 2 or 3 on [qn], nothing for index 0. *)
Definition apply_pauli (index : BinNums.Z) (qn : N) : M Kernel unit :=
  match index with
  | 1%Z => on_statevector (Simulator.x qn [] false)
  | 2%Z => on_statevector (Simulator.y qn [] false)
  | 3%Z => on_statevector (Simulator.z qn [] false)
  | _ => mret tt
  end.

End KernelCall.

(** The probability with which the readout of qubit [i] is reported
    wrong, given the sampled outcome: the second entry of the qubit's pair
    when the bit is set, the first when it is clear. *)
Definition flip_probability (m : list (R * R)) (meas i : N) : R :=
  if N.testbit meas i then (error_matrix m i).2 else (error_matrix m i).1.

(** [reset] in closed form: the amplitudes of the one-states are cleared,
    and each zero-state holds the fourth power of the magnitude of its
    partner, as a real number. *)
Definition reset_state (st : list complex_t) (qn : N) : list complex_t :=
  imap (fun j _ =>
    if N.testbit (N.of_nat j) qn then czero
    else
      let z := vget st (N.of_nat j + pow2 qn) in
      ((abs_sqr z * abs_sqr z)%R, 0%R)) st.

(** ** Closed examples *)

(** One qubit in |1>, read out with the error pair (1/8, 1/4). *)
Definition readout_example : NoisySimulator :=
  set_simulator one_state (member_init 1 [(0.125, 0.25)%R]).

(** Two qubits, class [NoisySimulator], bit flips with probability 1/2 as
    the only global noise. *)
Definition bitflip_example : NoisySimulator :=
  set_noise (<[BitFlip := 0.5%R]> ∅) (member_init 2 []).

(** The same object in the class [NoisySimulator_GateDependent], with phase
    flips configured for [X]. *)
Definition gate_dependent_example : NoisySimulator :=
  set_gate_dependent_noise (<[X := <[PhaseFlip := 0.25%R]> ∅]> ∅)
    (set_class Class_GateDependent bitflip_example).

(** A map of named probabilities with two entries. *)
Definition noise_type_example : list (string * R) :=
  [("damping", 0.5%R); ("phaseflip", 0.25%R)]%string.

(** Gate-specific descriptions with one entry each. *)
Definition gate_error1q_example : list (string * N * list (string * R)) :=
  [(("X", 0%N), [("bitflip", 0.5%R)])]%string.

Definition gate_error2q_example : list (string * (N * N) * list (string * R)) :=
  [(("CZ", (0%N, 1%N)), [("depolarizing", 0.25%R)])]%string.

(** A gate-dependent description with one gate. *)
Definition gate_noise_example : list (string * list (string * R)) :=
  [("X", [("phaseflip", 0.25%R)])]%string.

(** One qubit in the state |0>, as [init_n_qubit(1)] leaves it. *)
Definition zero_state : StatevectorSimulator := mkStatevector 1 [(1, 0)%R; (0, 0)%R].

(** Stand-ins for the two helpers of the measurement plan: an empty plan,
    and the outcome itself as the reduced outcome. *)
Definition empty_plan (measure_list : list N) (nqubit : N) : outcome (gmap N N) := Ret ∅.
Definition whole_outcome (meas : N) (measure_map : gmap N N) : outcome N := Ret meas.

(** * Properties *)

(** ** The monad *)

Lemma bind_run {S A B : Type} (m : M S A) (f : A -> M S B) (s : S) :
  (m ≫= f) s =
  match m s with
  | (Ret a, s') => f a s'
  | (Throw e, s') => (Throw e, s')
  | (Undefined, s') => (Undefined, s')
  end.
Proof. reflexivity. Qed.

Lemma for_each_app {S A : Type} (l1 l2 : list A) (body : A -> M S unit) (s : S) :
  for_each (l1 ++ l2) body s =
  match for_each l1 body s with
  | (Ret _, s') => for_each l2 body s'
  | other => other
  end.
Proof.
  revert s. induction l1 as [|a l1 IH]; intros s.
  - reflexivity.
  - simpl. rewrite !bind_run. destruct (body a s) as [[[]|e|] s1]; try reflexivity.
    apply IH.
Qed.

(** ** The recorder only appends *)

Lemma set_opcodes_opcodes (s : NoisySimulator) : set_opcodes (opcodes s) s = s.
Proof. destruct s; reflexivity. Qed.

Section Appends.
Variable P : OpcodeType -> Prop.

Lemma appends_nothing {A : Type} (m : M NoisySimulator A) :
  (forall s, (m s).2 = s) -> appends P m.
Proof.
  intros Hm s. exists []. rewrite Hm, app_nil_r. split; [|constructor].
  symmetry. apply set_opcodes_opcodes.
Qed.

Lemma appends_ret {A : Type} (a : A) : appends P (mret a).
Proof. apply appends_nothing. reflexivity. Qed.

Lemma appends_throw {A : Type} (e : exception) : appends P (@throw _ A e).
Proof. apply appends_nothing. reflexivity. Qed.

Lemma appends_undefined {A : Type} : appends P (@undefined _ A).
Proof. apply appends_nothing. reflexivity. Qed.

Lemma appends_get : appends P get.
Proof. apply appends_nothing. reflexivity. Qed.

Lemma appends_emplace_back (o : OpcodeType) : P o -> appends P (emplace_back o).
Proof. intros Ho s. exists [o]. split; [reflexivity | repeat constructor; exact Ho]. Qed.

Lemma appends_bind {A B : Type} (m : M NoisySimulator A) (f : A -> M NoisySimulator B) :
  appends P m -> (forall a, appends P (f a)) -> appends P (m ≫= f).
Proof.
  intros Hm Hf s. rewrite bind_run. destruct (Hm s) as (l1 & H1 & HP1).
  destruct (m s) as [[a|e|] s1]; simpl in H1; subst s1.
  - destruct (Hf a (set_opcodes (opcodes s ++ l1) s)) as (l2 & H2 & HP2).
    exists (l1 ++ l2). rewrite H2. simpl. rewrite app_assoc. split; [reflexivity|].
    apply Forall_app; auto.
  - exists l1. split; [reflexivity | assumption].
  - exists l1. split; [reflexivity | assumption].
Qed.

Lemma appends_for_each {A : Type} (l : list A) (body : A -> M NoisySimulator unit) :
  (forall a, appends P (body a)) -> appends P (for_each l body).
Proof.
  intros Hb. induction l as [|a l IH]; simpl.
  - apply appends_ret.
  - apply appends_bind; [apply Hb | intros _; apply IH].
Qed.

Lemma appends_subscript {A : Type} (v : list A) (i : nat) : appends P (subscript v i).
Proof. unfold subscript. destruct (v !! i); [apply appends_ret | apply appends_undefined]. Qed.

End Appends.

Lemma noise_opcode_intro (t : NoiseType) (qs : list N) (p : R) :
  is_noise_opcode (mkOpcode (NoiseType_u32 t) qs [p] false []).
Proof. exists t, p. repeat split. Qed.

Create HintDb recorder.
#[local] Hint Resolve appends_ret appends_throw appends_undefined appends_get
  appends_emplace_back appends_subscript noise_opcode_intro : recorder.

Ltac appends_step :=
  first
    [ solve [auto with recorder]
    | progress cbv zeta
    | match goal with |- appends _ (if ?b then _ else _) => destruct b end
    | match goal with |- appends _ (match ?x with _ => _ end) => destruct x end
    | apply appends_for_each; intros ?
    | apply appends_bind; [| intros ?] ].

Lemma appends_insert_generic_error (qubits : list N) (m : gmap NoiseType R) :
  appends is_noise_opcode (_insert_generic_error qubits m).
Proof. unfold _insert_generic_error. repeat appends_step. Qed.

Lemma appends_insert_global_error (qubits : list N) :
  appends is_noise_opcode (_insert_global_error qubits).
Proof. unfold _insert_global_error. repeat appends_step. Qed.

Lemma appends_insert_error (qubits : list N) (g : SupportOperationType) :
  appends is_noise_opcode (insert_error qubits g).
Proof.
  pose proof appends_insert_generic_error. pose proof appends_insert_global_error.
  unfold insert_error, NoisySimulator_insert_error, GateDependent_insert_error,
    GateSpecificError_insert_error, _insert_gate_dependent_error,
    _insert_gate_error1q, _insert_gate_error2q.
  repeat appends_step.
Qed.

(** A gate opcode followed by its noise: the shape of every mutator. *)
Lemma emplace_then_insert_error (o : OpcodeType) (qs : list N) (g : SupportOperationType)
    (s : NoisySimulator) :
  exists noise_ops,
    ((emplace_back o;; insert_error qs g) s).2 = set_opcodes (opcodes s ++ o :: noise_ops) s /\
    Forall is_noise_opcode noise_ops.
Proof.
  rewrite bind_run. simpl.
  destruct (appends_insert_error qs g (set_opcodes (opcodes s ++ [o]) s)) as (l & Hl & HP).
  exists l. split; [|exact HP]. rewrite Hl. simpl. rewrite <- app_assoc. reflexivity.
Qed.

(** ** What the noise policies append *)

Lemma for_each_appending {A : Type} (l : list A) (body : A -> M NoisySimulator unit)
    (h : A -> list OpcodeType) :
  (forall a s, a ∈ l -> body a s = (Ret tt, set_opcodes (opcodes s ++ h a) s)) ->
  forall s, for_each l body s = (Ret tt, set_opcodes (opcodes s ++ flat_map h l) s).
Proof.
  induction l as [|a l IH]; intros Hb s; simpl.
  - rewrite app_nil_r, set_opcodes_opcodes. reflexivity.
  - rewrite bind_run, Hb by constructor.
    rewrite IH by (intros; apply Hb; constructor; assumption).
    simpl. rewrite app_assoc. reflexivity.
Qed.

Lemma flat_map_singleton {A B : Type} (f : A -> B) (l : list A) :
  flat_map (fun a => [f a]) l = map f l.
Proof. induction l; simpl; congruence. Qed.

Lemma insert_generic_error_run (qubits : list N) (m : gmap NoiseType R) (s : NoisySimulator) :
  _insert_generic_error qubits m s =
  (Ret tt, set_opcodes (opcodes s ++ generic_opcodes qubits m) s).
Proof.
  unfold _insert_generic_error, generic_opcodes.
  rewrite <- flat_map_singleton. apply for_each_appending. reflexivity.
Qed.

Lemma map_entries_lookup (m : gmap NoiseType R) (e : NoiseType * R) :
  e ∈ map_entries m -> m !! e.1 = Some e.2.
Proof.
  unfold map_entries. rewrite list_elem_of_omap. intros (k & _ & Hk).
  destruct (m !! k) as [v|] eqn:E; simpl in Hk; [|discriminate].
  injection Hk as <-. exact E.
Qed.

Lemma insert_global_error_run (qubits : list N) (s : NoisySimulator) :
  noise_in_range (noise s) ->
  _insert_global_error qubits s =
  (Ret tt, set_opcodes (opcodes s ++ generic_opcodes qubits (noise s)) s).
Proof.
  intros [Hb He]. unfold _insert_global_error, generic_opcodes.
  rewrite bind_run. simpl. rewrite <- flat_map_singleton.
  apply for_each_appending. intros [t p] s' Hin. apply map_entries_lookup in Hin.
  simpl in *. destruct t; try reflexivity; congruence.
Qed.

Lemma insert_gate_error1q_run (g : SupportOperationType) (qn : N) (s : NoisySimulator) :
  _insert_gate_error1q g qn s =
  (Ret tt, set_opcodes (opcodes s ++ optional_opcodes [qn] (gate_error1q s !! (g, qn))) s).
Proof.
  unfold _insert_gate_error1q. rewrite bind_run. simpl.
  destruct (decide (gate_error1q s = ∅)) as [E|_].
  - rewrite E, lookup_empty. simpl. rewrite app_nil_r, set_opcodes_opcodes. reflexivity.
  - destruct (gate_error1q s !! (g, qn)); simpl.
    + apply insert_generic_error_run.
    + rewrite app_nil_r, set_opcodes_opcodes. reflexivity.
Qed.

Lemma insert_gate_error2q_pair_run (g : SupportOperationType) (qn1 qn2 : N) (s : NoisySimulator) :
  qn2 <> SIZE_MAX ->
  _insert_gate_error2q g qn1 qn2 s =
  (Ret tt, set_opcodes
     (opcodes s ++ optional_opcodes [qn1; qn2] (entries_find (g, (qn1, qn2)) (gate_error2q s))) s).
Proof.
  intros Hq. unfold _insert_gate_error2q. rewrite bind_run. simpl.
  destruct (gate_error2q s) as [|e m] eqn:E.
  - simpl. rewrite app_nil_r, set_opcodes_opcodes. reflexivity.
  - apply N.eqb_neq in Hq. rewrite Hq.
    destruct (entries_find (g, (qn1, qn2)) (e :: m)); simpl.
    + apply insert_generic_error_run.
    + rewrite app_nil_r, set_opcodes_opcodes. reflexivity.
Qed.

Lemma crosstalk_opcodes_flat_map (g : SupportOperationType) (q : N)
    (m : list (SupportOperationType * (N * N) * gmap NoiseType R)) :
  crosstalk_opcodes g q m =
  flat_map (fun e =>
    if negb (bool_decide (e.1.1 = g)) then []
    else if (e.1.2.1 =? q)%N then generic_opcodes [q; e.1.2.2] e.2 else []) m.
Proof.
  unfold crosstalk_opcodes. induction m as [|e m IH]; [reflexivity|].
  rewrite filter_cons. simpl. rewrite <- IH.
  destruct (decide (e.1.1 = g /\ e.1.2.1 = q)) as [[Hg Hq]|Hn].
  - rewrite bool_decide_true by exact Hg. apply N.eqb_eq in Hq. rewrite Hq. reflexivity.
  - destruct (bool_decide_reflect (e.1.1 = g)) as [Hg|Hg]; simpl; [|reflexivity].
    destruct (N.eqb_spec (e.1.2.1) q) as [Hq|Hq]; [|reflexivity].
    exfalso. apply Hn. split; assumption.
Qed.

Lemma insert_gate_error2q_crosstalk_run (g : SupportOperationType) (qn1 : N) (s : NoisySimulator) :
  _insert_gate_error2q g qn1 SIZE_MAX s =
  (Ret tt, set_opcodes (opcodes s ++ crosstalk_opcodes g qn1 (gate_error2q s)) s).
Proof.
  unfold _insert_gate_error2q. rewrite bind_run. simpl.
  destruct (gate_error2q s) as [|e m] eqn:E.
  - simpl. rewrite app_nil_r, set_opcodes_opcodes. reflexivity.
  - rewrite crosstalk_opcodes_flat_map. apply for_each_appending.
    intros a s' _.
    destruct (negb (bool_decide (a.1.1 = g))).
    + rewrite app_nil_r, set_opcodes_opcodes. reflexivity.
    + destruct (a.1.2.1 =? qn1)%N.
      * apply insert_generic_error_run.
      * rewrite app_nil_r, set_opcodes_opcodes. reflexivity.
Qed.

Lemma gate_specific_run (s : NoisySimulator) (qubits : list N) (g : SupportOperationType) :
  dynamic_class s = Class_GateSpecificError ->
  noise_in_range (noise s) ->
  insert_error qubits g s =
  (match gate_qubit_count g with
   | 1%Z =>
     q0 ← subscript qubits 0;
     _insert_gate_error1q g q0;;
     _insert_gate_error2q g q0 SIZE_MAX
   | 2%Z =>
     q0 ← subscript qubits 0;
     q1 ← subscript qubits 1;
     _insert_gate_error2q g q0 q1;;
     _insert_gate_error1q g q0;;
     _insert_gate_error1q g q1
   | _ => throw (RuntimeError gate_specific_message)
   end) (set_opcodes (opcodes s ++ generic_opcodes qubits (noise s)) s).
Proof.
  intros Hc Hn. unfold insert_error. rewrite bind_run. simpl. rewrite Hc.
  unfold GateSpecificError_insert_error.
  rewrite bind_run, insert_global_error_run by exact Hn. reflexivity.
Qed.

Lemma gate_specific_run_other (s : NoisySimulator) (qubits : list N)
    (g : SupportOperationType) :
  dynamic_class s = Class_GateSpecificError ->
  noise_in_range (noise s) ->
  gate_qubit_count g <> 1%Z -> gate_qubit_count g <> 2%Z ->
  insert_error qubits g s =
  (Throw (RuntimeError gate_specific_message),
   set_opcodes (opcodes s ++ generic_opcodes qubits (noise s)) s).
Proof.
  intros Hc Hn H1 H2. rewrite gate_specific_run by assumption.
  destruct (gate_qubit_count g) as [|[[]|[]|]|]; try reflexivity; congruence.
Qed.

(** C4 (amended).  Under the gate-and-qubit-specific policy, with a global
    noise map as the constructor builds it, [insert_error] first appends
    the global-noise opcodes on the gate's qubits.  Then, for a gate of
    arity 2 on [q1, q2] (with [q2] not the sentinel [SIZE_MAX]) it appends
    the opcodes of [gate_error2q[(gate, (q1, q2))]] on [q1; q2], those of
    [gate_error1q[(gate, q1)]] on [q1] and those of
    [gate_error1q[(gate, q2)]] on [q2].  For a gate of arity 1 on [q] it
    appends the opcodes of [gate_error1q[(gate, q)]] on [q] and then, for
    every [gate_error2q] key [(gate, (q, q'))] in key order, one opcode per
    entry of the noise map under that key, on [q; q'].  For any other
    arity it raises a runtime-error, the global-noise opcodes staying in
    the stream. *)
Theorem gate_specific_insert_error (s : NoisySimulator) (qubits : list N)
    (g : SupportOperationType) :
  dynamic_class s = Class_GateSpecificError ->
  noise_in_range (noise s) ->
  (forall q1 q2 rest,
     gate_qubit_count g = 2%Z -> qubits = q1 :: q2 :: rest -> q2 <> SIZE_MAX ->
     insert_error qubits g s =
     (Ret tt, set_opcodes
        (opcodes s ++ generic_opcodes qubits (noise s)
           ++ optional_opcodes [q1; q2] (entries_find (g, (q1, q2)) (gate_error2q s))
           ++ optional_opcodes [q1] (gate_error1q s !! (g, q1))
           ++ optional_opcodes [q2] (gate_error1q s !! (g, q2))) s)) /\
  (forall q rest,
     gate_qubit_count g = 1%Z -> qubits = q :: rest ->
     insert_error qubits g s =
     (Ret tt, set_opcodes
        (opcodes s ++ generic_opcodes qubits (noise s)
           ++ optional_opcodes [q] (gate_error1q s !! (g, q))
           ++ crosstalk_opcodes g q (gate_error2q s)) s)) /\
  (gate_qubit_count g <> 1%Z -> gate_qubit_count g <> 2%Z ->
     insert_error qubits g s =
     (Throw (RuntimeError gate_specific_message),
      set_opcodes (opcodes s ++ generic_opcodes qubits (noise s)) s)).
Proof.
  intros Hc Hn. split; [|split].
  - intros q1 q2 rest Hg -> Hq. rewrite gate_specific_run by assumption. rewrite Hg.
    repeat first
      [ rewrite insert_gate_error2q_pair_run by exact Hq; simpl
      | rewrite insert_gate_error1q_run; simpl
      | rewrite bind_run; simpl ].
    rewrite <- !app_assoc. reflexivity.
  - intros q rest Hg ->. rewrite gate_specific_run by assumption. rewrite Hg.
    repeat first
      [ rewrite insert_gate_error2q_crosstalk_run; simpl
      | rewrite insert_gate_error1q_run; simpl
      | rewrite bind_run; simpl ].
    rewrite <- !app_assoc. reflexivity.
  - apply gate_specific_run_other; assumption.
Qed.

Section RecorderProperties.
Context `{GateNumbering}.

Lemma record_shape (c : Recording) (s : NoisySimulator) :
  match recorded_opcode c with
  | Some o =>
    exists noise_ops,
      (record c s).2 = set_opcodes (opcodes s ++ o :: noise_ops) s /\
      Forall is_noise_opcode noise_ops
  | None => (record c s).2 = s /\ exists e, (record c s).1 = Throw e
  end.
Proof.
  destruct c; simpl; try apply emplace_then_insert_error.
  unfold load_opcode. destruct (string_to_SupportOperationType opstr) as [g|e|] eqn:E.
  - apply emplace_then_insert_error.
  - split; [reflexivity | exists e; reflexivity].
  - unfold string_to_SupportOperationType in E.
    repeat match type of E with (if ?b then _ else _) = _ => destruct b end; discriminate.
Qed.

(** C9.  Recording leaves the state vector alone.  Whatever recording
    operation is called on whatever simulator, the simulator member (the
    register size and the amplitudes) is what it was, and so is every other
    member but the opcode stream, which has grown at its end; when the call
    returns, what was appended is the gate opcode followed by opcodes of
    noise channels only. *)
Theorem record_leaves_state_vector (c : Recording) (s : NoisySimulator) :
  simulator (record c s).2 = simulator s /\
  exists appended,
    (record c s).2 = set_opcodes (opcodes s ++ appended) s /\
    ((record c s).1 = Ret tt ->
     exists gate_op noise_ops,
       recorded_opcode c = Some gate_op /\
       appended = gate_op :: noise_ops /\
       Forall is_noise_opcode noise_ops).
Proof.
  pose proof (record_shape c s) as Hs.
  destruct (recorded_opcode c) as [o|].
  - destruct Hs as (l & Hl & HP). rewrite Hl. split; [reflexivity|].
    exists (o :: l). split; [reflexivity|]. intros _. exists o, l. auto.
  - destruct Hs as (Hs & e & He). rewrite Hs. split; [reflexivity|].
    exists []. rewrite app_nil_r, set_opcodes_opcodes. split; [reflexivity|].
    rewrite He. discriminate.
Qed.

End RecorderProperties.

Lemma record_leaves_state_vector_witness :
  simulator (record (H := header_numbering) (call_hadamard 0 [] false) (member_init 1 [])).2 =
  simulator (member_init 1 []).
Proof.
  exact (proj1 (@record_leaves_state_vector header_numbering (call_hadamard 0 [] false)
                  (member_init 1 []))).
Defined.

(** ** Closed instances for the recorder *)

(** C4, counterexample.  One [gate_error2q] key for [X] on qubit 0 whose
    noise map has two entries: the claim's "one crosstalk opcode for each
    key" predicts one appended opcode; [insert_error] appends two. *)
Lemma one_crosstalk_opcode_per_key_fails :
  ~ (forall (s : NoisySimulator) (g : SupportOperationType) (q : N),
       dynamic_class s = Class_GateSpecificError ->
       gate_qubit_count g = 1%Z ->
       length (opcodes (insert_error [q] g s).2) =
       (length (opcodes s) + length (generic_opcodes [q] (noise s))
        + length (optional_opcodes [q] (gate_error1q s !! (g, q)))
        + length (crosstalk_keys g q (gate_error2q s)))%nat).
Proof.
  intros Hclaim.
  specialize (Hclaim crosstalk_example X 0%N eq_refl eq_refl).
  vm_compute in Hclaim. discriminate Hclaim.
Qed.

Lemma gate_specific_insert_error_witness :
  dynamic_class crosstalk_example = Class_GateSpecificError /\
  noise_in_range (noise crosstalk_example) /\
  insert_error [0%N] X crosstalk_example =
  (Ret tt, set_opcodes
     (opcodes crosstalk_example ++ generic_opcodes [0%N] (noise crosstalk_example)
        ++ optional_opcodes [0%N] (gate_error1q crosstalk_example !! (X, 0%N))
        ++ crosstalk_opcodes X 0%N (gate_error2q crosstalk_example)) crosstalk_example).
Proof.
  assert (Hr : noise_in_range (noise crosstalk_example)) by (split; reflexivity).
  split; [reflexivity|]. split; [exact Hr|].
  exact (proj1 (proj2 (gate_specific_insert_error crosstalk_example [0%N] X eq_refl Hr))
           0%N [] eq_refl eq_refl).
Defined.

Section RecordingErrors.
Context `{GateNumbering}.

Lemma string_to_SupportOperationType_arity (opstr : string) (g : SupportOperationType) :
  string_to_SupportOperationType opstr = Ret g ->
  gate_qubit_count g = 1%Z \/ gate_qubit_count g = 2%Z.
Proof.
  unfold string_to_SupportOperationType.
  repeat match goal with
         | |- (if ?b then _ else _) = _ -> _ => destruct b
         end; intros E; try discriminate; injection E as <-; simpl; auto.
Qed.

Lemma three_qubit_gate_run (o : OpcodeType) (qs : list N) (g : SupportOperationType)
    (s : NoisySimulator) :
  gate_qubit_count g = 3%Z ->
  dynamic_class s = Class_GateSpecificError ->
  noise_in_range (noise s) ->
  (emplace_back o;; insert_error qs g) s =
  (Throw (RuntimeError gate_specific_message),
   set_opcodes (opcodes s ++ o :: generic_opcodes qs (noise s)) s).
Proof.
  intros Hg Hc Hn. rewrite bind_run. simpl.
  rewrite (gate_specific_run_other (set_opcodes (opcodes s ++ [o]) s) qs g Hc Hn)
    by (rewrite Hg; discriminate).
  simpl. rewrite <- app_assoc. reflexivity.
Qed.

(** C7 (amended).  A recording operation never removes or changes what the
    opcode stream held: after the call, failed or not, the old stream is a
    prefix of the new one.  When [load_opcode] fails on an unknown gate
    name, the simulator is exactly as before.  When the [insert_error] step
    of a three-qubit gate fails under the gate-and-qubit-specific policy,
    the gate opcode and the global-noise opcodes appended before the
    failure stay in the stream. *)
Theorem recording_error_keeps_appended_opcodes :
  (forall c s, exists appended, opcodes (record c s).2 = opcodes s ++ appended) /\
  (forall opstr qs ps dg gc s e,
     string_to_SupportOperationType opstr = Throw e ->
     record (call_load_opcode opstr qs ps dg gc) s = (Throw e, s)) /\
  (forall c s g o,
     recorded_gate c = Some g ->
     recorded_opcode c = Some o ->
     gate_qubit_count g = 3%Z ->
     dynamic_class s = Class_GateSpecificError ->
     noise_in_range (noise s) ->
     record c s =
     (Throw (RuntimeError gate_specific_message),
      set_opcodes (opcodes s ++ o :: generic_opcodes (qubits o) (noise s)) s)).
Proof.
  split; [|split].
  - intros c s. pose proof (record_shape c s) as Hs.
    destruct (recorded_opcode c) as [o|].
    + destruct Hs as (l & Hl & _). exists (o :: l). rewrite Hl. reflexivity.
    + destruct Hs as [Hs _]. exists []. rewrite Hs, app_nil_r. reflexivity.
  - intros opstr qs ps dg gc s e E. simpl. unfold load_opcode. rewrite E. reflexivity.
  - intros c s g o Hg Ho Ha Hc Hn.
    destruct c; simpl in Hg, Ho;
      try (injection Hg as <-; try discriminate Ha;
           injection Ho as <-; apply three_qubit_gate_run; assumption).
    destruct (string_to_SupportOperationType opstr) as [g'|e|] eqn:E; try discriminate.
    injection Hg as <-. apply string_to_SupportOperationType_arity in E.
    rewrite Ha in E. destruct E; discriminate.
Qed.

End RecordingErrors.

(** C7, counterexample.  A Toffoli gate recorded on a gate-specific
    simulator raises the runtime-error of [insert_error], and the stream,
    empty before the call, holds the Toffoli opcode after it. *)
Lemma failed_toffoli_stays_in_stream :
  ~ (forall (G : GateNumbering) (c : Recording) (s : NoisySimulator) (e : exception),
       (@record G c s).1 = Throw e -> opcodes (@record G c s).2 = opcodes s).
Proof.
  intros Hclaim.
  specialize (Hclaim header_numbering (call_toffoli 0 1 2 [] false)
                (gate_specific_simulator 3 ∅ ∅ [])
                (RuntimeError gate_specific_message) eq_refl).
  vm_compute in Hclaim. discriminate Hclaim.
Qed.

Lemma recording_error_keeps_appended_opcodes_witness :
  string_to_SupportOperationType "CCX" = Throw (RuntimeError (gate_str_message "CCX")) /\
  record (H := header_numbering) (call_load_opcode "CCX" [0%N; 1%N; 2%N] [] false [])
    (gate_specific_simulator 3 ∅ ∅ []) =
  (Throw (RuntimeError (gate_str_message "CCX")), gate_specific_simulator 3 ∅ ∅ []) /\
  record (H := header_numbering) (call_toffoli 0 1 2 [] false) (gate_specific_simulator 3 ∅ ∅ []) =
  (Throw (RuntimeError gate_specific_message),
   set_opcodes [mkOpcode 1018 [0%N; 1%N; 2%N] [] false []] (gate_specific_simulator 3 ∅ ∅ [])).
Proof.
  pose proof (@recording_error_keeps_appended_opcodes header_numbering) as (_ & Hname & Hgate).
  split; [reflexivity|]. split.
  - apply Hname. reflexivity.
  - exact (Hgate (call_toffoli 0 1 2 [] false) (gate_specific_simulator 3 ∅ ∅ []) TOFFOLI
             (mkOpcode 1018 [0%N; 1%N; 2%N] [] false [])
             eq_refl eq_refl eq_refl eq_refl (conj eq_refl eq_refl)).
Defined.

(** ** Construction *)

Lemma load_noise_run (noise_description : gmap string R) (s : NoisySimulator) :
  _load_noise noise_description s =
  (Ret tt,
   set_noise
     (record_token PhaseFlip (noise_description !! "phaseflip"%string)
        (record_token BitFlip (noise_description !! "bitflip"%string)
           (record_token Damping (noise_description !! "damping"%string)
              (record_token Depolarizing (noise_description !! "depolarizing"%string)
                 (noise s))))) s).
Proof.
  unfold _load_noise.
  destruct (noise_description !! "depolarizing"%string),
           (noise_description !! "damping"%string),
           (noise_description !! "bitflip"%string),
           (noise_description !! "phaseflip"%string);
    destruct s; reflexivity.
Qed.

Lemma lookup_record_token (k j : NoiseType) (entry : option R) (m : gmap NoiseType R) :
  record_token k entry m !! j =
  if decide (k = j) then (match entry with Some p => Some p | None => m !! j end)
  else m !! j.
Proof.
  unfold record_token. destruct entry as [p|].
  - rewrite lookup_insert. destruct (decide (k = j)); reflexivity.
  - destruct (decide (k = j)); reflexivity.
Qed.

Lemma string_to_NoiseType_cases (noise_str : string) :
  (exists t, string_to_NoiseType noise_str = Ret t /\ NoiseType_token t = Some noise_str) \/
  (string_to_NoiseType noise_str = Throw (RuntimeError (noise_str_message noise_str)) /\
   forall t, NoiseType_token t <> Some noise_str).
Proof.
  unfold string_to_NoiseType.
  destruct (String.eqb_spec noise_str "depolarizing") as [->|H1];
    [left; exists Depolarizing; split; reflexivity|].
  destruct (String.eqb_spec noise_str "damping") as [->|H2];
    [left; exists Damping; split; reflexivity|].
  destruct (String.eqb_spec noise_str "bitflip") as [->|H3];
    [left; exists BitFlip; split; reflexivity|].
  destruct (String.eqb_spec noise_str "phaseflip") as [->|H4];
    [left; exists PhaseFlip; split; reflexivity|].
  right. split; [reflexivity|].
  intros [] E; simpl in E; try discriminate; injection E as E; congruence.
Qed.

Lemma noise_str_message_contains (noise_str : string) :
  contains (noise_str_message noise_str) noise_str.
Proof.
  exists "Failed to handle noise_str: "%string, (newline +:+ "Please check.")%string.
  reflexivity.
Qed.

(** C6 (amended).  Whatever noise description a simulator constructor is
    given, construction goes through and the global noise map holds, for
    each of the four tokens depolarizing, damping, bitflip and phaseflip
    that is a key of the description, the matching noise type with the
    probability given; it holds nothing for twoqubit_depolarizing nor for
    the sentinels.  A noise name that [string_to_NoiseType] does not know
    raises a runtime-error whose message contains the offending string. *)
Theorem noise_description_tokens :
  (forall (n_qubit : N) (noise_description : gmap string R) (measurement_error : list (R * R)),
     exists ns,
       NoisySimulator_new n_qubit noise_description measurement_error = (Ret tt, ns) /\
       noise ns !! Depolarizing = noise_description !! "depolarizing"%string /\
       noise ns !! Damping = noise_description !! "damping"%string /\
       noise ns !! BitFlip = noise_description !! "bitflip"%string /\
       noise ns !! PhaseFlip = noise_description !! "phaseflip"%string /\
       noise ns !! TwoQubitDepolarizing = None /\
       noise_in_range (noise ns)) /\
  (forall noise_str : string,
     (exists t, string_to_NoiseType noise_str = Ret t /\ NoiseType_token t = Some noise_str) \/
     (exists msg, string_to_NoiseType noise_str = Throw (RuntimeError msg) /\
                  contains msg noise_str)).
Proof.
  split.
  - intros n_qubit noise_description measurement_error.
    unfold NoisySimulator_new. rewrite load_noise_run. eexists. split; [reflexivity|].
    simpl. unfold noise_in_range. rewrite !lookup_record_token. simpl.
    repeat split; try reflexivity;
      repeat match goal with |- context [match ?o with _ => _ end] => destruct o end;
      reflexivity.
  - intros noise_str. destruct (string_to_NoiseType_cases noise_str) as [Hk|[Hu _]].
    + left. exact Hk.
    + right. eexists. split; [exact Hu | apply noise_str_message_contains].
Qed.

(** C6, counterexample.  A description whose only key is
    twoqubit_depolarizing: construction records no noise at all, so the key
    is not recorded with its probability.  A description whose only key is
    no noise token: construction returns normally, no error is raised. *)
Lemma global_noise_ignores_other_keys :
  (forall t, noise (NoisySimulator_new 2 {[ "twoqubit_depolarizing"%string := 0.5%R ]} []).2 !! t
             = None) /\
  (NoisySimulator_new 2 {[ "thermal"%string := 0.5%R ]} []).1 = Ret tt.
Proof. split; [intros t; vm_compute; destruct t; reflexivity | vm_compute; reflexivity]. Qed.

(** C8 (amended).  Constructing a [NoisySimulator] returns normally for
    every qubit count, above 30 or not: the constructor stores the count,
    allocates no state vector and records no opcode; it does not consult
    [max_qubit_num]. *)
Theorem constructor_accepts_every_qubit_count (n_qubit : N)
    (noise_description : gmap string R) (measurement_error : list (R * R)) :
  exists ns,
    NoisySimulator_new n_qubit noise_description measurement_error = (Ret tt, ns) /\
    nqubit ns = n_qubit /\
    simulator ns = mkStatevector 0 [] /\
    opcodes ns = [] /\
    measurement_error_matrices ns = measurement_error.
Proof.
  unfold NoisySimulator_new. rewrite load_noise_run. eexists. split; [reflexivity|].
  repeat split.
Qed.

(** C8, counterexample.  Thirty-one qubits are more than [max_qubit_num],
    and the constructor succeeds. *)
Lemma constructor_accepts_31_qubits :
  (max_qubit_num < 31)%N /\ NoisySimulator_new 31 ∅ [] = (Ret tt, member_init 31 []).
Proof. split; [reflexivity | vm_compute; reflexivity]. Qed.

(** ** Replay *)

Lemma header_numbering_wf : numbering_wf header_numbering.
Proof.
  split.
  - intros []; vm_compute; discriminate.
  - intros [] []; vm_compute; intros E; first [reflexivity | discriminate E].
Qed.

Lemma set_simulator_simulator (s : NoisySimulator) : set_simulator (simulator s) s = s.
Proof. destruct s; reflexivity. Qed.

Lemma on_simulator_throw {A : Type} (e : exception) (w : Machine) :
  on_simulator (@throw _ A e) w = (Throw e, w).
Proof.
  unfold on_simulator, throw. simpl. rewrite set_simulator_simulator.
  destruct w; reflexivity.
Qed.

Section ReplayProperties.
Context `{G : GateNumbering} `{K : Simulator.Ops}.
Hypothesis Hwf : numbering_wf G.

Lemma noise_tag_not_gate (t : NoiseType) (g : SupportOperationType) :
  NoiseType_u32 t <> gate_tag g.
Proof.
  destruct Hwf as [Hge _]. specialize (Hge g). unfold gate_tag.
  destruct t; simpl; lia.
Qed.

Lemma gate_tag_inj (g h : SupportOperationType) : gate_tag g = gate_tag h -> g = h.
Proof. destruct Hwf as [_ Hinj]. apply Hinj. Qed.

Ltac decide_labels :=
  repeat case_decide;
  try solve
    [ exfalso; eapply noise_tag_not_gate; eassumption
    | match goal with E : gate_tag _ = gate_tag _ |- _ =>
        apply gate_tag_inj in E; discriminate E end
    | congruence ].

(** The [switch] on a gate tag: the gate's own label when the source has
    one, [default] otherwise. *)
Lemma switch_gate_tag (g : SupportOperationType) :
  switch (gate_tag g) =
  match g with
  | U22 | IDENTITY | SWAP => case_default
  | _ => case_gate g
  end.
Proof.
  unfold switch, switch_labels. cbn [entries_find].
  destruct g; decide_labels; reflexivity.
Qed.

Lemma replay_reaches_default (pre post : list OpcodeType) (o : OpcodeType) (w : Machine) :
  switch (op o) = case_default ->
  replay (pre ++ o :: post) w =
  then_throw (replay pre w) (RuntimeError (opcode_message (op o))).
Proof.
  intros Hd. unfold replay. rewrite for_each_app.
  destruct (for_each pre _ w) as [[[]|e|] w']; try reflexivity.
  simpl. rewrite bind_run. unfold execute_opcode. rewrite Hd.
  rewrite on_simulator_throw. reflexivity.
Qed.

Lemma recorded_opcode_tag (c : Recording) (g : SupportOperationType) :
  recorded_gate c = Some g ->
  exists o, recorded_opcode c = Some o /\ op o = gate_tag g.
Proof.
  destruct c; simpl; intros E; try (injection E as <-; eexists; split; reflexivity).
  destruct (string_to_SupportOperationType opstr); try discriminate.
  injection E as <-. eexists; split; reflexivity.
Qed.

(** The replay of a CNOT opcode: the controller set and the dagger flag of
    the opcode do not reach the simulator. *)
Lemma execute_opcode_cnot (q0 q1 : N) (rest : list N) (ps : list R) (dg : bool) (gc : list N)
    (k : Kernel) :
  execute_opcode (mkOpcode (gate_tag CNOT) (q0 :: q1 :: rest) ps dg gc) k =
  on_statevector (Simulator.cnot q0 q1 [] false) k.
Proof. unfold execute_opcode. simpl. rewrite switch_gate_tag. reflexivity. Qed.

(** The replay of a CZ opcode, for comparison: both reach the simulator. *)
Lemma execute_opcode_cz (q0 q1 : N) (rest : list N) (ps : list R) (dg : bool) (gc : list N)
    (k : Kernel) :
  execute_opcode (mkOpcode (gate_tag CZ) (q0 :: q1 :: rest) ps dg gc) k =
  on_statevector (Simulator.cz q0 q1 gc dg) k.
Proof. unfold execute_opcode. simpl. rewrite switch_gate_tag. reflexivity. Qed.

(** The replay of the opcode of a mutator call is the kernel call of
    [replayed_call]. *)
Lemma replayed_call_run (c : Recording) (m : M StatevectorSimulator unit) (o : OpcodeType)
    (k : Kernel) :
  replayed_call c = Some m -> recorded_opcode c = Some o ->
  execute_opcode o k = on_statevector m k.
Proof.
  intros Hm Ho. destruct c; simpl in Hm, Ho; try discriminate;
    injection Hm as <-; injection Ho as <-;
    unfold execute_opcode; cbn [op]; rewrite switch_gate_tag; reflexivity.
Qed.

Lemma mutator_replayed_call (c : Recording) (g : SupportOperationType) :
  is_mutator c = true -> recorded_gate c = Some g ->
  ~ (g = SWAP \/ g = U22 \/ g = IDENTITY) ->
  is_Some (replayed_call c).
Proof.
  intros Hm Hg Hno. destruct c; simpl in Hm, Hg; try discriminate;
    try (eexists; reflexivity); injection Hg as <-; exfalso; apply Hno; auto.
Qed.

(** C10.  The [switch] of [execute_once] falls to its [default] for the
    tags SWAP, U22 and IDENTITY and for no other gate tag that can be
    recorded.  Every recording operation leaves its gate opcode, with the
    tag of its gate, in the stream.  Whenever the stream holds an
    opcode with one of the three tags, [execute_once] raises the
    runtime-error of the [default] case as soon as the initialisation and
    the replay of the opcodes before it have gone through.  And the
    dispatcher does not take the [default] for any other gate: for every
    mutator of another gate, the replay of the opcode it records is the
    call of the kernel function of that gate on the operands of the call
    ([cnot] without controller and dagger), so it throws only if the
    kernel does. *)
Theorem unhandled_gates_fail_replay :
  (forall g, switch (gate_tag g) = case_default <-> g = SWAP \/ g = U22 \/ g = IDENTITY) /\
  (forall c s g,
     recorded_gate c = Some g ->
     exists o noise_ops,
       (record c s).2 = set_opcodes (opcodes s ++ o :: noise_ops) s /\ op o = gate_tag g) /\
  (forall (w : Machine) pre o post g,
     opcodes w.1 = pre ++ o :: post ->
     op o = gate_tag g ->
     g = SWAP \/ g = U22 \/ g = IDENTITY ->
     execute_once w =
     then_throw
       ((on_simulator (on_statevector (Simulator.init_n_qubit (nqubit w.1)));; replay pre) w)
       (RuntimeError (opcode_message (op o)))) /\
  (forall (c : Recording) g o (k : Kernel),
     is_mutator c = true ->
     recorded_gate c = Some g -> recorded_opcode c = Some o ->
     ~ (g = SWAP \/ g = U22 \/ g = IDENTITY) ->
     exists m,
       replayed_call c = Some m /\
       execute_opcode o k = on_statevector m k).
Proof.
  assert (Hsw : forall g, switch (gate_tag g) = case_default <->
                          g = SWAP \/ g = U22 \/ g = IDENTITY).
  { intros g. rewrite switch_gate_tag. split.
    - destruct g; intros E; try discriminate E; auto.
    - intros [-> | [-> | ->]]; reflexivity. }
  split; [exact Hsw|]. split; [|split].
  - intros c s g Hg. destruct (recorded_opcode_tag c g Hg) as (o & Ho & Htag).
    pose proof (record_shape c s) as Hs. rewrite Ho in Hs.
    destruct Hs as (l & Hl & _). exists o, l. split; assumption.
  - intros w pre o post g Hops Htag Hg.
    unfold execute_once. rewrite bind_run. simpl. rewrite Hops.
    rewrite !bind_run.
    destruct (on_simulator _ w) as [[[]|e|] w']; try reflexivity.
    apply replay_reaches_default. rewrite Htag. apply Hsw. exact Hg.
  - intros c g o k Hmut Hg Ho Hno.
    destruct (mutator_replayed_call c g Hmut Hg Hno) as [m Hm].
    exists m. split; [exact Hm|]. exact (replayed_call_run c m o k Hm Ho).
Qed.

End ReplayProperties.

Lemma unhandled_gates_fail_replay_witness :
  numbering_wf header_numbering /\
  execute_once (H := header_numbering) (H0 := PauliKernel.ops)
    ((swap (H := header_numbering) 0 1 [] false (member_init 2 [])).2, constant_draws 0) =
  (Throw (RuntimeError (opcode_message 1017)),
   (set_simulator (mkStatevector 2 [(1, 0); (0, 0); (0, 0); (0, 0)]%R)
      (swap (H := header_numbering) 0 1 [] false (member_init 2 [])).2, constant_draws 0)).
Proof.
  split; [exact header_numbering_wf|].
  exact (proj1 (proj2 (proj2 (@unhandled_gates_fail_replay header_numbering PauliKernel.ops
                                header_numbering_wf)))
           ((swap (H := header_numbering) 0 1 [] false (member_init 2 [])).2, constant_draws 0)
           [] (mkOpcode 1017 [0%N; 1%N] [] false []) [] SWAP eq_refl eq_refl
           (or_introl eq_refl)).
Defined.

(** C5, the defect and the failing input.  Whatever the numbering of the
    gate tags and whatever the kernel, the replay of a recorded CNOT
    opcode calls [cnot] with an empty controller set and without dagger:
    the [global_controller] and [dagger] fields of the opcode are dropped,
    where the replay of a CZ opcode, like that of every other gate, hands
    both to the kernel.
    At the failing input, three qubits with [x(0)] and then
    [cnot(0, 1, {2})] recorded without noise, the stream holds the CNOT
    opcode with its controller, qubit 2, which is |0> throughout, so a
    CNOT that respects the controller does nothing: the kernel applied
    directly leaves |001>.  [execute_once] ends in |011> instead: the CNOT
    fired. *)
Theorem cnot_replay_ignores_controller :
  (forall (G : GateNumbering) (K : Simulator.Ops),
     numbering_wf G ->
     forall (q0 q1 : N) (ps : list R) (dg : bool) (gc : list N) (k : Kernel),
       execute_opcode (mkOpcode (gate_tag CNOT) [q0; q1] ps dg gc) k =
       on_statevector (Simulator.cnot q0 q1 [] false) k /\
       execute_opcode (mkOpcode (gate_tag CZ) [q0; q1] ps dg gc) k =
       on_statevector (Simulator.cz q0 q1 gc dg) k) /\
  opcodes controlled_cnot_program =
    [mkOpcode 1002 [0%N] [] false []; mkOpcode 1009 [0%N; 1%N] [] false [2%N]] /\
  controlled_cnot_direct =
    (Ret tt, mkStatevector 3
       [(0, 0); (1, 0); (0, 0); (0, 0); (0, 0); (0, 0); (0, 0); (0, 0)]%R) /\
  (let r := execute_once (H := header_numbering) (H0 := PauliKernel.ops)
              (controlled_cnot_program, constant_draws 0) in
   r.1 = Ret tt /\
   simulator r.2.1 =
     mkStatevector 3 [(0, 0); (0, 0); (0, 0); (1, 0); (0, 0); (0, 0); (0, 0); (0, 0)]%R).
Proof.
  split.
  - intros G K Hwf q0 q1 ps dg gc k. split.
    + apply execute_opcode_cnot. exact Hwf.
    + apply execute_opcode_cz. exact Hwf.
  - repeat split; vm_compute; reflexivity.
Qed.

Lemma cnot_replay_ignores_controller_witness :
  numbering_wf header_numbering /\
  execute_opcode (H := header_numbering) (H0 := PauliKernel.ops)
    (mkOpcode 1009 [0%N; 1%N] [] false [2%N]) (one_state, constant_draws 0) =
  on_statevector (Simulator.cnot (Ops := PauliKernel.ops) 0 1 [] false)
    (one_state, constant_draws 0).
Proof.
  split; [exact header_numbering_wf|].
  exact (proj1 (proj1 cnot_replay_ignores_controller header_numbering PauliKernel.ops
                  header_numbering_wf 0%N 1%N [] false [2%N]
                  (one_state, constant_draws 0))).
Defined.

(** ** Comparisons of doubles *)

Lemma Rltb_true (a b : R) : (a < b)%R -> Rltb a b = true.
Proof. intros Hlt. unfold Rltb. destruct (Rlt_dec a b); [reflexivity | contradiction]. Qed.

Lemma Rltb_false (a b : R) : ~ (a < b)%R -> Rltb a b = false.
Proof. intros Hlt. unfold Rltb. destruct (Rlt_dec a b); [contradiction | reflexivity]. Qed.

Lemma Rgtb_true (a b : R) : (a > b)%R -> Rgtb a b = true.
Proof. intros Hgt. unfold Rgtb. destruct (Rgt_dec a b); [reflexivity | contradiction]. Qed.

Lemma Rgtb_false (a b : R) : (a <= b)%R -> Rgtb a b = false.
Proof. intros Hle. unfold Rgtb. destruct (Rgt_dec a b); [lra | reflexivity]. Qed.

Lemma Rleb_true (a b : R) : (a <= b)%R -> Rleb a b = true.
Proof. intros Hle. unfold Rleb. destruct (Rle_dec a b); [reflexivity | contradiction]. Qed.

Lemma Rleb_false (a b : R) : (b < a)%R -> Rleb a b = false.
Proof. intros Hlt. unfold Rleb. destruct (Rle_dec a b); [lra | reflexivity]. Qed.

(** ** The depolarizing channel *)

Lemma rand_run (sv : StatevectorSimulator) (rng : Rng) :
  rand (sv, rng) = (Ret (rng 0%nat), (sv, later_draws rng)).
Proof. reflexivity. Qed.

Section Depolarizing.
Context `{K : Simulator.Ops}.

Lemma depolarizing_run (qn : N) (p : R) (sv : StatevectorSimulator) (rng : Rng) :
  depolarizing qn p (sv, rng) =
  if Rgtb (rng 0%nat) p then (Ret tt, (sv, later_draws rng))
  else if Rltb (rng 0%nat) (p / 3)
       then on_statevector (Simulator.x qn [] false) (sv, later_draws rng)
  else if Rltb (rng 0%nat) (p / 3 * 2)
       then on_statevector (Simulator.y qn [] false) (sv, later_draws rng)
  else on_statevector (Simulator.z qn [] false) (sv, later_draws rng).
Proof.
  unfold depolarizing. rewrite bind_run, rand_run.
  destruct (Rgtb _ p); [reflexivity|].
  destruct (Rltb _ (p / 3)); [reflexivity|].
  destruct (Rltb _ (p / 3 * 2)); reflexivity.
Qed.

(** C3 (amended).  The depolarizing channel takes one draw [r].  If
    [r > p] the state is unchanged.  Otherwise it applies X when
    [r < p/3], Y when [p/3 <= r < 2p/3] and Z when [2p/3 <= r]; in
    particular, for [p >= 0], at the boundary [r = p] it applies Z. *)
Theorem depolarizing_branches (qn : N) (p : R) (sv : StatevectorSimulator) (rng : Rng) :
  let r := rng 0%nat in
  ((r > p)%R -> depolarizing qn p (sv, rng) = (Ret tt, (sv, later_draws rng))) /\
  ((r <= p)%R -> (r < p / 3)%R ->
   depolarizing qn p (sv, rng) =
   on_statevector (Simulator.x qn [] false) (sv, later_draws rng)) /\
  ((r <= p)%R -> (p / 3 <= r)%R -> (r < 2 * p / 3)%R ->
   depolarizing qn p (sv, rng) =
   on_statevector (Simulator.y qn [] false) (sv, later_draws rng)) /\
  ((r <= p)%R -> (2 * p / 3 <= r)%R ->
   depolarizing qn p (sv, rng) =
   on_statevector (Simulator.z qn [] false) (sv, later_draws rng)) /\
  ((0 <= p)%R -> r = p ->
   depolarizing qn p (sv, rng) =
   on_statevector (Simulator.z qn [] false) (sv, later_draws rng)).
Proof.
  intros r. subst r. rewrite depolarizing_run. repeat split.
  - intros Hr. rewrite Rgtb_true by exact Hr. reflexivity.
  - intros Hr H1. rewrite Rgtb_false, Rltb_true by assumption. reflexivity.
  - intros Hr H1 H2. rewrite Rgtb_false by assumption.
    rewrite Rltb_false, Rltb_true by lra. reflexivity.
  - intros Hr H2. rewrite Rgtb_false by assumption.
    rewrite !Rltb_false by lra. reflexivity.
  - intros Hp Hr. rewrite Rgtb_false by lra.
    rewrite !Rltb_false by lra. reflexivity.
Qed.

End Depolarizing.

(** C3, counterexample.  One qubit in |1>, [p = 1/2] and the draw
    [r = 1/2]: here [r >= p], and the channel does not leave the state
    unchanged; it applies Z, which negates the amplitude of |1>. *)
Lemma depolarizing_fires_at_boundary :
  ~ (forall (K : Simulator.Ops) (qn : N) (p : R) (sv : StatevectorSimulator) (rng : Rng),
       (0 <= p <= 1)%R -> (0 <= rng 0%nat < 1)%R -> (rng 0%nat >= p)%R ->
       @depolarizing K qn p (sv, rng) = (Ret tt, (sv, later_draws rng))).
Proof.
  intros Hclaim.
  specialize (Hclaim PauliKernel.ops 0%N (1 / 2)%R one_state (constant_draws (1 / 2))).
  unfold constant_draws in Hclaim at 1 2 3.
  specialize (Hclaim ltac:(lra) ltac:(lra) ltac:(lra)).
  rewrite depolarizing_run in Hclaim. unfold constant_draws in Hclaim.
  rewrite Rgtb_false in Hclaim by lra.
  rewrite !Rltb_false in Hclaim by lra.
  vm_compute in Hclaim. injection Hclaim as Hneg. lra.
Qed.

Lemma depolarizing_branches_witness :
  (constant_draws (1 / 2) 0%nat <= 1 / 2)%R /\
  (2 * (1 / 2) / 3 <= constant_draws (1 / 2) 0%nat)%R /\
  @depolarizing PauliKernel.ops 0 (1 / 2) (one_state, constant_draws (1 / 2)) =
  on_statevector (Simulator.z (Ops := PauliKernel.ops) 0 [] false)
    (one_state, later_draws (constant_draws (1 / 2))).
Proof.
  assert (H1 : (constant_draws (1 / 2) 0%nat <= 1 / 2)%R) by (unfold constant_draws; lra).
  assert (H2 : (2 * (1 / 2) / 3 <= constant_draws (1 / 2) 0%nat)%R)
    by (unfold constant_draws; lra).
  split; [exact H1|]. split; [exact H2|].
  exact (proj1 (proj2 (proj2 (proj2
           (@depolarizing_branches PauliKernel.ops 0 (1 / 2) one_state
              (constant_draws (1 / 2)))))) H1 H2).
Defined.

(** ** Counted loops *)

Lemma for_range_0 {S : Type} (body : N -> S -> S) (s : S) : for_range 0 body s = s.
Proof. reflexivity. Qed.

Lemma for_range_succ {S : Type} (n : N) (body : N -> S -> S) (s : S) :
  for_range (N.succ n) body s = body n (for_range n body s).
Proof. unfold for_range. apply (N.peano_rect_succ (fun _ => S)). Qed.

Lemma for_range_ext {S : Type} (n : N) (body body' : N -> S -> S) (s : S) :
  (forall i acc, (i < n)%N -> body i acc = body' i acc) ->
  for_range n body s = for_range n body' s.
Proof.
  induction n as [|n IH] using N.peano_ind; intros Hb.
  - reflexivity.
  - rewrite !for_range_succ, IH by (intros; apply Hb; lia). apply Hb. lia.
Qed.

(** ** The basis-index sampler *)

Lemma remainder_succ (st : list complex_t) (r : R) (k : N) :
  remainder st r (N.succ k) = (remainder st r k - abs_sqr (vget st k))%R.
Proof. unfold remainder. rewrite for_range_succ. reflexivity. Qed.

Lemma measure_scan_none (st : list complex_t) (r : R) (count : nat) (i : N) :
  (forall j, (i <= j < i + N.of_nat count)%N -> ~ (remainder st r (N.succ j) < 0)%R) ->
  measure_scan st count i (remainder st r i) = None.
Proof.
  revert i. induction count as [|count IH]; intros i Hall; [reflexivity|].
  simpl. rewrite Rltb_false.
  - rewrite <- remainder_succ, <- N.add_1_r. rewrite N.add_1_r.
    replace (i + 1)%N with (N.succ i) by lia. apply IH.
    intros j Hj. apply Hall. lia.
  - intros Hlt. apply (Hall i); [lia|]. rewrite remainder_succ. lra.
Qed.

Lemma measure_scan_some (st : list complex_t) (r : R) (count : nat) (i k : N) :
  (i <= k < i + N.of_nat count)%N ->
  (forall j, (i <= j < k)%N -> ~ (remainder st r (N.succ j) < 0)%R) ->
  (remainder st r (N.succ k) < 0)%R ->
  measure_scan st count i (remainder st r i) = Some k.
Proof.
  revert i. induction count as [|count IH]; intros i Hk Hbefore Hat; [lia|].
  simpl. destruct (N.eq_dec i k) as [->|Hne].
  - rewrite Rltb_true; [reflexivity|]. rewrite remainder_succ in Hat. lra.
  - rewrite Rltb_false.
    + rewrite <- remainder_succ. replace (i + 1)%N with (N.succ i) by lia.
      apply IH; [lia | intros j Hj; apply Hbefore; lia | exact Hat].
    + intros Hlt. apply (Hbefore i); [lia|]. rewrite remainder_succ. lra.
Qed.

Lemma get_measure_run (w : Machine) :
  get_measure_no_readout_error w =
  match measure_scan (state (simulator w.1)) (N.to_nat (pow2 (total_qubit (simulator w.1))))
          0%N (w.2 0%nat) with
  | Some i => (Ret i, (w.1, later_draws w.2))
  | None => (Throw (RuntimeError measure_message), (w.1, later_draws w.2))
  end.
Proof.
  destruct w as [s rng]. unfold get_measure_no_readout_error, on_simulator.
  rewrite bind_run, rand_run, bind_run. simpl.
  destruct (measure_scan _ _ _ _); simpl; rewrite set_simulator_simulator; reflexivity.
Qed.

(** C2 (amended).  The sampler takes one draw [r] and walks the indices
    [i = 0 ... 2^n - 1], subtracting [|psi[i]|^2] from what is left of [r].
    It returns the first [i] at which the remainder becomes negative.  If
    the remainder is negative at no index, it raises a runtime-error. *)
Theorem sampler_returns_first_negative (w : Machine) :
  let st := state (simulator w.1) in
  let n := pow2 (total_qubit (simulator w.1)) in
  let r := w.2 0%nat in
  (forall i,
     (i < n)%N ->
     (forall j, (j < i)%N -> ~ (remainder st r (N.succ j) < 0)%R) ->
     (remainder st r (N.succ i) < 0)%R ->
     get_measure_no_readout_error w = (Ret i, (w.1, later_draws w.2))) /\
  ((forall j, (j < n)%N -> ~ (remainder st r (N.succ j) < 0)%R) ->
   get_measure_no_readout_error w =
   (Throw (RuntimeError measure_message), (w.1, later_draws w.2))).
Proof.
  intros st n r. split.
  - intros i Hi Hbefore Hat. rewrite get_measure_run.
    change (w.2 0%nat) with (remainder st r 0).
    fold st. fold n. rewrite (measure_scan_some st r _ 0 i); [reflexivity | lia | | exact Hat].
    intros j Hj. apply Hbefore. lia.
  - intros Hall. rewrite get_measure_run.
    change (w.2 0%nat) with (remainder st r 0).
    fold st. fold n. rewrite measure_scan_none; [reflexivity|].
    intros j Hj. apply Hall. lia.
Qed.

(** C2, counterexample.  One qubit in |1> and the draw [r = 0].  After
    [|psi[0]|^2 = 0] is subtracted the remainder is [0], which is
    non-positive, so the sampler of the claim returns index 0; the source
    tests [r < |psi[i]|^2], goes on and returns index 1. *)
Lemma one_state_magnitudes :
  abs_sqr (vget (state one_state) 0) = 0%R /\ abs_sqr (vget (state one_state) 1) = 1%R.
Proof. unfold abs_sqr, vget. simpl. split; lra. Qed.

Lemma sampler_passes_zero_remainder :
  get_measure_no_readout_error
    (set_simulator one_state (member_init 1 []), constant_draws 0) =
    (Ret 1%N, (set_simulator one_state (member_init 1 []), later_draws (constant_draws 0))) /\
  sample_until_non_positive (state one_state) (N.to_nat (pow2 (total_qubit one_state))) 0 0
    = Some 0%N.
Proof.
  destruct one_state_magnitudes as [H0 H1]. split.
  - rewrite get_measure_run.
    change (measure_scan _ _ _ _) with
      (if Rltb 0 (abs_sqr (vget (state one_state) 0)) then Some 0%N
       else if Rltb (0 - abs_sqr (vget (state one_state) 0)) (abs_sqr (vget (state one_state) 1))
            then Some 1%N else None).
    rewrite H0, H1, Rltb_false, Rltb_true by lra. reflexivity.
  - change (sample_until_non_positive _ _ _ _) with
      (if Rleb (0 - abs_sqr (vget (state one_state) 0)) 0 then Some 0%N
       else if Rleb (0 - abs_sqr (vget (state one_state) 0) - abs_sqr (vget (state one_state) 1)) 0
            then Some 1%N else None).
    rewrite H0, Rleb_true by lra. reflexivity.
Qed.

Lemma sampler_returns_first_negative_witness :
  (1 < pow2 1)%N /\
  get_measure_no_readout_error
    (set_simulator one_state (member_init 1 []), constant_draws 0) =
    (Ret 1%N, (set_simulator one_state (member_init 1 []), later_draws (constant_draws 0))).
Proof.
  split; [reflexivity|].
  destruct one_state_magnitudes as [H0 H1].
  apply (proj1 (sampler_returns_first_negative
                  (set_simulator one_state (member_init 1 []), constant_draws 0)) 1%N).
  - reflexivity.
  - intros j Hj. assert (j = 0%N) as -> by lia.
    rewrite remainder_succ. change (remainder _ _ 0) with 0%R.
    change (state (simulator _)) with (state one_state). rewrite H0. lra.
  - change (N.succ 1) with (N.succ (N.succ 0)). rewrite !remainder_succ.
    change (remainder _ _ 0) with 0%R.
    change (state (simulator _)) with (state one_state).
    change (N.succ 0) with 1%N. rewrite H0, H1. lra.
Defined.

(** ** Bits of basis indices *)

Lemma qubit_is_one_testbit (i qn : N) : qubit_is_one i qn = N.testbit i qn.
Proof.
  unfold qubit_is_one.
  rewrite <- (N.add_0_l qn) at 2. rewrite <- N.shiftr_spec by lia.
  destruct (N.shiftr i qn) as [|[p|p|]]; reflexivity.
Qed.

(** Adding [2^q] toggles bit [q]. *)
Lemma testbit_add_pow2 (j q : N) : N.testbit (j + 2 ^ q) q = negb (N.testbit j q).
Proof.
  assert (Hpos : (2 ^ q <> 0)%N) by (apply N.pow_nonzero; lia).
  assert (Hb : forall a, N.testbit a q = N.odd (a / 2 ^ q)).
  { intros a. rewrite <- N.bit0_odd, <- N.shiftr_div_pow2, N.shiftr_spec by lia.
    rewrite N.add_0_l. reflexivity. }
  rewrite !Hb. replace (j + 2 ^ q)%N with (j + 1 * 2 ^ q)%N by lia.
  rewrite N.div_add by exact Hpos. rewrite N.add_1_r.
  rewrite N.odd_succ, <- N.negb_odd. reflexivity.
Qed.

Lemma testbit_true_ge (k q : N) : N.testbit k q = true -> (2 ^ q <= k)%N.
Proof.
  intros Hb. destruct (N.le_gt_cases (2 ^ q) k) as [Hle|Hlt]; [exact Hle|].
  exfalso. revert Hb.
  rewrite <- (N.add_0_l q) at 1. rewrite <- N.shiftr_spec by lia.
  rewrite N.shiftr_div_pow2, N.div_small by exact Hlt. discriminate.
Qed.

Lemma testbit_sub_pow2 (k q : N) :
  N.testbit k q = true -> N.testbit (k - 2 ^ q) q = false /\ (k - 2 ^ q + 2 ^ q = k)%N.
Proof.
  intros Hb. pose proof (testbit_true_ge k q Hb) as Hge.
  assert (Hk : (k - 2 ^ q + 2 ^ q = k)%N) by lia.
  split; [|exact Hk].
  rewrite <- Hk in Hb. rewrite testbit_add_pow2 in Hb.
  destruct (N.testbit (k - 2 ^ q) q); [discriminate | reflexivity].
Qed.

(** Below [2^n], setting a clear bit [q < n] stays below [2^n]. *)
Lemma set_bit_below (j q n : N) :
  (q < n)%N -> (j < 2 ^ n)%N -> N.testbit j q = false -> (j + 2 ^ q < 2 ^ n)%N.
Proof.
  intros Hq Hj Hb.
  assert (Hn : (2 ^ n = 2 ^ q * (2 * 2 ^ (n - q - 1)))%N).
  { rewrite <- N.pow_succ_r', <- N.pow_add_r. f_equal. lia. }
  assert (Hpos : (0 < 2 ^ q)%N) by (apply N.neq_0_lt_0, N.pow_nonzero; lia).
  pose proof (N.div_mod j (2 ^ q) ltac:(lia)) as Hdm.
  pose proof (N.mod_upper_bound j (2 ^ q) ltac:(lia)) as Hmod.
  assert (Heven : N.odd (j / 2 ^ q) = false).
  { rewrite <- N.bit0_odd, <- N.shiftr_div_pow2, N.shiftr_spec by lia.
    rewrite N.add_0_l. exact Hb. }
  assert (Hev : N.even (j / 2 ^ q) = true) by (rewrite <- N.negb_odd, Heven; reflexivity).
  apply N.even_spec in Hev. destruct Hev as [a Ha].
  rewrite Ha in Hdm. rewrite Hn in Hj |- *.
  set (m := (2 ^ q)%N) in *. set (t := (2 ^ (n - q - 1))%N) in *.
  set (r := (j `mod` m)%N) in *. clearbody m t r. clear Ha Heven Hb Hn.
  assert (Hat : (a < t)%N).
  { apply N.lt_nge. intros Hta.
    assert ((m * (2 * t) <= m * (2 * a))%N) by (apply N.mul_le_mono_l; lia). lia. }
  assert (Hstep : (m * (2 * (a + 1)) <= m * (2 * t))%N) by (apply N.mul_le_mono_l; lia).
  lia.
Qed.

(** ** Reading and writing amplitudes *)

Lemma vget_lookup (st : list complex_t) (j : nat) :
  vget st (N.of_nat j) = default czero (st !! j).
Proof. unfold vget. rewrite Nat2N.id. reflexivity. Qed.

Lemma vset_vget (st : list complex_t) (i : N) : vset st i (vget st i) = st.
Proof.
  unfold vset, vget. destruct (st !! N.to_nat i) as [z|] eqn:E.
  - apply list_insert_id. exact E.
  - apply list_insert_ge. apply lookup_ge_None. exact E.
Qed.

Lemma lookup_vset (st : list complex_t) (i : N) (v : complex_t) (j : nat) :
  vset st i v !! j =
  if decide (N.to_nat i = j /\ (N.to_nat i < length st)%nat) then Some v else st !! j.
Proof. unfold vset. apply list_lookup_insert. Qed.

Lemma length_vset (st : list complex_t) (i : N) (v : complex_t) :
  length (vset st i v) = length st.
Proof. unfold vset. apply length_insert. Qed.

(** A loop that rewrites each amplitude from its own old value. *)
Lemma for_range_pointwise (g : N -> complex_t -> complex_t) (n : N) (st : list complex_t) :
  for_range n (fun i st => vset st i (g i (vget st i))) st =
  imap (fun j z => if (N.of_nat j <? n)%N then g (N.of_nat j) z else z) st.
Proof.
  induction n as [|n IH] using N.peano_ind.
  - rewrite for_range_0. apply list_eq. intros j. rewrite list_lookup_imap.
    destruct (st !! j); [|reflexivity]. simpl. destruct (N.of_nat j); reflexivity.
  - rewrite for_range_succ, IH. apply list_eq. intros j.
    rewrite lookup_vset, !list_lookup_imap, length_imap.
    unfold vget. rewrite list_lookup_imap.
    destruct (decide (N.to_nat n = j /\ (N.to_nat n < length st)%nat)) as [[<- Hlt]|Hne].
    + destruct (lookup_lt_is_Some_2 st _ Hlt) as [z Hz]. rewrite Hz. simpl.
      rewrite N2Nat.id. rewrite (proj2 (N.ltb_ge n n)) by lia.
      rewrite (proj2 (N.ltb_lt n (N.succ n))) by lia. reflexivity.
    + destruct (st !! j) as [z|] eqn:Hz; [|reflexivity]. simpl.
      assert (Hj : N.of_nat j <> n).
      { intros <-. apply Hne. rewrite Nat2N.id. split; [reflexivity|].
        apply lookup_lt_is_Some. eauto. }
      destruct (N.ltb_spec (N.of_nat j) n), (N.ltb_spec (N.of_nat j) (N.succ n));
        try reflexivity; lia.
Qed.

Lemma below_length (st : list complex_t) (nq : N) (j : nat) (z : complex_t) :
  length st = N.to_nat (pow2 nq) -> st !! j = Some z -> (N.of_nat j < pow2 nq)%N.
Proof. intros Hlen Hz. apply lookup_lt_Some in Hz. lia. Qed.

(** ** The loops of the damping step *)

Lemma damping_scale_closed (st : list complex_t) (nq qn : N) (E0 : R) :
  length st = N.to_nat (pow2 nq) ->
  damping_scale st nq qn E0 = scaled st qn E0.
Proof.
  intros Hlen. unfold damping_scale, scaled.
  pose (g := fun (i : N) (z : complex_t) => if N.testbit i qn then cscale z E0 else z).
  transitivity (for_range (pow2 nq) (fun i st => vset st i (g i (vget st i))) st).
  - apply for_range_ext. intros i acc _. rewrite qubit_is_one_testbit. unfold g.
    destruct (N.testbit i qn); [reflexivity | symmetry; apply vset_vget].
  - rewrite for_range_pointwise. apply imap_ext. intros j z Hz. simpl.
    rewrite (proj2 (N.ltb_lt _ _) (below_length st nq j z Hlen Hz)). reflexivity.
Qed.

Lemma normalize_run (sv : StatevectorSimulator) (rng : Rng) :
  length (state sv) = N.to_nat (pow2 (total_qubit sv)) ->
  normalize_state_vector (sv, rng) =
  (Ret tt, (mkStatevector (total_qubit sv) (normalized (state sv) (total_qubit sv)), rng)).
Proof.
  intros Hlen. unfold normalize_state_vector. rewrite bind_run. simpl.
  unfold set_state, modify. simpl. do 3 f_equal.
  change (for_range (pow2 (total_qubit sv))
            (fun i norm => (norm + abs_sqr (vget (state sv) i))%R) 0%R)
    with (norm_sqr (state sv) (total_qubit sv)).
  pose (g := fun (_ : N) (z : complex_t) =>
               cdiv z (sqrt (norm_sqr (state sv) (total_qubit sv)))).
  change (for_range (pow2 (total_qubit sv)) _ (state sv))
    with (for_range (pow2 (total_qubit sv)) (fun i st => vset st i (g i (vget st i)))
            (state sv)).
  rewrite for_range_pointwise. unfold normalized, g. apply list_eq. intros j.
  rewrite list_lookup_imap, list_lookup_fmap.
  destruct (state sv !! j) as [z|] eqn:Hz; [|reflexivity]. simpl.
  rewrite (proj2 (N.ltb_lt _ _) (below_length _ _ j z Hlen Hz)). reflexivity.
Qed.

Lemma decay_loop_invariant (st : list complex_t) (qn k : N) :
  (k <= N.of_nat (length st))%N ->
  for_range k (fun i st =>
    if qubit_is_one i qn then vset (vset st (i - pow2 qn) (vget st i)) i czero else st) st
  = decay_upto st qn k.
Proof.
  induction k as [|k IH] using N.peano_ind; intros Hk.
  - rewrite for_range_0. unfold decay_upto. apply list_eq. intros j.
    rewrite list_lookup_imap. destruct (st !! j) as [z|] eqn:Hz; [|reflexivity]. simpl.
    rewrite vget_lookup, Hz. simpl.
    destruct (N.testbit (N.of_nat j) qn).
    + destruct (N.of_nat j); reflexivity.
    + destruct (N.of_nat j + pow2 qn)%N; reflexivity.
  - rewrite for_range_succ, IH by lia. rewrite qubit_is_one_testbit.
    assert (Hcur : vget (decay_upto st qn k) k =
                   if N.testbit k qn then vget st k
                   else if (k + pow2 qn <? k)%N then vget st (k + pow2 qn) else vget st k).
    { unfold vget at 1. unfold decay_upto. rewrite list_lookup_imap.
      destruct (st !! N.to_nat k) as [z|] eqn:Hz; [|exfalso].
      - simpl. rewrite N2Nat.id, N.ltb_irrefl. reflexivity.
      - apply lookup_ge_None in Hz. lia. }
    destruct (N.testbit k qn) eqn:Hbit.
    + destruct (testbit_sub_pow2 k qn Hbit) as [Hclear Hsum]. unfold pow2 in *.
      rewrite Hcur. apply list_eq. intros j.
      rewrite !lookup_vset, length_vset. unfold decay_upto, pow2.
      rewrite length_imap, !list_lookup_imap.
      destruct (st !! j) as [z|] eqn:Hz;
        [|repeat case_decide; try reflexivity;
          apply lookup_ge_None in Hz; lia].
      simpl.
      destruct (decide (N.to_nat k = j /\ _)) as [[<- _]|Hnk].
      * rewrite N2Nat.id, Hbit. rewrite (proj2 (N.ltb_lt k (N.succ k))) by lia. reflexivity.
      * assert (Hjk : N.of_nat j <> k).
        { intros <-. apply Hnk. rewrite Nat2N.id. split; [reflexivity|].
          apply lookup_lt_Some in Hz. exact Hz. }
        destruct (decide (N.to_nat (k - 2 ^ qn) = j /\ _)) as [[<- _]|Hnz].
        -- rewrite N2Nat.id, Hclear, Hsum.
           rewrite (proj2 (N.ltb_lt k (N.succ k))) by lia. reflexivity.
        -- assert (Hjz : (N.of_nat j + 2 ^ qn)%N <> k).
           { intros E. apply Hnz. split; [lia|]. apply lookup_lt_Some in Hz. lia. }
           destruct (N.testbit (N.of_nat j) qn).
           ++ destruct (N.ltb_spec (N.of_nat j) k), (N.ltb_spec (N.of_nat j) (N.succ k));
                try reflexivity; lia.
           ++ destruct (N.ltb_spec (N.of_nat j + 2 ^ qn) k),
                       (N.ltb_spec (N.of_nat j + 2 ^ qn) (N.succ k));
                try reflexivity; lia.
    + apply list_eq. intros j. unfold decay_upto. rewrite !list_lookup_imap.
      destruct (st !! j) as [z|] eqn:Hz; [|reflexivity]. simpl.
      destruct (N.testbit (N.of_nat j) qn) eqn:Hj.
      * assert (N.of_nat j <> k) by (intros <-; congruence).
        destruct (N.ltb_spec (N.of_nat j) k), (N.ltb_spec (N.of_nat j) (N.succ k));
          try reflexivity; lia.
      * assert ((N.of_nat j + pow2 qn)%N <> k).
        { intros <-. unfold pow2 in Hbit. rewrite testbit_add_pow2, Hj in Hbit.
          discriminate. }
        destruct (N.ltb_spec (N.of_nat j + pow2 qn) k),
                 (N.ltb_spec (N.of_nat j + pow2 qn) (N.succ k));
          try reflexivity; lia.
Qed.

Lemma damping_decay_closed (st : list complex_t) (nq qn : N) :
  length st = N.to_nat (pow2 nq) -> (qn < nq)%N ->
  damping_decay st nq qn = decayed st qn.
Proof.
  intros Hlen Hq. unfold damping_decay. cbv zeta.
  rewrite decay_loop_invariant by lia.
  unfold decay_upto, decayed. apply imap_ext. intros j z Hz. simpl.
  pose proof (below_length st nq j z Hlen Hz) as Hj.
  destruct (N.testbit (N.of_nat j) qn) eqn:Hbit.
  - rewrite (proj2 (N.ltb_lt _ _) Hj). reflexivity.
  - unfold pow2 in *. rewrite (proj2 (N.ltb_lt _ _) (set_bit_below _ _ _ Hq Hj Hbit)).
    reflexivity.
Qed.

(** ** Sums over basis indices *)

Lemma sum_where_succ (n : N) (c : N -> bool) (f : N -> R) :
  sum_where (N.succ n) c f =
  if c n then (sum_where n c f + f n)%R else sum_where n c f.
Proof. unfold sum_where. rewrite for_range_succ. reflexivity. Qed.

Lemma sum_where_ext (n : N) (c c' : N -> bool) (f f' : N -> R) :
  (forall i, (i < n)%N -> c i = c' i) ->
  (forall i, (i < n)%N -> c i = true -> f i = f' i) ->
  sum_where n c f = sum_where n c' f'.
Proof.
  induction n as [|n IH] using N.peano_ind; intros Hc Hf; [reflexivity|].
  rewrite !sum_where_succ, <- Hc by lia.
  rewrite IH by (intros; first [apply Hc | apply Hf]; first [lia | assumption]).
  destruct (c n) eqn:E; [|reflexivity]. rewrite Hf by (first [lia | assumption]).
  reflexivity.
Qed.

Lemma sum_where_none (n : N) (c : N -> bool) (f : N -> R) :
  (forall i, (i < n)%N -> c i = false) -> sum_where n c f = 0%R.
Proof.
  induction n as [|n IH] using N.peano_ind; intros Hc; [reflexivity|].
  rewrite sum_where_succ, Hc by lia. apply IH. intros; apply Hc; lia.
Qed.

Lemma sum_where_add (a b : N) (c : N -> bool) (f : N -> R) :
  sum_where (a + b) c f =
  (sum_where a c f + sum_where b (fun i => c (a + i)%N) (fun i => f (a + i)%N))%R.
Proof.
  induction b as [|b IH] using N.peano_ind.
  - rewrite N.add_0_r. unfold sum_where at 3. rewrite for_range_0. lra.
  - rewrite N.add_succ_r, !sum_where_succ, IH. destruct (c (a + b)%N); lra.
Qed.

Lemma sum_where_scale (n : N) (c : N -> bool) (f : N -> R) (x : R) :
  sum_where n c (fun i => x * f i)%R = (x * sum_where n c f)%R.
Proof.
  induction n as [|n IH] using N.peano_ind.
  - unfold sum_where. rewrite !for_range_0. lra.
  - rewrite !sum_where_succ, IH. destruct (c n); lra.
Qed.

Lemma sum_where_plus (n : N) (c : N -> bool) (f g : N -> R) :
  sum_where n c (fun i => f i + g i)%R = (sum_where n c f + sum_where n c g)%R.
Proof.
  induction n as [|n IH] using N.peano_ind.
  - unfold sum_where. rewrite !for_range_0. lra.
  - rewrite !sum_where_succ, IH. destruct (c n); lra.
Qed.

Lemma testbit_below (i n : N) : (i < 2 ^ n)%N -> N.testbit i n = false.
Proof.
  intros Hi. rewrite <- (N.add_0_l n). rewrite <- N.shiftr_spec by lia.
  rewrite N.shiftr_div_pow2, N.div_small by exact Hi. reflexivity.
Qed.

(** Adding [2^n] leaves the bits below [n] alone. *)
Lemma testbit_add_pow2_high (j q n : N) :
  (q < n)%N -> N.testbit (j + 2 ^ n) q = N.testbit j q.
Proof.
  intros Hq.
  assert (Hb : forall a, N.testbit a q = N.odd (a / 2 ^ q)).
  { intros a. rewrite <- N.bit0_odd, <- N.shiftr_div_pow2, N.shiftr_spec by lia.
    rewrite N.add_0_l. reflexivity. }
  assert (Hn : (2 ^ n = 2 * 2 ^ (n - q - 1) * 2 ^ q)%N).
  { rewrite <- N.pow_succ_r', <- N.pow_add_r. f_equal. lia. }
  rewrite !Hb, Hn, N.div_add by (apply N.pow_nonzero; lia).
  apply N.odd_add_mul_2.
Qed.

(** The amplitudes of the zero-states, summed over their one-state
    partners, are the amplitudes of the zero-states. *)
Lemma sum_where_partner (n q : N) (f : N -> R) :
  (q < n)%N ->
  sum_where (2 ^ n) (fun i => N.testbit i q) (fun i => f (i - 2 ^ q)%N) =
  sum_where (2 ^ n) (fun i => negb (N.testbit i q)) f.
Proof.
  revert f. induction n as [|n IH] using N.peano_ind; intros f Hq; [lia|].
  replace (2 ^ N.succ n)%N with (2 ^ n + 2 ^ n)%N by (rewrite N.pow_succ_r'; lia).
  rewrite !sum_where_add.
  destruct (N.eq_dec q n) as [->|Hne].
  - rewrite (sum_where_none _ (fun i => N.testbit i n)) by (intros; apply testbit_below; lia).
    rewrite (sum_where_none _ (fun i => negb (N.testbit (2 ^ n + i) n))).
    2:{ intros i Hi. rewrite N.add_comm, testbit_add_pow2, testbit_below by exact Hi.
        reflexivity. }
    rewrite Rplus_0_l, Rplus_0_r. apply sum_where_ext.
    + intros i Hi. rewrite N.add_comm, testbit_add_pow2, !testbit_below by exact Hi.
      reflexivity.
    + intros i Hi _. f_equal. lia.
  - assert (Hq' : (q < n)%N) by lia. rewrite IH by exact Hq'. f_equal.
    transitivity (sum_where (2 ^ n) (fun i => negb (N.testbit i q))
                    (fun i => f (2 ^ n + i)%N)).
    + rewrite <- (IH (fun i => f (2 ^ n + i)%N)) by exact Hq'.
      apply sum_where_ext.
      * intros i Hi. rewrite N.add_comm. apply testbit_add_pow2_high. exact Hq'.
      * intros i Hi Hb. rewrite N.add_comm, testbit_add_pow2_high in Hb by exact Hq'.
        apply testbit_true_ge in Hb. f_equal. lia.
    + apply sum_where_ext; [|reflexivity].
      intros i Hi. rewrite (N.add_comm (2 ^ n)), testbit_add_pow2_high by exact Hq'.
      reflexivity.
Qed.

Lemma abs_sqr_cscale (z : complex_t) (x : R) :
  abs_sqr (cscale z x) = (x * x * abs_sqr z)%R.
Proof. unfold abs_sqr, cscale. simpl. ring. Qed.

Lemma damping_probabilities_sums (st : list complex_t) (nq qn : N) (E0 E1 : R) :
  damping_probabilities st nq qn E0 E1 =
  (sum_where (pow2 nq) (fun i => N.testbit i qn)
     (fun i => abs_sqr (cscale (vget st i) E0) + abs_sqr (vget st (i - pow2 qn)))%R,
   sum_where (pow2 nq) (fun i => N.testbit i qn)
     (fun i => abs_sqr (cscale (vget st i) E1))).
Proof.
  unfold damping_probabilities. generalize (pow2 nq) as k.
  induction k as [|k IH] using N.peano_ind; [reflexivity|].
  rewrite for_range_succ, IH, !sum_where_succ, qubit_is_one_testbit.
  destruct (N.testbit k qn); reflexivity.
Qed.

Lemma probability_true (st : list complex_t) (nq qn : N) :
  probability st nq qn true =
  sum_where (pow2 nq) (fun i => N.testbit i qn) (fun i => abs_sqr (vget st i)).
Proof.
  unfold probability. apply sum_where_ext; [|reflexivity].
  intros i _. destruct (N.testbit i qn); reflexivity.
Qed.

Lemma probability_false (st : list complex_t) (nq qn : N) :
  probability st nq qn false =
  sum_where (pow2 nq) (fun i => negb (N.testbit i qn)) (fun i => abs_sqr (vget st i)).
Proof.
  unfold probability. apply sum_where_ext; [|reflexivity].
  intros i _. destruct (N.testbit i qn); reflexivity.
Qed.

(** The two accumulators of the first loop of [damping], in closed form. *)
Lemma damping_probabilities_closed (st : list complex_t) (nq qn : N) (p : R) :
  (qn < nq)%N -> (0 <= p <= 1)%R ->
  damping_probabilities st nq qn (sqrt (1 - p)) (sqrt p) =
  (((1 - p) * probability st nq qn true + probability st nq qn false)%R,
   (p * probability st nq qn true)%R).
Proof.
  intros Hq Hp. rewrite damping_probabilities_sums, probability_true, probability_false.
  f_equal.
  - rewrite sum_where_plus. unfold pow2.
    rewrite (sum_where_partner nq qn (fun i => abs_sqr (vget st i))) by exact Hq. f_equal.
    rewrite <- sum_where_scale. apply sum_where_ext; [reflexivity|].
    intros i _ _. rewrite abs_sqr_cscale, sqrt_sqrt by lra. reflexivity.
  - rewrite <- sum_where_scale. apply sum_where_ext; [reflexivity|].
    intros i _ _. rewrite abs_sqr_cscale, sqrt_sqrt by lra. reflexivity.
Qed.

(** Over all basis states the two probabilities add up to the squared norm. *)
Lemma probabilities_sum (st : list complex_t) (nq qn : N) :
  (probability st nq qn true + probability st nq qn false)%R = norm_sqr st nq.
Proof.
  rewrite probability_true, probability_false. unfold norm_sqr.
  generalize (pow2 nq) as k. induction k as [|k IH] using N.peano_ind.
  - unfold sum_where. rewrite !for_range_0. lra.
  - rewrite !sum_where_succ, for_range_succ, <- IH. destruct (N.testbit k qn); simpl; lra.
Qed.

(** ** The amplitude-damping step *)

Lemma damping_run (sv : StatevectorSimulator) (rng : Rng) (qn : N) (p : R) :
  length (state sv) = N.to_nat (pow2 (total_qubit sv)) ->
  (qn < total_qubit sv)%N ->
  damping qn p (sv, rng) =
  let st := state sv in
  let nq := total_qubit sv in
  let probabilities := damping_probabilities st nq qn (sqrt (1 - p)) (sqrt p) in
  if Rgtb (Rabs (probabilities.1 + probabilities.2 - 1)) 1e-10
  then (Throw (RuntimeError damping_message), (sv, rng))
  else (Ret tt,
        (mkStatevector nq
           (normalized (if Rltb (rng 0%nat) probabilities.2 then decayed st qn
                        else scaled st qn (sqrt (1 - p))) nq),
         later_draws rng)).
Proof.
  intros Hlen Hq. unfold damping. cbv zeta. rewrite bind_run. simpl.
  destruct (Rgtb _ _); [reflexivity|].
  rewrite bind_run, rand_run, bind_run.
  destruct (Rltb _ _).
  - unfold set_state, modify. simpl.
    rewrite normalize_run; simpl.
    + rewrite damping_decay_closed by assumption. reflexivity.
    + rewrite damping_decay_closed by assumption. unfold decayed.
      rewrite length_imap. exact Hlen.
  - unfold set_state, modify. simpl.
    rewrite normalize_run; simpl.
    + rewrite damping_scale_closed by assumption. reflexivity.
    + rewrite damping_scale_closed by assumption. unfold scaled.
      rewrite length_imap. exact Hlen.
Qed.

(** C1 (amended).  On a state vector of [2^n] amplitudes, for a qubit
    [q < n] and a probability [p] in [0, 1], the amplitude-damping operation
    computes the decay-branch probability [p1] as [p] times the sum of
    [|psi[i]|^2] over the indices with bit [q] set, and the no-decay
    probability [p0] as [1 - p] times that sum plus the sum of [|psi[i]|^2]
    over the indices with bit [q] clear, so that [p0 + p1] is the squared
    norm of the state (and [p0 = 1 - p1] for a unit vector).  It raises a
    runtime-error, without drawing and without touching the state, if and
    only if [|p0 + p1 - 1| > 1e-10].  Otherwise it takes one draw [r]: if
    [r < p1] every pair [(i0, i1)] gets [psi[i0] <- psi[i1]] and
    [psi[i1] <- 0], else every [psi[i1]] is multiplied by [sqrt (1 - p)];
    in both branches the state is then divided by its norm. *)
Theorem damping_step (sv : StatevectorSimulator) (rng : Rng) (qn : N) (p : R) :
  length (state sv) = N.to_nat (pow2 (total_qubit sv)) ->
  (qn < total_qubit sv)%N ->
  (0 <= p <= 1)%R ->
  let st := state sv in
  let nq := total_qubit sv in
  let p1 := (p * probability st nq qn true)%R in
  let p0 := ((1 - p) * probability st nq qn true + probability st nq qn false)%R in
  damping_probabilities st nq qn (sqrt (1 - p)) (sqrt p) = (p0, p1) /\
  (p0 + p1)%R = norm_sqr st nq /\
  ((Rabs (p0 + p1 - 1) > 1e-10)%R ->
   damping qn p (sv, rng) = (Throw (RuntimeError damping_message), (sv, rng))) /\
  ((Rabs (p0 + p1 - 1) <= 1e-10)%R -> (rng 0%nat < p1)%R ->
   damping qn p (sv, rng) =
   (Ret tt, (mkStatevector nq (normalized (decayed st qn) nq), later_draws rng))) /\
  ((Rabs (p0 + p1 - 1) <= 1e-10)%R -> ~ (rng 0%nat < p1)%R ->
   damping qn p (sv, rng) =
   (Ret tt, (mkStatevector nq (normalized (scaled st qn (sqrt (1 - p))) nq),
             later_draws rng))).
Proof.
  intros Hlen Hq Hp st nq p1 p0.
  pose proof (damping_probabilities_closed st nq qn p Hq Hp) as Hprob.
  fold p0 p1 in Hprob.
  split; [exact Hprob|]. split.
  { unfold p0, p1. rewrite <- probabilities_sum with (qn := qn). ring. }
  rewrite damping_run by assumption. cbv zeta. fold st nq. rewrite Hprob. simpl.
  repeat split.
  - intros Hgt. rewrite Rgtb_true by exact Hgt. reflexivity.
  - intros Hle Hr. rewrite Rgtb_false, Rltb_true by assumption. reflexivity.
  - intros Hle Hr. rewrite Rgtb_false, Rltb_false by assumption. reflexivity.
Qed.

Lemma long_state_probabilities :
  probability (state long_state) 1 0 true = 0%R /\
  probability (state long_state) 1 0 false = 4%R.
Proof.
  unfold probability. change (pow2 1) with (N.succ (N.succ 0)).
  rewrite !sum_where_succ. unfold sum_where. rewrite !for_range_0.
  unfold abs_sqr, vget. simpl. split; lra.
Qed.

(** C1, counterexample.  One qubit with the amplitudes [(2, 0)], [q = 0]
    and [p = 0].  The claim's [p1] is [0] and its [p0 = 1 - p1] is [1], so
    [p0 + p1 - 1 = 0] and no error is due.  The source accumulates
    [p0 = 4]: [|p0 + p1 - 1| = 3], and the operation raises the
    runtime-error. *)
Lemma damping_rejects_long_state :
  claimed_probabilities (state long_state) 1 0 0 = (1, 0)%R /\
  damping_probabilities (state long_state) 1 0 (sqrt (1 - 0)) (sqrt 0) = (4, 0)%R /\
  damping 0 0 (long_state, constant_draws 0) =
  (Throw (RuntimeError damping_message), (long_state, constant_draws 0)).
Proof.
  destruct long_state_probabilities as [H1 H0].
  assert (Hprob : damping_probabilities (state long_state) 1 0 (sqrt (1 - 0)) (sqrt 0)
                  = (4, 0)%R).
  { rewrite (damping_probabilities_closed (state long_state) 1 0 0) by (first [lia | lra]).
    rewrite H1, H0. f_equal; lra. }
  split; [|split].
  - unfold claimed_probabilities. rewrite H1. f_equal; lra.
  - exact Hprob.
  - rewrite damping_run by (first [reflexivity | simpl; lia]). cbv zeta.
    change (total_qubit long_state) with 1%N. rewrite Hprob. simpl.
    rewrite Rgtb_true; [reflexivity|].
    replace (4 + 0 - 1)%R with 3%R by lra. rewrite Rabs_pos_eq by lra. lra.
Qed.

Lemma damping_step_witness :
  length (state one_state) = N.to_nat (pow2 (total_qubit one_state)) /\
  (0 < total_qubit one_state)%N /\
  (0 <= 1 / 2 <= 1)%R /\
  damping_probabilities (state one_state) 1 0 (sqrt (1 - 1 / 2)) (sqrt (1 / 2)) =
  (((1 - 1 / 2) * probability (state one_state) 1 0 true
    + probability (state one_state) 1 0 false)%R,
   (1 / 2 * probability (state one_state) 1 0 true)%R).
Proof.
  assert (H1 : length (state one_state) = N.to_nat (pow2 (total_qubit one_state)))
    by reflexivity.
  assert (H2 : (0 < total_qubit one_state)%N) by reflexivity.
  assert (H3 : (0 <= 1 / 2 <= 1)%R) by lra.
  split; [exact H1|]. split; [exact H2|]. split; [exact H3|].
  exact (proj1 (damping_step one_state (constant_draws 0) 0 (1 / 2) H1 H2 H3)).
Defined.

(** * Further properties of the code *)

(** ** The gate-name parser *)

Lemma string_to_SupportOperationType_cases (gate_str : string) :
  (exists g, string_to_SupportOperationType gate_str = Ret g /\
             gate_name g = Some gate_str) \/
  (string_to_SupportOperationType gate_str = Throw (RuntimeError (gate_str_message gate_str)) /\
   forall g, gate_name g <> Some gate_str).
Proof.
  unfold string_to_SupportOperationType.
  repeat match goal with
  | |- context [String.eqb gate_str ?name] =>
    destruct (String.eqb_spec gate_str name) as [->|?];
      [left; eexists; split; reflexivity|]
  end.
  right. split; [reflexivity|].
  intros [] E; simpl in E; try discriminate; injection E as E; congruence.
Qed.

Lemma gate_name_parses (g : SupportOperationType) (gate_str : string) :
  gate_name g = Some gate_str -> string_to_SupportOperationType gate_str = Ret g.
Proof. destruct g; simpl; intros E; try discriminate; injection E as <-; reflexivity. Qed.

Lemma parsed_gate_name (gate_str : string) (g : SupportOperationType) :
  string_to_SupportOperationType gate_str = Ret g -> gate_name g = Some gate_str.
Proof.
  intros E. destruct (string_to_SupportOperationType_cases gate_str) as [[g' [E' Hn]]|[E' _]].
  - congruence.
  - congruence.
Qed.

Lemma gate_str_message_contains (gate_str : string) :
  contains (gate_str_message gate_str) gate_str.
Proof.
  exists "Failed to handle gate_str: "%string, (newline +:+ "Please check.")%string.
  reflexivity.
Qed.

(** X1.  [string_to_SupportOperationType] and the gate names are inverse
    to each other: a string parses to a gate exactly when it is the
    upper-case name of that gate, one of the sixteen the header lists. *)
Theorem gate_name_round_trip (gate_str : string) (g : SupportOperationType) :
  string_to_SupportOperationType gate_str = Ret g <-> gate_name g = Some gate_str.
Proof. split; [apply parsed_gate_name | apply gate_name_parses]. Qed.

(** X2.  Whenever [string_to_SupportOperationType] does not return a
    gate, it throws the runtime error whose message is built from the
    string and contains it: the parser has no other way out. *)
Theorem unknown_gate_name_throws (gate_str : string) :
  (forall g, string_to_SupportOperationType gate_str <> Ret g) ->
  string_to_SupportOperationType gate_str = Throw (RuntimeError (gate_str_message gate_str)) /\
  contains (gate_str_message gate_str) gate_str.
Proof.
  intros Hno. split.
  - destruct (string_to_SupportOperationType_cases gate_str) as [[g [E _]]|[E _]].
    + exfalso. exact (Hno g E).
    + exact E.
  - apply gate_str_message_contains.
Qed.

Lemma unknown_gate_name_throws_witness :
  string_to_SupportOperationType "hadamard" =
    Throw (RuntimeError (gate_str_message "hadamard")) /\
  contains (gate_str_message "hadamard") "hadamard".
Proof.
  apply (unknown_gate_name_throws "hadamard").
  intros g E. vm_compute in E. discriminate E.
Defined.

(** ** The recorder under the global and the gate-dependent policy *)

Lemma set_opcodes_twice (a b : list OpcodeType) (s : NoisySimulator) :
  set_opcodes a (set_opcodes b s) = set_opcodes a s.
Proof. reflexivity. Qed.

Lemma emplace_back_run (o : OpcodeType) (s : NoisySimulator) :
  emplace_back o s = (Ret tt, set_opcodes (opcodes s ++ [o]) s).
Proof. reflexivity. Qed.

Lemma insert_gate_dependent_error_run (qubits : list N) (g : SupportOperationType)
    (s : NoisySimulator) :
  _insert_gate_dependent_error qubits g s =
  (Ret tt,
   set_opcodes (opcodes s ++ optional_opcodes qubits (gate_dependent_noise s !! g)) s).
Proof.
  unfold _insert_gate_dependent_error. rewrite bind_run. simpl.
  destruct (decide (gate_dependent_noise s = ∅)) as [E|_].
  - rewrite E, lookup_empty. simpl. rewrite app_nil_r, set_opcodes_opcodes. reflexivity.
  - destruct (gate_dependent_noise s !! g) as [m|]; simpl.
    + apply insert_generic_error_run.
    + rewrite app_nil_r, set_opcodes_opcodes. reflexivity.
Qed.

Lemma global_insert_error_run (qubits : list N) (g : SupportOperationType)
    (s : NoisySimulator) :
  dynamic_class s = Class_NoisySimulator -> noise_in_range (noise s) ->
  insert_error qubits g s =
  (Ret tt, set_opcodes (opcodes s ++ generic_opcodes qubits (noise s)) s).
Proof.
  intros Hc Hr. unfold insert_error. rewrite bind_run. simpl. rewrite Hc.
  apply insert_global_error_run. exact Hr.
Qed.

Lemma gate_dependent_insert_error_run (qubits : list N) (g : SupportOperationType)
    (s : NoisySimulator) :
  dynamic_class s = Class_GateDependent -> noise_in_range (noise s) ->
  insert_error qubits g s =
  (Ret tt,
   set_opcodes (opcodes s ++ generic_opcodes qubits (noise s)
                  ++ optional_opcodes qubits (gate_dependent_noise s !! g)) s).
Proof.
  intros Hc Hr. unfold insert_error. rewrite bind_run. simpl. rewrite Hc.
  unfold GateDependent_insert_error. rewrite bind_run.
  rewrite insert_global_error_run by exact Hr.
  rewrite insert_gate_dependent_error_run. simpl. rewrite <- app_assoc. reflexivity.
Qed.

Section MoreRecorder.
Context `{GateNumbering}.

Lemma record_unfold (c : Recording) (g : SupportOperationType) (o : OpcodeType) :
  recorded_gate c = Some g -> recorded_opcode c = Some o ->
  record c = (emplace_back o;; insert_error (qubits o) g).
Proof.
  destruct c; simpl; intros Hg Ho;
    try (injection Hg as <-; injection Ho as <-; reflexivity).
  unfold load_opcode. destruct (string_to_SupportOperationType opstr); try discriminate.
  injection Hg as <-. injection Ho as <-. reflexivity.
Qed.

Lemma recorded_gate_of_opcode (c : Recording) (o : OpcodeType) :
  recorded_opcode c = Some o -> exists g, recorded_gate c = Some g /\ op o = gate_tag g.
Proof.
  destruct c; simpl; intros Ho; try (injection Ho as <-; eexists; split; reflexivity).
  destruct (string_to_SupportOperationType opstr); try discriminate.
  injection Ho as <-. eexists; split; reflexivity.
Qed.

(** The opcodes one recording call puts on the stream under the global
    policy. *)
Lemma global_policy_step (c : Recording) (o : OpcodeType) (s : NoisySimulator) :
  dynamic_class s = Class_NoisySimulator -> noise_in_range (noise s) ->
  recorded_opcode c = Some o ->
  record c s =
  (Ret tt, set_opcodes (opcodes s ++ o :: generic_opcodes (qubits o) (noise s)) s).
Proof.
  intros Hc Hr Ho. destruct (recorded_gate_of_opcode c o Ho) as [g [Hg _]].
  rewrite (record_unfold c g o Hg Ho), bind_run, emplace_back_run.
  rewrite global_insert_error_run by assumption. simpl.
  rewrite <- app_assoc. reflexivity.
Qed.

(** X3.  [load_opcode] with the name of a gate and the operands a mutator
    puts into its opcode is that mutator: the string interface and the
    sixteen named mutators record the same. *)
Theorem load_opcode_agrees_with_mutator (c : Recording) (g : SupportOperationType)
    (name : string) (o : OpcodeType) :
  recorded_gate c = Some g -> gate_name g = Some name -> recorded_opcode c = Some o ->
  load_opcode name (qubits o) (parameters o) (dagger o) (global_controller o) = record c.
Proof.
  intros Hg Hn Ho. rewrite (record_unfold c g o Hg Ho).
  unfold load_opcode. rewrite (gate_name_parses g name Hn).
  destruct (recorded_gate_of_opcode c o Ho) as [g' [Hg' Hop]].
  assert (g' = g) by congruence. subst g'.
  destruct o as [tag qs ps dg gc]. simpl in *. rewrite Hop. reflexivity.
Qed.

(** X4.  Under the global policy a program of recording calls goes through
    and leaves on the stream, for each call in order, its gate opcode
    followed by one noise opcode per entry of the global noise map, on the
    qubits of the gate; nothing else of the object changes. *)
Theorem global_policy_stream (cs : list Recording) (s : NoisySimulator) :
  dynamic_class s = Class_NoisySimulator -> noise_in_range (noise s) ->
  Forall (fun c => is_Some (recorded_opcode c)) cs ->
  for_each cs record s =
  (Ret tt,
   set_opcodes
     (opcodes s ++
      flat_map (fun c =>
        match recorded_opcode c with
        | Some o => o :: generic_opcodes (qubits o) (noise s)
        | None => []
        end) cs) s).
Proof.
  intros Hc Hr Hcs. revert s Hc Hr.
  induction Hcs as [|c cs [o Ho] _ IH]; intros s Hc Hr.
  - simpl. rewrite app_nil_r, set_opcodes_opcodes. reflexivity.
  - simpl. rewrite bind_run, (global_policy_step c o s Hc Hr Ho), Ho.
    rewrite IH by (simpl; assumption). simpl. rewrite <- app_assoc. reflexivity.
Qed.

(** X5.  Under the gate-dependent policy a recording call goes through and
    appends its gate opcode, then the global noise opcodes, then the noise
    opcodes of the map configured for its gate, if there is one; all on
    the qubits of the gate. *)
Theorem gate_dependent_policy (c : Recording) (g : SupportOperationType) (o : OpcodeType)
    (s : NoisySimulator) :
  dynamic_class s = Class_GateDependent -> noise_in_range (noise s) ->
  recorded_gate c = Some g -> recorded_opcode c = Some o ->
  record c s =
  (Ret tt,
   set_opcodes
     (opcodes s ++ o :: generic_opcodes (qubits o) (noise s)
        ++ optional_opcodes (qubits o) (gate_dependent_noise s !! g)) s).
Proof.
  intros Hc Hr Hg Ho.
  rewrite (record_unfold c g o Hg Ho), bind_run, emplace_back_run.
  rewrite gate_dependent_insert_error_run by assumption. simpl.
  rewrite <- app_assoc. reflexivity.
Qed.

Lemma record_keeps_noise (c : Recording) (s : NoisySimulator) :
  noise (record c s).2 = noise s /\ dynamic_class (record c s).2 = dynamic_class s.
Proof.
  pose proof (record_shape c s) as Hs.
  destruct (recorded_opcode c) as [o|].
  - destruct Hs as [ops [-> _]]. split; reflexivity.
  - destruct Hs as [-> _]. split; reflexivity.
Qed.

Lemma program_keeps_noise (cs : list Recording) (s : NoisySimulator) :
  noise (for_each cs record s).2 = noise s.
Proof.
  revert s. induction cs as [|c cs IH]; intros s; [reflexivity|].
  simpl. rewrite bind_run.
  destruct (record c s) as [[[]|e|] s'] eqn:E; simpl;
    pose proof (record_keeps_noise c s) as [Hn _]; rewrite E in Hn; simpl in Hn.
  - rewrite IH. exact Hn.
  - exact Hn.
  - exact Hn.
Qed.

End MoreRecorder.

Lemma constructed_noise_in_range (n_qubit : N) (noise_description : gmap string R)
    (measurement_error : list (R * R)) (s : NoisySimulator) :
  noise s = ∅ -> noise_in_range (noise (_load_noise noise_description s).2).
Proof.
  intros Hs. rewrite load_noise_run. simpl. rewrite Hs.
  split; rewrite !lookup_record_token; simpl; apply lookup_empty.
Qed.

(** X6.  The runtime error of [_insert_global_error] is unreachable: an
    object built by the constructor holds none of the sentinels as a key of
    its global noise map, and no recording call changes that map, so after
    any program of recording calls the global pass still goes through. *)
Theorem global_error_unreachable `{GateNumbering} (n_qubit : N)
    (noise_description : gmap string R) (measurement_error : list (R * R))
    (cs : list Recording) (qubits : list N) :
  let built := (NoisySimulator_new n_qubit noise_description measurement_error).2 in
  let s := (for_each cs record built).2 in
  _insert_global_error qubits s =
  (Ret tt, set_opcodes (opcodes s ++ generic_opcodes qubits (noise s)) s).
Proof.
  intros built s. apply insert_global_error_run.
  unfold s. rewrite program_keeps_noise. unfold built, NoisySimulator_new.
  apply (constructed_noise_in_range n_qubit noise_description measurement_error).
  reflexivity.
Qed.

Lemma load_opcode_agrees_with_mutator_witness :
  load_opcode (H := header_numbering) "RPHI" [1%N] [0.5%R; 0.25%R] true [0%N] =
  rphi (H := header_numbering) 1 0.5 0.25 [0%N] true.
Proof.
  exact (@load_opcode_agrees_with_mutator header_numbering
           (call_rphi 1 0.5 0.25 [0%N] true) RPHI "RPHI"
           (mkOpcode 1015 [1%N] [0.5%R; 0.25%R] true [0%N]) eq_refl eq_refl eq_refl).
Defined.

Lemma global_policy_stream_witness :
  for_each [call_x 0 [] false; call_cnot 0 1 [] false] (record (H := header_numbering))
    bitflip_example =
  (Ret tt,
   set_opcodes
     [mkOpcode 1002 [0%N] [] false []; mkOpcode 3 [0%N] [0.5%R] false [];
      mkOpcode 1009 [0%N; 1%N] [] false []; mkOpcode 3 [0%N; 1%N] [0.5%R] false []]
     bitflip_example).
Proof.
  refine (@global_policy_stream header_numbering
            [call_x 0 [] false; call_cnot 0 1 [] false] bitflip_example eq_refl _ _).
  - split; reflexivity.
  - repeat constructor; eexists; reflexivity.
Defined.

Lemma gate_dependent_policy_witness :
  record (H := header_numbering) (call_x 0 [] false) gate_dependent_example =
  (Ret tt,
   set_opcodes
     [mkOpcode 1002 [0%N] [] false []; mkOpcode 3 [0%N] [0.5%R] false [];
      mkOpcode 4 [0%N] [0.25%R] false []]
     gate_dependent_example).
Proof.
  refine (@gate_dependent_policy header_numbering (call_x 0 [] false) X
            (mkOpcode 1002 [0%N] [] false []) gate_dependent_example eq_refl _ eq_refl eq_refl).
  split; reflexivity.
Defined.

(** ** The loaders of the derived classes *)

Lemma lift_outcome_run {S A : Type} (o : outcome A) (s : S) : lift_outcome o s = (o, s).
Proof. reflexivity. Qed.

Lemma for_each_cons_run {S A : Type} (a : A) (l : list A) (body : A -> M S unit) (s : S) :
  for_each (a :: l) body s =
  match body a s with
  | (Ret _, s') => for_each l body s'
  | (Throw e, s') => (Throw e, s')
  | (Undefined, s') => (Undefined, s')
  end.
Proof. simpl. rewrite bind_run. destruct (body a s) as [[[]|e|] s']; reflexivity. Qed.

Lemma string_to_NoiseType_inj (name name' : string) (t : NoiseType) :
  string_to_NoiseType name = Ret t -> string_to_NoiseType name' = Ret t -> name = name'.
Proof.
  intros E E'.
  destruct (string_to_NoiseType_cases name) as [[t1 [E1 H1]]|[E1 _]]; [|congruence].
  destruct (string_to_NoiseType_cases name') as [[t2 [E2 H2]]|[E2 _]]; [|congruence].
  congruence.
Qed.

Lemma string_to_NoiseType_defined (name : string) : string_to_NoiseType name <> Undefined.
Proof.
  destruct (string_to_NoiseType_cases name) as [[t [E _]]|[E _]]; rewrite E; discriminate.
Qed.

Lemma string_to_SupportOperationType_inj (name name' : string) (g : SupportOperationType) :
  string_to_SupportOperationType name = Ret g ->
  string_to_SupportOperationType name' = Ret g -> name = name'.
Proof. intros E E'. apply parsed_gate_name in E, E'. congruence. Qed.

Lemma string_to_SupportOperationType_defined (name : string) :
  string_to_SupportOperationType name <> Undefined.
Proof.
  destruct (string_to_SupportOperationType_cases name) as [[g [E _]]|[E _]];
    rewrite E; discriminate.
Qed.

Lemma load_noise_probabilities_throw (l : list (string * R)) (m0 : gmap NoiseType R)
    (e : exception) :
  load_noise_probabilities l m0 = Throw e ->
  exists pre name p post,
    l = pre ++ (name, p) :: post /\
    Forall (fun entry => exists t, string_to_NoiseType entry.1 = Ret t) pre /\
    string_to_NoiseType name = Throw e.
Proof.
  revert m0. induction l as [|[n0 p0] l IH]; intros m0 Hrun; simpl in Hrun; [discriminate|].
  destruct (string_to_NoiseType n0) as [t0|e0|] eqn:E0; [| |discriminate].
  - destruct (IH _ Hrun) as (pre & name & p & post & -> & Hpre & Hname).
    exists ((n0, p0) :: pre), name, p, post. split; [reflexivity|]. split; [|exact Hname].
    constructor; [exists t0; exact E0 | exact Hpre].
  - injection Hrun as ->. exists [], n0, p0, l. split; [reflexivity|].
    split; [constructor | exact E0].
Qed.

Lemma load_noise_probabilities_defined (l : list (string * R)) (m0 : gmap NoiseType R) :
  load_noise_probabilities l m0 <> Undefined.
Proof.
  revert m0. induction l as [|[n0 p0] l IH]; intros m0; simpl; [discriminate|].
  pose proof (string_to_NoiseType_defined n0) as Hd.
  destruct (string_to_NoiseType n0); [apply IH | discriminate | congruence].
Qed.

Lemma load_noise_probabilities_ret (l : list (string * R)) (m0 m : gmap NoiseType R) :
  NoDup l.*1 -> load_noise_probabilities l m0 = Ret m ->
  Forall (fun entry => exists t, string_to_NoiseType entry.1 = Ret t) l /\
  forall t p,
    m !! t = Some p <->
    (exists name, (name, p) ∈ l /\ string_to_NoiseType name = Ret t) \/
    (m0 !! t = Some p /\ forall name, name ∈ l.*1 -> string_to_NoiseType name <> Ret t).
Proof.
  revert m0. induction l as [|[n0 p0] l IH]; intros m0 Hnd Hrun; simpl in Hrun.
  - injection Hrun as <-. split; [constructor|]. intros t p. split.
    + intros Hp. right. split; [exact Hp|]. intros name Hin. inversion Hin.
    + intros [[name [Hin _]]|[Hp _]]; [inversion Hin | exact Hp].
  - rewrite fmap_cons in Hnd. apply NoDup_cons in Hnd. destruct Hnd as [Hfresh Hnd].
    simpl in Hfresh.
    destruct (string_to_NoiseType n0) as [t0| |] eqn:E0; try discriminate.
    destruct (IH _ Hnd Hrun) as [Hall Hm]. split.
    + constructor; [exists t0; exact E0 | exact Hall].
    + intros t p. rewrite Hm. split.
      * intros [[name [Hin Hn]]|[Hp Hno]].
        -- left. exists name. split; [right; exact Hin | exact Hn].
        -- rewrite lookup_insert in Hp. destruct (decide (t0 = t)) as [<-|Hne].
           ++ injection Hp as <-. left. exists n0. split; [left | exact E0].
           ++ right. split; [exact Hp|]. intros name Hin.
              apply elem_of_cons in Hin. destruct Hin as [->|Hin].
              ** simpl. congruence.
              ** apply Hno. exact Hin.
      * intros [[name [Hin Hn]]|[Hp Hno]].
        -- apply elem_of_cons in Hin. destruct Hin as [E|Hin].
           ++ injection E as -> ->. right.
              assert (t = t0) by congruence. subst t. split.
              ** apply lookup_insert_eq.
              ** intros name Hin Hname.
                 rewrite (string_to_NoiseType_inj name n0 t0 Hname E0) in Hin.
                 exact (Hfresh Hin).
           ++ left. exists name. split; assumption.
        -- assert (Hne : t0 <> t).
           { intros <-. apply (Hno n0); [left | exact E0]. }
           right. split.
           ++ rewrite lookup_insert_ne by exact Hne. exact Hp.
           ++ intros name Hin. apply Hno. right. exact Hin.
Qed.

Lemma load_noise_probabilities_translates (l : list (string * R)) (m : gmap NoiseType R) :
  NoDup l.*1 -> load_noise_probabilities l ∅ = Ret m -> translates l m.
Proof.
  intros Hnd Hrun. destruct (load_noise_probabilities_ret l ∅ m Hnd Hrun) as [_ Hm].
  intros t p. rewrite Hm. split.
  - intros [H|[H _]]; [exact H|]. rewrite lookup_empty in H. discriminate.
  - intros H. left. exact H.
Qed.

(** X7.  The translation of a map of named probabilities, in which no
    name comes twice, into a map keyed by noise type; this is the inner
    loop of the three loaders.  When it returns, every name of the
    description was turned into a noise type by [string_to_NoiseType], and
    the result holds a probability under a noise type exactly when the
    description holds that probability under a name that the parser turns
    into that type.  Otherwise it throws what the parser throws for the
    first name of the description that the parser does not turn into a
    noise type. *)
Theorem noise_loader_outcome (noise_type : list (string * R)) :
  NoDup noise_type.*1 ->
  match load_noise_probabilities noise_type ∅ with
  | Ret m =>
    Forall (fun entry => exists t, string_to_NoiseType entry.1 = Ret t) noise_type /\
    translates noise_type m
  | Throw e =>
    exists pre name p post,
      noise_type = pre ++ (name, p) :: post /\
      Forall (fun entry => exists t, string_to_NoiseType entry.1 = Ret t) pre /\
      string_to_NoiseType name = Throw e
  | Undefined => False
  end.
Proof.
  intros Hnd.
  destruct (load_noise_probabilities noise_type ∅) as [m|e|] eqn:Hrun.
  - split.
    + exact (proj1 (load_noise_probabilities_ret _ _ _ Hnd Hrun)).
    + exact (load_noise_probabilities_translates _ _ Hnd Hrun).
  - exact (load_noise_probabilities_throw _ _ _ Hrun).
  - exact (load_noise_probabilities_defined _ _ Hrun).
Qed.

Lemma noise_type_example_names : NoDup noise_type_example.*1.
Proof.
  apply NoDup_cons. split.
  - intros Hin. apply list_elem_of_singleton in Hin. discriminate Hin.
  - apply NoDup_cons. split; [apply not_elem_of_nil | apply NoDup_nil_2].
Qed.

Lemma noise_loader_outcome_witness :
  exists m, load_noise_probabilities noise_type_example ∅ = Ret m /\
            translates noise_type_example m.
Proof.
  pose proof (noise_loader_outcome noise_type_example noise_type_example_names) as Ho.
  destruct (load_noise_probabilities noise_type_example ∅) as [m|e|] eqn:E;
    [| exfalso | exfalso]; try (vm_compute in E; discriminate E).
  exists m. split; [reflexivity | exact (proj2 Ho)].
Defined.

(** *** The loop the loaders share *)

Section LoadEntries.
Context {E K D : Type} `{EqDecision K}.
Variable name : E -> string.
Variable noise_type : E -> list (string * R).
Variable ok : SupportOperationType -> bool.
Variable err : exception.
Variable store :
  SupportOperationType -> E -> gmap NoiseType R -> NoisySimulator -> NoisySimulator.
Variable key : SupportOperationType -> E -> K.
Variable find : K -> NoisySimulator -> option (gmap NoiseType R).
Variable dkey : E -> D.
Variable frame : NoisySimulator -> NoisySimulator -> Prop.

Hypothesis find_store : forall g e v s k,
  find k (store g e v s) = if decide (key g e = k) then Some v else find k s.
Hypothesis key_inj : forall g e g' e',
  string_to_SupportOperationType (name e) = Ret g ->
  string_to_SupportOperationType (name e') = Ret g' ->
  key g e = key g' e' -> dkey e = dkey e'.
Hypothesis frame_refl : forall s, frame s s.
Hypothesis frame_store : forall g e v s s', frame (store g e v s) s' -> frame s s'.

Lemma load_entries_cons (e : E) (d : list E) (s : NoisySimulator) :
  load_entries name noise_type ok err store (e :: d) s =
  match string_to_SupportOperationType (name e) with
  | Ret g =>
    if ok g then
      match load_noise_probabilities (noise_type e) ∅ with
      | Ret m => load_entries name noise_type ok err store d (store g e m s)
      | Throw x => (Throw x, s)
      | Undefined => (Undefined, s)
      end
    else (Throw err, s)
  | Throw x => (Throw x, s)
  | Undefined => (Undefined, s)
  end.
Proof.
  unfold load_entries. rewrite for_each_cons_run, bind_run, lift_outcome_run.
  destruct (string_to_SupportOperationType (name e)) as [g|x|]; try reflexivity.
  destruct (ok g); [|reflexivity].
  rewrite bind_run, lift_outcome_run.
  destruct (load_noise_probabilities (noise_type e) ∅); reflexivity.
Qed.

(** Every entry of the description ends up under its key, every entry
    found afterwards is an old one or comes from the description, and the
    keys of no entry keep what they held. *)
Lemma load_entries_outcome (d : list E) (s : NoisySimulator) :
  NoDup (dkey <$> d) -> Forall (fun e => NoDup (noise_type e).*1) d ->
  match load_entries name noise_type ok err store d s with
  | (Ret _, s') =>
    frame s s' /\
    (forall e, e ∈ d ->
       exists g m,
         string_to_SupportOperationType (name e) = Ret g /\ ok g = true /\
         find (key g e) s' = Some m /\ translates (noise_type e) m) /\
    (forall k m, find k s' = Some m ->
       find k s = Some m \/
       exists e g,
         e ∈ d /\ string_to_SupportOperationType (name e) = Ret g /\ key g e = k /\
         translates (noise_type e) m) /\
    (forall k,
       (forall e g, e ∈ d -> string_to_SupportOperationType (name e) = Ret g ->
                    key g e <> k) ->
       find k s' = find k s)
  | (Throw x, _) =>
    (exists e, e ∈ d /\ string_to_SupportOperationType (name e) = Throw x) \/
    (exists e n, e ∈ d /\ n ∈ (noise_type e).*1 /\ string_to_NoiseType n = Throw x) \/
    (x = err /\
     exists e g, e ∈ d /\ string_to_SupportOperationType (name e) = Ret g /\ ok g = false)
  | (Undefined, _) => False
  end.
Proof.
  revert s. induction d as [|e d IH]; intros s Hnd Hinner.
  - simpl. split; [apply frame_refl|]. split; [|split].
    + intros e He. inversion He.
    + intros k m Hk. left. exact Hk.
    + intros k _. reflexivity.
  - rewrite load_entries_cons.
    rewrite fmap_cons in Hnd. apply NoDup_cons in Hnd. destruct Hnd as [Hfresh Hnd].
    apply Forall_cons in Hinner. destruct Hinner as [Hnt Hinner].
    destruct (string_to_SupportOperationType (name e)) as [g|x|] eqn:Eg.
    + destruct (ok g) eqn:Eok.
      * destruct (load_noise_probabilities (noise_type e) ∅) as [m0|x|] eqn:El.
        -- pose proof (load_noise_probabilities_translates _ _ Hnt El) as Htr.
           specialize (IH (store g e m0 s) Hnd Hinner).
           destruct (load_entries name noise_type ok err store d (store g e m0 s))
             as [[[]|x|] s']; [| |exact IH].
           ++ destruct IH as (Hframe & Hall & Hfrom & Hkeep).
              assert (Hown : find (key g e) s' = Some m0).
              { rewrite Hkeep.
                - rewrite find_store. destruct (decide (key g e = key g e)); congruence.
                - intros e' g' He' Eg' Hkey. apply Hfresh.
                  rewrite <- (key_inj g' e' g e Eg' Eg Hkey).
                  apply list_elem_of_fmap_2. exact He'. }
              split; [exact (frame_store _ _ _ _ _ Hframe)|]. split; [|split].
              ** intros e' He'. apply elem_of_cons in He'. destruct He' as [->|He'].
                 --- exists g, m0. split_and!; assumption.
                 --- apply Hall. exact He'.
              ** intros k m Hk. destruct (Hfrom k m Hk) as [Hold|(e' & g' & He' & Hrest)].
                 --- rewrite find_store in Hold.
                     destruct (decide (key g e = k)) as [Hkey|Hkey].
                     +++ injection Hold as <-. right. exists e, g.
                         split; [left|]. split_and!; assumption.
                     +++ left. exact Hold.
                 --- right. exists e', g'. split; [right; exact He' | exact Hrest].
              ** intros k Hk. rewrite Hkeep.
                 --- rewrite find_store. destruct (decide (key g e = k)) as [Hkey|_];
                       [|reflexivity].
                     exfalso. apply (Hk e g); [left | exact Eg | exact Hkey].
                 --- intros e' g' He'. apply Hk. right. exact He'.
           ++ destruct IH as [(e' & He' & Hx)|[(e' & n & He' & Hn & Hx)|(-> & e' & g' & He' & Hx)]].
              ** left. exists e'. split; [right; exact He' | exact Hx].
              ** right. left. exists e', n. split; [right; exact He'|]. split; assumption.
              ** right. right. split; [reflexivity|]. exists e', g'.
                 split; [right; exact He' | exact Hx].
        -- right. left.
           destruct (load_noise_probabilities_throw _ _ _ El)
             as (pre & n & p & post & Hl & _ & Hn).
           exists e, n. split; [left|]. split; [|exact Hn].
           rewrite Hl, fmap_app, fmap_cons. apply elem_of_app. right. left.
        -- exact (load_noise_probabilities_defined _ _ El).
      * right. right. split; [reflexivity|]. exists e, g. split; [left|]. split; assumption.
    + left. exists e. split; [left | exact Eg].
    + exact (string_to_SupportOperationType_defined _ Eg).
Qed.

End LoadEntries.

Lemma gate_dependent_loader_outcome (gd : list (string * list (string * R)))
    (s : NoisySimulator) :
  NoDup gd.*1 -> Forall (fun e => NoDup e.2.*1) gd ->
  match _load_gate_dependent_noise gd s with
  | (Ret _, s') =>
    s' = set_gate_dependent_noise (gate_dependent_noise s') s /\
    (forall e, e ∈ gd ->
       exists g m,
         string_to_SupportOperationType e.1 = Ret g /\
         gate_dependent_noise s' !! g = Some m /\ translates e.2 m) /\
    (forall g m, gate_dependent_noise s' !! g = Some m ->
       gate_dependent_noise s !! g = Some m \/
       exists e,
         e ∈ gd /\ string_to_SupportOperationType e.1 = Ret g /\ translates e.2 m)
  | (Throw x, _) =>
    (exists e, e ∈ gd /\ string_to_SupportOperationType e.1 = Throw x) \/
    (exists e n, e ∈ gd /\ n ∈ e.2.*1 /\ string_to_NoiseType n = Throw x)
  | (Undefined, _) => False
  end.
Proof.
  intros Hnd Hinner.
  pose proof (load_entries_outcome (K := SupportOperationType)
                (fst : string * list (string * R) -> string) snd (fun _ => true)
                (RuntimeError "")
                (fun g _ np ns =>
                   set_gate_dependent_noise (<[g := np]> (gate_dependent_noise ns)) ns)
                (fun g _ => g) (fun k ns => gate_dependent_noise ns !! k) fst
                (fun s s' => s' = set_gate_dependent_noise (gate_dependent_noise s') s))
    as Hgen.
  specialize (Hgen ltac:(intros; simpl; apply lookup_insert)).
  specialize (Hgen ltac:(intros g e g' e' Eg Eg' Hk; simpl in Hk; subst g';
                          exact (string_to_SupportOperationType_inj _ _ _ Eg Eg'))).
  specialize (Hgen ltac:(intros s0; destruct s0; reflexivity)).
  specialize (Hgen ltac:(intros g e v s0 s' Hs'; exact Hs')).
  specialize (Hgen gd s Hnd Hinner).
  change (load_entries _ _ _ _ _ gd s) with (_load_gate_dependent_noise gd s) in Hgen.
  destruct (_load_gate_dependent_noise gd s) as [[[]|x|] s']; [| |exact Hgen].
  - destruct Hgen as (Hframe & Hall & Hfrom & _). split; [exact Hframe|]. split.
    + intros e He. destruct (Hall e He) as (g & m & Eg & _ & Hm & Htr).
      exists g, m. split_and!; assumption.
    + intros g m Hg. destruct (Hfrom g m Hg) as [Hold|(e & g' & He & Eg & Hk & Htr)].
      * left. exact Hold.
      * simpl in Hk. subst g'. right. exists e. split_and!; assumption.
  - destruct Hgen as [Hg|[Hn|(_ & e & g & _ & _ & Hok)]].
    + left. exact Hg.
    + right. exact Hn.
    + discriminate Hok.
Qed.

Lemma built_object (n_qubit : N) (noise_description : gmap string R)
    (measurement_error : list (R * R)) (c : SimulatorClass) :
  (_load_noise noise_description (set_class c (member_init n_qubit measurement_error))) =
  (Ret tt,
   set_class c (NoisySimulator_new n_qubit noise_description measurement_error).2).
Proof. unfold NoisySimulator_new. rewrite !load_noise_run. reflexivity. Qed.

(** X8.  The constructor of the gate-dependent class, given a description
    in which no gate name comes twice and whose noise maps name no noise
    twice, as in a [std::map].  When it returns, the object is what the
    base constructor builds but for its class and its gate-dependent map
    (empty opcode stream, [nqubit] as given, no sentinel among the keys of
    the global noise map); every entry of the description sits in the
    gate-dependent map under the gate that [string_to_SupportOperationType]
    makes of its name, as the translation of its noise map, and the map
    holds nothing else.  Otherwise it throws what
    [string_to_SupportOperationType] throws for a gate name of the
    description or what [string_to_NoiseType] throws for a noise name of
    it. *)
Theorem gate_dependent_constructor (n_qubit : N) (noise_description : gmap string R)
    (gate_noise_description : list (string * list (string * R)))
    (measurement_error : list (R * R)) :
  NoDup gate_noise_description.*1 ->
  Forall (fun e => NoDup e.2.*1) gate_noise_description ->
  match NoisySimulator_GateDependent_new n_qubit noise_description gate_noise_description
          measurement_error with
  | (Ret _, s) =>
    s = set_gate_dependent_noise (gate_dependent_noise s)
          (set_class Class_GateDependent
             (NoisySimulator_new n_qubit noise_description measurement_error).2) /\
    nqubit s = n_qubit /\ opcodes s = [] /\ noise_in_range (noise s) /\
    (forall name noise_type, (name, noise_type) ∈ gate_noise_description ->
       exists g m,
         string_to_SupportOperationType name = Ret g /\
         gate_dependent_noise s !! g = Some m /\ translates noise_type m) /\
    (forall g m, gate_dependent_noise s !! g = Some m ->
       exists name noise_type,
         (name, noise_type) ∈ gate_noise_description /\
         string_to_SupportOperationType name = Ret g /\ translates noise_type m)
  | (Throw e, s) =>
    (exists name,
       name ∈ gate_noise_description.*1 /\ string_to_SupportOperationType name = Throw e) \/
    (exists noise_type name,
       noise_type ∈ gate_noise_description.*2 /\ name ∈ noise_type.*1 /\
       string_to_NoiseType name = Throw e)
  | (Undefined, _) => False
  end.
Proof.
  intros Hnd Hinner. unfold NoisySimulator_GateDependent_new.
  rewrite bind_run, built_object.
  set (s0 := set_class Class_GateDependent
               (NoisySimulator_new n_qubit noise_description measurement_error).2).
  pose proof (gate_dependent_loader_outcome gate_noise_description s0 Hnd Hinner) as Hl.
  destruct (_load_gate_dependent_noise gate_noise_description s0) as [[[]|e|] s];
    [| |exact Hl].
  - destruct Hl as (Hframe & Hall & Hfrom).
    assert (Hs0 : s0 = set_class Class_GateDependent
                         (set_noise (noise s0) (member_init n_qubit measurement_error))).
    { unfold s0, NoisySimulator_new. rewrite load_noise_run. reflexivity. }
    split; [exact Hframe|].
    split; [rewrite Hframe, Hs0; reflexivity|].
    split; [rewrite Hframe, Hs0; reflexivity|].
    split.
    { rewrite Hframe. simpl.
      apply (constructed_noise_in_range n_qubit noise_description measurement_error).
      reflexivity. }
    split.
    + intros name noise_type Hin. exact (Hall (name, noise_type) Hin).
    + intros g m Hg. destruct (Hfrom g m Hg) as [Hold|([name nt] & Hin & Eg & Htr)].
      * rewrite Hs0 in Hold. simpl in Hold. rewrite lookup_empty in Hold. discriminate.
      * exists name, nt. split_and!; assumption.
  - destruct Hl as [(e0 & He0 & Hx)|(e0 & n & He0 & Hn & Hx)].
    + left. exists e0.1. split; [apply list_elem_of_fmap_2; exact He0 | exact Hx].
    + right. exists e0.2, n. split; [apply list_elem_of_fmap_2; exact He0|].
      split; assumption.
Qed.

Lemma gate_dependent_constructor_witness :
  (NoisySimulator_GateDependent_new 2 ∅ gate_noise_example []).1 = Ret tt /\
  exists g m,
    string_to_SupportOperationType "X" = Ret g /\
    gate_dependent_noise (NoisySimulator_GateDependent_new 2 ∅ gate_noise_example []).2
      !! g = Some m /\
    translates [("phaseflip", 0.25%R)]%string m.
Proof.
  assert (Hnd : NoDup gate_noise_example.*1).
  { apply NoDup_cons. split; [apply not_elem_of_nil | apply NoDup_nil_2]. }
  assert (Hinner : Forall (fun e => NoDup e.2.*1) gate_noise_example).
  { constructor; [|constructor]. simpl.
    apply NoDup_cons. split; [apply not_elem_of_nil | apply NoDup_nil_2]. }
  pose proof (gate_dependent_constructor 2 ∅ gate_noise_example [] Hnd Hinner) as Hc.
  destruct (NoisySimulator_GateDependent_new 2 ∅ gate_noise_example []) as [[[]|e|] s] eqn:E;
    [| exfalso | exfalso ]; try (vm_compute in E; discriminate E).
  split; [reflexivity|].
  exact (proj1 (proj2 (proj2 (proj2 (proj2 Hc)))) "X"%string [("phaseflip", 0.25%R)]%string
           ltac:(left)).
Defined.

Lemma gate_error1q_loader_outcome (d : list (string * N * list (string * R)))
    (s : NoisySimulator) :
  NoDup d.*1 -> Forall (fun e => NoDup e.2.*1) d ->
  match _load_gate_error1q d s with
  | (Ret _, s') =>
    s' = set_gate_error1q (gate_error1q s') s /\
    (forall e, e ∈ d ->
       exists g m,
         string_to_SupportOperationType e.1.1 = Ret g /\
         gate_error1q s' !! (g, e.1.2) = Some m /\ translates e.2 m) /\
    (forall k m, gate_error1q s' !! k = Some m ->
       gate_error1q s !! k = Some m \/
       exists e,
         e ∈ d /\ string_to_SupportOperationType e.1.1 = Ret k.1 /\ e.1.2 = k.2 /\
         translates e.2 m)
  | (Throw x, _) =>
    (exists e, e ∈ d /\ string_to_SupportOperationType e.1.1 = Throw x) \/
    (exists e n, e ∈ d /\ n ∈ e.2.*1 /\ string_to_NoiseType n = Throw x)
  | (Undefined, _) => False
  end.
Proof.
  intros Hnd Hinner.
  pose proof (load_entries_outcome (K := SupportOperationType * N)
                (fun e : string * N * list (string * R) => e.1.1) snd (fun _ => true)
                (RuntimeError "")
                (fun g e np ns =>
                   set_gate_error1q (<[(g, e.1.2) := np]> (gate_error1q ns)) ns)
                (fun g e => (g, e.1.2)) (fun k ns => gate_error1q ns !! k) fst
                (fun s s' => s' = set_gate_error1q (gate_error1q s') s))
    as Hgen.
  specialize (Hgen ltac:(intros; simpl; apply lookup_insert)).
  specialize (Hgen ltac:(intros g [[n q] nt] g' [[n' q'] nt'] Eg Eg' Hk; simpl in *;
                          injection Hk as <- <-;
                          rewrite (string_to_SupportOperationType_inj _ _ _ Eg Eg');
                          reflexivity)).
  specialize (Hgen ltac:(intros s0; destruct s0; reflexivity)).
  specialize (Hgen ltac:(intros g e v s0 s' Hs'; exact Hs')).
  specialize (Hgen d s Hnd Hinner).
  change (load_entries _ _ _ _ _ d s) with (_load_gate_error1q d s) in Hgen.
  destruct (_load_gate_error1q d s) as [[[]|x|] s']; [| |exact Hgen].
  - destruct Hgen as (Hframe & Hall & Hfrom & _). split; [exact Hframe|]. split.
    + intros e He. destruct (Hall e He) as (g & m & Eg & _ & Hm & Htr).
      exists g, m. split_and!; assumption.
    + intros k m Hk. destruct (Hfrom k m Hk) as [Hold|(e & g' & He & Eg & Hkey & Htr)].
      * left. exact Hold.
      * subst k. right. exists e. simpl. split_and!; try assumption. reflexivity.
  - destruct Hgen as [Hg|[Hn|(_ & e & g & _ & _ & Hok)]].
    + left. exact Hg.
    + right. exact Hn.
    + discriminate Hok.
Qed.

Section GateSpecificLoaderProperties.
Context `{G : GateNumbering}.

Lemma entries_find_assign (k k' : SupportOperationType * (N * N)) (v : gmap NoiseType R)
    (m : list (SupportOperationType * (N * N) * gmap NoiseType R)) :
  entries_find k' (error2q_assign k v m) =
  if decide (k = k') then Some v else entries_find k' m.
Proof.
  induction m as [|[ke ve] m IH]; simpl.
  - destruct (decide (k = k')); reflexivity.
  - destruct (decide (ke = k)) as [->|Hke]; simpl.
    + destruct (decide (k = k')); reflexivity.
    + destruct (error2q_key_ltb k ke); simpl.
      * destruct (decide (k = k')); reflexivity.
      * rewrite IH. destruct (decide (ke = k')) as [->|_]; [|reflexivity].
        destruct (decide (k = k')); [congruence | reflexivity].
Qed.

Lemma gate_error2q_loader_outcome (d : list (string * (N * N) * list (string * R)))
    (s : NoisySimulator) :
  NoDup d.*1 -> Forall (fun e => NoDup e.2.*1) d ->
  match _load_gate_error2q d s with
  | (Ret _, s') =>
    s' = set_gate_error2q (gate_error2q s') s /\
    (forall e, e ∈ d ->
       exists g m,
         string_to_SupportOperationType e.1.1 = Ret g /\ (gate_qubit_count g <= 2)%Z /\
         entries_find (g, e.1.2) (gate_error2q s') = Some m /\ translates e.2 m) /\
    (forall k m, entries_find k (gate_error2q s') = Some m ->
       entries_find k (gate_error2q s) = Some m \/
       exists e,
         e ∈ d /\ string_to_SupportOperationType e.1.1 = Ret k.1 /\ e.1.2 = k.2 /\
         translates e.2 m)
  | (Throw x, _) =>
    (exists e, e ∈ d /\ string_to_SupportOperationType e.1.1 = Throw x) \/
    (exists e n, e ∈ d /\ n ∈ e.2.*1 /\ string_to_NoiseType n = Throw x) \/
    (x = InvalidArgument not_1q_or_2q_message /\
     exists e g,
       e ∈ d /\ string_to_SupportOperationType e.1.1 = Ret g /\ (2 < gate_qubit_count g)%Z)
  | (Undefined, _) => False
  end.
Proof.
  intros Hnd Hinner.
  pose proof (load_entries_outcome (K := SupportOperationType * (N * N))
                (fun e : string * (N * N) * list (string * R) => e.1.1) snd
                (fun g => (gate_qubit_count g <=? 2)%Z)
                (InvalidArgument not_1q_or_2q_message)
                (fun g e np ns =>
                   set_gate_error2q (error2q_assign (g, e.1.2) np (gate_error2q ns)) ns)
                (fun g e => (g, e.1.2)) (fun k ns => entries_find k (gate_error2q ns)) fst
                (fun s s' => s' = set_gate_error2q (gate_error2q s') s))
    as Hgen.
  specialize (Hgen ltac:(intros; simpl; apply entries_find_assign)).
  specialize (Hgen ltac:(intros g [[n q] nt] g' [[n' q'] nt'] Eg Eg' Hk; simpl in *;
                          injection Hk as <- <-;
                          rewrite (string_to_SupportOperationType_inj _ _ _ Eg Eg');
                          reflexivity)).
  specialize (Hgen ltac:(intros s0; destruct s0; reflexivity)).
  specialize (Hgen ltac:(intros g e v s0 s' Hs'; exact Hs')).
  specialize (Hgen d s Hnd Hinner).
  change (load_entries _ _ _ _ _ d s) with (_load_gate_error2q d s) in Hgen.
  destruct (_load_gate_error2q d s) as [[[]|x|] s']; [| |exact Hgen].
  - destruct Hgen as (Hframe & Hall & Hfrom & _). split; [exact Hframe|]. split.
    + intros e He. destruct (Hall e He) as (g & m & Eg & Hok & Hm & Htr).
      exists g, m. apply Z.leb_le in Hok. split_and!; assumption.
    + intros k m Hk. destruct (Hfrom k m Hk) as [Hold|(e & g' & He & Eg & Hkey & Htr)].
      * left. exact Hold.
      * subst k. right. exists e. simpl. split_and!; try assumption. reflexivity.
  - destruct Hgen as [Hg|[Hn|(-> & e & g & He & Eg & Hok)]].
    + left. exact Hg.
    + right. left. exact Hn.
    + right. right. split; [reflexivity|]. exists e, g. apply Z.leb_gt in Hok.
      split_and!; assumption.
Qed.

(** X9.  The constructor of the gate-specific class, given two
    descriptions in which no key comes twice and whose noise maps name no
    noise twice, as in a [std::map].  When it returns, the object is what
    the base constructor builds but for its class and its two
    gate-specific maps; every entry of the one-qubit description sits in
    [gate_error1q] under the gate that [string_to_SupportOperationType]
    makes of its name and its qubit, every entry of the two-qubit
    description sits in [gate_error2q] under the gate of its name, which
    acts on at most two qubits, and its qubit pair, each as the
    translation of its noise map, and the two maps hold nothing else.
    Otherwise it throws what one of the two parsers throws for a name of
    the descriptions, or the invalid-argument error of
    [_load_gate_error2q], which needs an entry of the two-qubit
    description whose gate acts on more than two qubits. *)
Theorem gate_specific_constructor (n_qubit : N) (noise_description : gmap string R)
    (gate_error1q_description : list (string * N * list (string * R)))
    (gate_error2q_description : list (string * (N * N) * list (string * R)))
    (measurement_error : list (R * R)) :
  NoDup gate_error1q_description.*1 ->
  Forall (fun e => NoDup e.2.*1) gate_error1q_description ->
  NoDup gate_error2q_description.*1 ->
  Forall (fun e => NoDup e.2.*1) gate_error2q_description ->
  match NoisySimulator_GateSpecificError_new n_qubit noise_description
          gate_error1q_description gate_error2q_description measurement_error with
  | (Ret _, s) =>
    s = set_gate_error2q (gate_error2q s)
          (set_gate_error1q (gate_error1q s)
             (set_class Class_GateSpecificError
                (NoisySimulator_new n_qubit noise_description measurement_error).2)) /\
    (forall name q noise_type, (name, q, noise_type) ∈ gate_error1q_description ->
       exists g m,
         string_to_SupportOperationType name = Ret g /\
         gate_error1q s !! (g, q) = Some m /\ translates noise_type m) /\
    (forall g q m, gate_error1q s !! (g, q) = Some m ->
       exists name noise_type,
         (name, q, noise_type) ∈ gate_error1q_description /\
         string_to_SupportOperationType name = Ret g /\ translates noise_type m) /\
    (forall name qs noise_type, (name, qs, noise_type) ∈ gate_error2q_description ->
       exists g m,
         string_to_SupportOperationType name = Ret g /\ (gate_qubit_count g <= 2)%Z /\
         entries_find (g, qs) (gate_error2q s) = Some m /\ translates noise_type m) /\
    (forall g qs m, entries_find (g, qs) (gate_error2q s) = Some m ->
       exists name noise_type,
         (name, qs, noise_type) ∈ gate_error2q_description /\
         string_to_SupportOperationType name = Ret g /\ translates noise_type m)
  | (Throw e, _) =>
    (exists name,
       (name ∈ gate_error1q_description.*1.*1 \/ name ∈ gate_error2q_description.*1.*1) /\
       string_to_SupportOperationType name = Throw e) \/
    (exists noise_type name,
       (noise_type ∈ gate_error1q_description.*2 \/
        noise_type ∈ gate_error2q_description.*2) /\
       name ∈ noise_type.*1 /\ string_to_NoiseType name = Throw e) \/
    (e = InvalidArgument not_1q_or_2q_message /\
     exists name g,
       name ∈ gate_error2q_description.*1.*1 /\
       string_to_SupportOperationType name = Ret g /\ (2 < gate_qubit_count g)%Z)
  | (Undefined, _) => False
  end.
Proof.
  intros Hnd1 Hin1 Hnd2 Hin2. unfold NoisySimulator_GateSpecificError_new.
  rewrite bind_run, built_object.
  set (s0 := set_class Class_GateSpecificError
               (NoisySimulator_new n_qubit noise_description measurement_error).2).
  assert (Hs0 : s0 = set_class Class_GateSpecificError
                       (set_noise (noise s0) (member_init n_qubit measurement_error))).
  { unfold s0, NoisySimulator_new. rewrite load_noise_run. reflexivity. }
  rewrite bind_run.
  pose proof (gate_error1q_loader_outcome gate_error1q_description s0 Hnd1 Hin1) as H1.
  destruct (_load_gate_error1q gate_error1q_description s0) as [[[]|e|] s1]; [| |exact H1].
  - destruct H1 as (Hf1 & Hall1 & Hfrom1).
    pose proof (gate_error2q_loader_outcome gate_error2q_description s1 Hnd2 Hin2) as H2.
    destruct (_load_gate_error2q gate_error2q_description s1) as [[[]|e|] s2];
      [| |exact H2].
    + destruct H2 as (Hf2 & Hall2 & Hfrom2).
      assert (E1 : gate_error1q s2 = gate_error1q s1) by (rewrite Hf2; reflexivity).
      assert (E2 : gate_error2q s1 = []) by (rewrite Hf1, Hs0; reflexivity).
      split; [rewrite Hf2 at 1; rewrite Hf1 at 1; rewrite E1; reflexivity|].
      split; [|split; [|split]].
      * intros name q nt Hin. rewrite E1. exact (Hall1 (name, q, nt) Hin).
      * intros g q m Hg. rewrite E1 in Hg.
        destruct (Hfrom1 (g, q) m Hg) as [Hold|([[name q'] nt] & Hin & Eg & Hq & Htr)].
        -- rewrite Hs0 in Hold. simpl in Hold. rewrite lookup_empty in Hold. discriminate.
        -- simpl in Eg, Hq, Htr. subst q'. exists name, nt. split_and!; assumption.
      * intros name qs nt Hin. exact (Hall2 (name, qs, nt) Hin).
      * intros g qs m Hg.
        destruct (Hfrom2 (g, qs) m Hg) as [Hold|([[name qs'] nt] & Hin & Eg & Hq & Htr)].
        -- rewrite E2 in Hold. discriminate.
        -- simpl in Eg, Hq, Htr. subst qs'. exists name, nt. split_and!; assumption.
    + destruct H2 as [(e0 & He0 & Hx)|[(e0 & n & He0 & Hn & Hx)|(-> & e0 & g & He0 & Eg & Hg)]].
      * left. exists e0.1.1. split; [|exact Hx]. right.
        apply list_elem_of_fmap_2, list_elem_of_fmap_2. exact He0.
      * right. left. exists e0.2, n. split; [|split; assumption]. right.
        apply list_elem_of_fmap_2. exact He0.
      * right. right. split; [reflexivity|]. exists e0.1.1, g. split; [|split; assumption].
        apply list_elem_of_fmap_2, list_elem_of_fmap_2. exact He0.
  - destruct H1 as [(e0 & He0 & Hx)|(e0 & n & He0 & Hn & Hx)].
    + left. exists e0.1.1. split; [|exact Hx]. left.
      apply list_elem_of_fmap_2, list_elem_of_fmap_2. exact He0.
    + right. left. exists e0.2, n. split; [|split; assumption]. left.
      apply list_elem_of_fmap_2. exact He0.
Qed.

End GateSpecificLoaderProperties.

Lemma gate_specific_constructor_witness :
  (NoisySimulator_GateSpecificError_new (H := header_numbering) 2 ∅
     gate_error1q_example gate_error2q_example []).1 = Ret tt /\
  exists g m,
    string_to_SupportOperationType "CZ" = Ret g /\ (gate_qubit_count g <= 2)%Z /\
    entries_find (g, (0%N, 1%N))
      (gate_error2q (NoisySimulator_GateSpecificError_new (H := header_numbering) 2 ∅
                       gate_error1q_example gate_error2q_example []).2) = Some m /\
    translates [("depolarizing", 0.25%R)]%string m.
Proof.
  assert (Hsingle : forall (A : Type) (a : A), NoDup [a]).
  { intros A a. apply NoDup_cons. split; [apply not_elem_of_nil | apply NoDup_nil_2]. }
  pose proof (@gate_specific_constructor header_numbering 2 ∅
                gate_error1q_example gate_error2q_example []
                (Hsingle _ _) ltac:(constructor; [apply Hsingle | constructor])
                (Hsingle _ _) ltac:(constructor; [apply Hsingle | constructor])) as Hc.
  destruct (NoisySimulator_GateSpecificError_new 2 ∅ gate_error1q_example
              gate_error2q_example []) as [[[]|e|] s] eqn:E;
    [| exfalso | exfalso ]; try (vm_compute in E; discriminate E).
  split; [reflexivity|].
  exact (proj1 (proj2 (proj2 (proj2 Hc))) "CZ"%string (0%N, 1%N)
           [("depolarizing", 0.25%R)]%string ltac:(left)).
Defined.

(** ** The Pauli channels *)

Lemma double_to_int_floor (v : R) (z : BinNums.Z) :
  (0 <= v)%R -> (IZR z <= v < IZR z + 1)%R -> double_to_int v = z.
Proof.
  intros H0 Hz. unfold double_to_int. destruct (Rle_dec 0 v); [|contradiction].
  symmetry. apply Int_part_spec. lra.
Qed.

Lemma on_statevector_pair {A : Type} (m : M StatevectorSimulator A) (sv : StatevectorSimulator)
    (rng : Rng) :
  on_statevector m (sv, rng) = ((m sv).1, ((m sv).2, rng)).
Proof. unfold on_statevector. simpl. destruct (m sv); reflexivity. Qed.

Section PauliChannels.
Context `{K : Simulator.Ops}.

(** X10.  A draw above the probability switches a channel off: each of
    [depolarizing], [bitflip], [phaseflip] and [twoqubit_depolarizing]
    then returns without calling the kernel, the state vector is what it
    was, and exactly one draw is used up. *)
Theorem channels_idle_above_p (qn qn2 : N) (p : R) (sv : StatevectorSimulator) (rng : Rng) :
  (rng 0%nat > p)%R ->
  depolarizing qn p (sv, rng) = (Ret tt, (sv, later_draws rng)) /\
  bitflip qn p (sv, rng) = (Ret tt, (sv, later_draws rng)) /\
  phaseflip qn p (sv, rng) = (Ret tt, (sv, later_draws rng)) /\
  twoqubit_depolarizing qn qn2 p (sv, rng) = (Ret tt, (sv, later_draws rng)).
Proof.
  intros Hr. unfold depolarizing, bitflip, phaseflip, twoqubit_depolarizing.
  rewrite !bind_run, !rand_run. simpl. rewrite !(Rgtb_true _ _ Hr).
  repeat split; reflexivity.
Qed.

Lemma twoqubit_depolarizing_run (qn1 qn2 : N) (p : R) (sv : StatevectorSimulator) (rng : Rng)
    (j : BinNums.Z) :
  (rng 0%nat <= p)%R -> double_to_int (15 * rng 0%nat / p) = (j - 1)%Z ->
  twoqubit_depolarizing qn1 qn2 p (sv, rng) =
  (match Z.rem j 4 with
   | 0%Z => mret tt
   | 1%Z => on_statevector (Simulator.x qn1 [] false)
   | 2%Z => on_statevector (Simulator.y qn1 [] false)
   | 3%Z => on_statevector (Simulator.z qn1 [] false)
   | _ => throw (RuntimeError "?????")
   end;;
   match Z.quot j 4 with
   | 0%Z => mret tt
   | 1%Z => on_statevector (Simulator.x qn2 [] false)
   | 2%Z => on_statevector (Simulator.y qn2 [] false)
   | 3%Z => on_statevector (Simulator.z qn2 [] false)
   | _ => throw (RuntimeError "?????")
   end) (sv, later_draws rng).
Proof.
  intros Hr Hj. unfold twoqubit_depolarizing. rewrite bind_run, rand_run. simpl.
  rewrite (Rgtb_false _ _ Hr), Hj. replace (j - 1 + 1)%Z with j by lia. reflexivity.
Qed.

(** X11.  When [twoqubit_depolarizing] fires with [0 <= r < p], the draw
    picks one of fifteen equal slices of [[0, p)]: in slice [j], for [j]
    from 1 to 15, the channel applies the Pauli gate number [j % 4] to the
    first qubit and then the Pauli gate number [j / 4] to the second, where
    0 is no gate and 1, 2, 3 are X, Y, Z, each without controller and
    dagger.  The pair (no gate, no gate) is none of the fifteen, and the
    error [?????] is not raised. *)
Theorem twoqubit_depolarizing_slices (qn1 qn2 : N) (p : R) (sv : StatevectorSimulator)
    (rng : Rng) (j : BinNums.Z) :
  (0 < p)%R -> (1 <= j <= 15)%Z ->
  (IZR (j - 1) * p / 15 <= rng 0%nat < IZR j * p / 15)%R ->
  twoqubit_depolarizing qn1 qn2 p (sv, rng) =
    (apply_pauli (Z.rem j 4) qn1;; apply_pauli (Z.quot j 4) qn2) (sv, later_draws rng) /\
  (Z.rem j 4, Z.quot j 4) <> (0%Z, 0%Z).
Proof.
  intros Hp Hj Hr.
  assert (Hj15 : (IZR j <= 15)%R) by (apply IZR_le; lia).
  assert (Hj1 : (0 <= IZR (j - 1))%R) by (apply IZR_le; lia).
  assert (Hq : (15 * rng 0%nat / p * p = 15 * rng 0%nat)%R) by (field; lra).
  assert (Hr0 : (0 <= rng 0%nat)%R).
  { apply Rle_trans with (IZR (j - 1) * p / 15)%R; [|apply Hr].
    assert (0 <= IZR (j - 1) * p)%R by (apply Rmult_le_pos; lra). lra. }
  assert (Hle : (rng 0%nat <= p)%R).
  { assert (IZR j * p <= 15 * p)%R by (apply Rmult_le_compat_r; lra). lra. }
  assert (Hfloor : double_to_int (15 * rng 0%nat / p) = (j - 1)%Z).
  { set (q := (15 * rng 0%nat / p)%R) in *.
    assert (Hlow : (IZR (j - 1) <= q)%R).
    { apply Rmult_le_reg_r with p; [exact Hp|]. rewrite Hq. lra. }
    assert (Hhigh : (q < IZR (j - 1) + 1)%R).
    { rewrite minus_IZR. apply Rmult_lt_reg_r with p; [exact Hp|]. rewrite Hq. lra. }
    apply double_to_int_floor; lra. }
  split.
  - rewrite (twoqubit_depolarizing_run qn1 qn2 p sv rng j Hle Hfloor).
    assert (Hcases : (j = 1 \/ j = 2 \/ j = 3 \/ j = 4 \/ j = 5 \/ j = 6 \/ j = 7 \/ j = 8 \/
                      j = 9 \/ j = 10 \/ j = 11 \/ j = 12 \/ j = 13 \/ j = 14 \/ j = 15)%Z)
      by lia.
    repeat (destruct Hcases as [-> | Hcases]; [reflexivity|]). subst j. reflexivity.
  - intros E. injection E as Erem Equot.
    pose proof (Z.quot_rem' j 4) as Hqr. lia.
Qed.

(** X12.  The guard of [twoqubit_depolarizing] lets the draw [r = p]
    through, where [int(15 * r / p) + 1] is 16 (read in exact arithmetic):
    the first switch does nothing, the second finds no case for [16 / 4]
    and throws the runtime error [?????]; the draw is used up and the state
    vector is what it was. *)
Theorem twoqubit_depolarizing_at_p (qn1 qn2 : N) (p : R) (sv : StatevectorSimulator)
    (rng : Rng) :
  (0 < p)%R -> rng 0%nat = p ->
  twoqubit_depolarizing qn1 qn2 p (sv, rng) =
  (Throw (RuntimeError "?????"), (sv, later_draws rng)).
Proof.
  intros Hp Hr.
  assert (Hfloor : double_to_int (15 * rng 0%nat / p) = (16 - 1)%Z).
  { rewrite Hr. replace (15 * p / p)%R with 15%R by (field; lra).
    change (16 - 1)%Z with 15%Z. apply double_to_int_floor; lra. }
  rewrite (twoqubit_depolarizing_run qn1 qn2 p sv rng 16 (Req_le _ _ Hr) Hfloor).
  reflexivity.
Qed.

End PauliChannels.

Lemma channels_idle_above_p_witness :
  bitflip (H := PauliKernel.ops) 0 0.25 (one_state, constant_draws 0.5) =
  (Ret tt, (one_state, later_draws (constant_draws 0.5))).
Proof.
  refine (proj1 (proj2 (@channels_idle_above_p PauliKernel.ops 0 0 0.25 one_state
                          (constant_draws 0.5) _))).
  unfold constant_draws. lra.
Defined.

Lemma twoqubit_depolarizing_slices_witness :
  twoqubit_depolarizing (H := PauliKernel.ops) 0 1 1 (one_state, constant_draws 0.5) =
  (apply_pauli (H := PauliKernel.ops) 0 0;; apply_pauli (H := PauliKernel.ops) 2 1)
    (one_state, later_draws (constant_draws 0.5)).
Proof.
  refine (proj1 (@twoqubit_depolarizing_slices PauliKernel.ops 0 1 1 one_state
                   (constant_draws 0.5) 8 _ _ _)).
  - lra.
  - lia.
  - unfold constant_draws. change (8 - 1)%Z with 7%Z. lra.
Defined.

Lemma twoqubit_depolarizing_at_p_witness :
  twoqubit_depolarizing (H := PauliKernel.ops) 0 1 0.5 (one_state, constant_draws 0.5) =
  (Throw (RuntimeError "?????"), (one_state, later_draws (constant_draws 0.5))).
Proof.
  refine (@twoqubit_depolarizing_at_p PauliKernel.ops 0 1 0.5 one_state
            (constant_draws 0.5) _ eq_refl).
  lra.
Defined.

(** ** Norms *)

Lemma norm_sqr_sum (st : list complex_t) (nq : N) :
  norm_sqr st nq = sum_where (pow2 nq) (fun _ => true) (fun i => abs_sqr (vget st i)).
Proof. reflexivity. Qed.

Lemma sum_where_split (n : N) (c : N -> bool) (f : N -> R) :
  sum_where n (fun _ => true) f =
  (sum_where n c f + sum_where n (fun i => negb (c i)) f)%R.
Proof.
  induction n as [|n IH] using N.peano_ind.
  - unfold sum_where. rewrite !for_range_0. lra.
  - rewrite !sum_where_succ, IH. destruct (c n); simpl; lra.
Qed.

Lemma sum_where_zero (n : N) (c : N -> bool) (f : N -> R) :
  (forall i, (i < n)%N -> c i = true -> f i = 0%R) -> sum_where n c f = 0%R.
Proof.
  intros Hz. induction n as [|n IH] using N.peano_ind.
  - unfold sum_where. rewrite for_range_0. reflexivity.
  - rewrite sum_where_succ, IH by (intros i Hi; apply Hz; lia).
    destruct (c n) eqn:E; [|reflexivity]. rewrite (Hz n) by (lia || exact E). lra.
Qed.

Lemma sum_where_nonneg (n : N) (c : N -> bool) (f : N -> R) :
  (forall i, (0 <= f i)%R) -> (0 <= sum_where n c f)%R.
Proof.
  intros Hf. induction n as [|n IH] using N.peano_ind.
  - unfold sum_where. rewrite for_range_0. lra.
  - rewrite sum_where_succ. destruct (c n); [|exact IH]. specialize (Hf n). lra.
Qed.

Lemma abs_sqr_nonneg (z : complex_t) : (0 <= abs_sqr z)%R.
Proof. unfold abs_sqr. nra. Qed.

Lemma abs_sqr_czero : abs_sqr czero = 0%R.
Proof. unfold abs_sqr, czero. simpl. ring. Qed.

Lemma cscale_czero (x : R) : cscale czero x = czero.
Proof. unfold cscale, czero. simpl. f_equal; ring. Qed.

Lemma cdiv_czero (x : R) : cdiv czero x = czero.
Proof. unfold cdiv, czero, Rdiv. simpl. f_equal; ring. Qed.

Lemma abs_sqr_cdiv (z : complex_t) (x : R) :
  abs_sqr (cdiv z x) = (/ (x * x) * abs_sqr z)%R.
Proof. unfold abs_sqr, cdiv, Rdiv. simpl. rewrite Rinv_mult. ring. Qed.

Lemma norm_sqr_pointwise (st : list complex_t) (nq : N) (g : N -> complex_t) :
  (forall i, (i < pow2 nq)%N -> vget st i = g i) ->
  norm_sqr st nq = sum_where (pow2 nq) (fun _ => true) (fun i => abs_sqr (g i)).
Proof.
  intros Hg. rewrite norm_sqr_sum. apply sum_where_ext; [reflexivity|].
  intros i Hi _. rewrite Hg by exact Hi. reflexivity.
Qed.

Lemma vget_decayed (st : list complex_t) (nq qn i : N) :
  length st = N.to_nat (pow2 nq) -> (i < pow2 nq)%N ->
  vget (decayed st qn) i = if N.testbit i qn then czero else vget st (i + pow2 qn).
Proof.
  intros Hlen Hi. unfold vget at 1. unfold decayed. rewrite list_lookup_imap.
  destruct (st !! N.to_nat i) as [z|] eqn:E; simpl.
  - rewrite N2Nat.id. reflexivity.
  - apply lookup_ge_None in E. lia.
Qed.

Lemma vget_scaled (st : list complex_t) (qn : N) (E0 : R) (i : N) :
  vget (scaled st qn E0) i = if N.testbit i qn then cscale (vget st i) E0 else vget st i.
Proof.
  unfold vget, scaled. rewrite list_lookup_imap.
  destruct (st !! N.to_nat i) as [z|]; simpl.
  - rewrite N2Nat.id. reflexivity.
  - rewrite cscale_czero. destruct (N.testbit i qn); reflexivity.
Qed.

Lemma vget_normalized (st : list complex_t) (nq i : N) :
  vget (normalized st nq) i = cdiv (vget st i) (sqrt (norm_sqr st nq)).
Proof.
  unfold vget, normalized. rewrite list_lookup_fmap.
  destruct (st !! N.to_nat i) as [z|]; simpl; [reflexivity|].
  rewrite cdiv_czero. reflexivity.
Qed.

Lemma norm_sqr_normalized (st : list complex_t) (nq : N) :
  (0 < norm_sqr st nq)%R -> norm_sqr (normalized st nq) nq = 1%R.
Proof.
  intros Hpos.
  rewrite (norm_sqr_pointwise _ nq (fun i => cdiv (vget st i) (sqrt (norm_sqr st nq))))
    by (intros i _; apply vget_normalized).
  rewrite (sum_where_ext _ _ (fun _ => true) _
             (fun i => / norm_sqr st nq * abs_sqr (vget st i))%R).
  - rewrite sum_where_scale, <- norm_sqr_sum. field. lra.
  - reflexivity.
  - intros i _ _. rewrite abs_sqr_cdiv, sqrt_sqrt by lra. reflexivity.
Qed.

Lemma norm_sqr_decayed (st : list complex_t) (nq qn : N) :
  length st = N.to_nat (pow2 nq) -> (qn < nq)%N ->
  norm_sqr (decayed st qn) nq = probability st nq qn true.
Proof.
  intros Hlen Hq.
  rewrite (norm_sqr_pointwise _ nq
             (fun i => if N.testbit i qn then czero else vget st (i + pow2 qn)))
    by (intros i Hi; apply (vget_decayed st nq qn i Hlen Hi)).
  rewrite (sum_where_split _ (fun i => N.testbit i qn)).
  rewrite sum_where_zero, Rplus_0_l.
  - rewrite probability_true.
    transitivity (sum_where (pow2 nq) (fun i => negb (N.testbit i qn))
                    (fun i => abs_sqr (vget st (i + pow2 qn)))).
    + apply sum_where_ext; [reflexivity|]. intros i _ Hbit. simpl in Hbit.
      destruct (N.testbit i qn); [discriminate | reflexivity].
    + unfold pow2.
      rewrite <- (sum_where_partner nq qn (fun i => abs_sqr (vget st (i + 2 ^ qn))))
        by exact Hq.
      apply sum_where_ext; [reflexivity|]. intros i _ Hbit. cbv beta.
      destruct (testbit_sub_pow2 i qn Hbit) as [_ Hsum]. rewrite Hsum. reflexivity.
  - intros i _ Hbit. simpl in Hbit. rewrite Hbit. apply abs_sqr_czero.
Qed.

Lemma norm_sqr_scaled (st : list complex_t) (nq qn : N) (E0 : R) :
  norm_sqr (scaled st qn E0) nq =
  (E0 * E0 * probability st nq qn true + probability st nq qn false)%R.
Proof.
  rewrite (norm_sqr_pointwise _ nq
             (fun i => if N.testbit i qn then cscale (vget st i) E0 else vget st i))
    by (intros i _; apply vget_scaled).
  rewrite (sum_where_split _ (fun i => N.testbit i qn)).
  rewrite probability_true, probability_false, <- sum_where_scale. f_equal.
  - apply sum_where_ext; [reflexivity|]. intros i _ Hbit. simpl in Hbit. rewrite Hbit.
    apply abs_sqr_cscale.
  - apply sum_where_ext; [reflexivity|]. intros i _ Hbit. simpl in Hbit.
    destruct (N.testbit i qn); [discriminate | reflexivity].
Qed.

Lemma probability_nonneg (st : list complex_t) (nq qn : N) (b : bool) :
  (0 <= probability st nq qn b)%R.
Proof. apply sum_where_nonneg. intros i. apply abs_sqr_nonneg. Qed.

Lemma cdiv_one (z : complex_t) : cdiv z 1 = z.
Proof. destruct z as [a b]. unfold cdiv. simpl. f_equal; field. Qed.

Lemma cscale_one (z : complex_t) : cscale z 1 = z.
Proof. destruct z as [a b]. unfold cscale. simpl. f_equal; ring. Qed.

Lemma normalized_unit (st : list complex_t) (nq : N) :
  norm_sqr st nq = 1%R -> normalized st nq = st.
Proof.
  intros Hn. unfold normalized. rewrite Hn, sqrt_1.
  rewrite <- (list_fmap_id st) at 2. apply list_fmap_ext. intros _ z _. apply cdiv_one.
Qed.

Lemma scaled_one (st : list complex_t) (qn : N) : scaled st qn 1 = st.
Proof.
  unfold scaled. apply list_eq. intros j. rewrite list_lookup_imap.
  destruct (st !! j) as [z|]; [|reflexivity]. simpl.
  destruct (N.testbit (N.of_nat j) qn); [rewrite cscale_one|]; reflexivity.
Qed.

(** X13.  [normalize_state_vector] makes a unit vector: when the register
    holds [2^n] amplitudes whose squared magnitudes have a positive sum,
    it returns, keeps the register size, the number of amplitudes and the
    random source, and the squared magnitudes afterwards sum to 1; a
    second call changes nothing any more. *)
Theorem normalize_gives_unit_norm (sv : StatevectorSimulator) (rng : Rng) :
  length (state sv) = N.to_nat (pow2 (total_qubit sv)) ->
  (0 < norm_sqr (state sv) (total_qubit sv))%R ->
  exists st',
    normalize_state_vector (sv, rng) = (Ret tt, (mkStatevector (total_qubit sv) st', rng)) /\
    length st' = length (state sv) /\
    norm_sqr st' (total_qubit sv) = 1%R /\
    normalize_state_vector (mkStatevector (total_qubit sv) st', rng) =
      (Ret tt, (mkStatevector (total_qubit sv) st', rng)).
Proof.
  intros Hlen Hpos. exists (normalized (state sv) (total_qubit sv)).
  assert (Hlen' : length (normalized (state sv) (total_qubit sv)) = length (state sv))
    by (unfold normalized; apply length_fmap).
  split; [apply normalize_run; exact Hlen|]. split; [exact Hlen'|].
  split; [apply norm_sqr_normalized; exact Hpos|].
  rewrite normalize_run by (simpl; congruence). simpl.
  rewrite normalized_unit by (apply norm_sqr_normalized; exact Hpos). reflexivity.
Qed.

Lemma damping_unit_run (sv : StatevectorSimulator) (rng : Rng) (qn : N) (p : R) :
  length (state sv) = N.to_nat (pow2 (total_qubit sv)) ->
  (qn < total_qubit sv)%N -> (0 <= p <= 1)%R ->
  norm_sqr (state sv) (total_qubit sv) = 1%R ->
  damping qn p (sv, rng) =
  (Ret tt,
   (mkStatevector (total_qubit sv)
      (normalized
         (if Rltb (rng 0%nat) (p * probability (state sv) (total_qubit sv) qn true)
          then decayed (state sv) qn
          else scaled (state sv) qn (sqrt (1 - p))) (total_qubit sv)),
    later_draws rng)).
Proof.
  intros Hlen Hq Hp Hn.
  rewrite (damping_run sv rng qn p Hlen Hq). cbv zeta.
  rewrite (damping_probabilities_closed _ _ _ p Hq Hp). simpl.
  pose proof (probabilities_sum (state sv) (total_qubit sv) qn) as Hsum. rewrite Hn in Hsum.
  set (P1 := probability (state sv) (total_qubit sv) qn true) in *.
  set (P0 := probability (state sv) (total_qubit sv) qn false) in *.
  replace ((1 - p) * P1 + P0 + p * P1 - 1)%R with 0%R by lra.
  rewrite Rabs_R0, Rgtb_false by lra. reflexivity.
Qed.

(** X14.  [damping] keeps the state a unit vector.  On a register of
    [2^n] amplitudes whose squared magnitudes sum to 1, for a qubit of the
    register, a probability in [[0, 1]] and a draw in [[0, 1)], the call
    returns (the check of [p0 + p1] passes), uses one draw, keeps the
    register size and the number of amplitudes, and leaves squared
    magnitudes that sum to 1 again, in the decay branch as in the other. *)
Theorem damping_keeps_unit_norm (sv : StatevectorSimulator) (rng : Rng) (qn : N) (p : R) :
  length (state sv) = N.to_nat (pow2 (total_qubit sv)) ->
  (qn < total_qubit sv)%N -> (0 <= p <= 1)%R ->
  norm_sqr (state sv) (total_qubit sv) = 1%R ->
  (0 <= rng 0%nat < 1)%R ->
  exists st',
    damping qn p (sv, rng) = (Ret tt, (mkStatevector (total_qubit sv) st', later_draws rng)) /\
    length st' = length (state sv) /\
    norm_sqr st' (total_qubit sv) = 1%R.
Proof.
  intros Hlen Hq Hp Hn Hr.
  rewrite (damping_unit_run sv rng qn p Hlen Hq Hp Hn).
  pose proof (probabilities_sum (state sv) (total_qubit sv) qn) as Hsum. rewrite Hn in Hsum.
  pose proof (probability_nonneg (state sv) (total_qubit sv) qn true) as H1.
  pose proof (probability_nonneg (state sv) (total_qubit sv) qn false) as H0.
  eexists. split; [reflexivity|].
  destruct (Rlt_dec (rng 0%nat) (p * probability (state sv) (total_qubit sv) qn true))
    as [Hlt|Hge].
  - rewrite (Rltb_true _ _ Hlt). split.
    + unfold normalized, decayed. rewrite length_fmap, length_imap. reflexivity.
    + apply norm_sqr_normalized. rewrite norm_sqr_decayed by assumption. nra.
  - rewrite (Rltb_false _ _ Hge). split.
    + unfold normalized, scaled. rewrite length_fmap, length_imap. reflexivity.
    + apply norm_sqr_normalized. rewrite norm_sqr_scaled.
      rewrite sqrt_sqrt by lra. lra.
Qed.

(** X15.  [damping] with probability 0 is the identity on a unit vector:
    for a draw that is not negative the call returns with the state vector
    it found, one draw used. *)
Theorem damping_zero_is_identity (sv : StatevectorSimulator) (rng : Rng) (qn : N) :
  length (state sv) = N.to_nat (pow2 (total_qubit sv)) ->
  (qn < total_qubit sv)%N ->
  norm_sqr (state sv) (total_qubit sv) = 1%R ->
  (0 <= rng 0%nat)%R ->
  damping qn 0 (sv, rng) = (Ret tt, (sv, later_draws rng)).
Proof.
  intros Hlen Hq Hn Hr.
  rewrite (damping_run sv rng qn 0 Hlen Hq). cbv zeta.
  rewrite (damping_probabilities_closed _ _ _ 0 Hq) by lra. simpl.
  pose proof (probabilities_sum (state sv) (total_qubit sv) qn) as Hsum. rewrite Hn in Hsum.
  set (P1 := probability (state sv) (total_qubit sv) qn true) in *.
  set (P0 := probability (state sv) (total_qubit sv) qn false) in *.
  replace ((1 - 0) * P1 + P0 + 0 * P1 - 1)%R with 0%R by lra.
  rewrite Rabs_R0, Rgtb_false by lra.
  rewrite Rltb_false by lra.
  replace (1 - 0)%R with 1%R by lra. rewrite sqrt_1, scaled_one.
  rewrite normalized_unit by exact Hn. destruct sv; reflexivity.
Qed.

(** X16.  [damping] with probability 1 empties the one-states of the
    qubit.  On a register of [2^n] amplitudes whose squared magnitudes sum
    to 1, for a qubit of the register and a draw in [[0, 1)], the call
    returns; the vector that the selected branch leaves has a positive
    norm, so the renormalisation divides by a number that is not zero; and
    afterwards every amplitude whose index has the bit of the qubit set is
    zero, while the squared magnitudes sum to 1. *)
Theorem damping_one_clears_qubit (sv : StatevectorSimulator) (rng : Rng) (qn : N) :
  length (state sv) = N.to_nat (pow2 (total_qubit sv)) ->
  (qn < total_qubit sv)%N ->
  norm_sqr (state sv) (total_qubit sv) = 1%R ->
  (0 <= rng 0%nat < 1)%R ->
  exists branch,
    damping qn 1 (sv, rng) =
      (Ret tt,
       (mkStatevector (total_qubit sv) (normalized branch (total_qubit sv)),
        later_draws rng)) /\
    (0 < norm_sqr branch (total_qubit sv))%R /\
    norm_sqr (normalized branch (total_qubit sv)) (total_qubit sv) = 1%R /\
    forall i, N.testbit i qn = true ->
              vget (normalized branch (total_qubit sv)) i = czero.
Proof.
  intros Hlen Hq Hn Hr.
  rewrite (damping_unit_run sv rng qn 1 Hlen Hq ltac:(lra) Hn).
  pose proof (probabilities_sum (state sv) (total_qubit sv) qn) as Hsum. rewrite Hn in Hsum.
  pose proof (probability_nonneg (state sv) (total_qubit sv) qn true) as H1.
  pose proof (probability_nonneg (state sv) (total_qubit sv) qn false) as H0.
  eexists. split; [reflexivity|].
  destruct (Rlt_dec (rng 0%nat) (1 * probability (state sv) (total_qubit sv) qn true))
    as [Hlt|Hge].
  - rewrite (Rltb_true _ _ Hlt).
    assert (Hpos : (0 < norm_sqr (decayed (state sv) qn) (total_qubit sv))%R)
      by (rewrite norm_sqr_decayed by assumption; lra).
    split; [exact Hpos|]. split; [apply norm_sqr_normalized; exact Hpos|].
    intros i Hbit. rewrite vget_normalized.
    destruct (N.lt_ge_cases i (pow2 (total_qubit sv))) as [Hi|Hi].
    + rewrite (vget_decayed _ _ _ _ Hlen Hi), Hbit. apply cdiv_czero.
    + unfold vget at 1. unfold decayed. rewrite list_lookup_imap.
      rewrite (proj2 (lookup_ge_None _ _)) by lia. apply cdiv_czero.
  - rewrite (Rltb_false _ _ Hge).
    assert (Hpos : (0 < norm_sqr (scaled (state sv) qn (sqrt (1 - 1))) (total_qubit sv))%R).
    { rewrite norm_sqr_scaled. replace (1 - 1)%R with 0%R by lra. rewrite sqrt_0. lra. }
    split; [exact Hpos|]. split; [apply norm_sqr_normalized; exact Hpos|].
    intros i Hbit. rewrite vget_normalized, vget_scaled, Hbit.
    replace (1 - 1)%R with 0%R by lra. rewrite sqrt_0.
    replace (cscale (vget (state sv) i) 0) with czero; [apply cdiv_czero|].
    unfold cscale, czero. f_equal; ring.
Qed.

Lemma one_state_norm : norm_sqr (state one_state) 1 = 1%R.
Proof.
  unfold norm_sqr. change (pow2 1) with (N.succ (N.succ 0)).
  rewrite !for_range_succ, for_range_0. unfold abs_sqr, vget. simpl. lra.
Qed.

Lemma long_state_norm : norm_sqr (state long_state) 1 = 4%R.
Proof.
  unfold norm_sqr. change (pow2 1) with (N.succ (N.succ 0)).
  rewrite !for_range_succ, for_range_0. unfold abs_sqr, vget. simpl. lra.
Qed.

Lemma normalize_gives_unit_norm_witness :
  exists st',
    normalize_state_vector (long_state, constant_draws 0) =
      (Ret tt, (mkStatevector 1 st', constant_draws 0)) /\
    length st' = 2%nat /\ norm_sqr st' 1 = 1%R.
Proof.
  destruct (normalize_gives_unit_norm long_state (constant_draws 0) eq_refl) as [st' Hst'].
  - change (total_qubit long_state) with 1%N. rewrite long_state_norm. lra.
  - exists st'. split; [apply Hst'|]. split; apply Hst'.
Defined.

Lemma damping_keeps_unit_norm_witness :
  exists st',
    damping 0 (1 / 2) (one_state, constant_draws 0) =
      (Ret tt, (mkStatevector 1 st', later_draws (constant_draws 0))) /\
    length st' = 2%nat /\ norm_sqr st' 1 = 1%R.
Proof.
  refine (damping_keeps_unit_norm one_state (constant_draws 0) 0 (1 / 2)
            eq_refl eq_refl _ one_state_norm _).
  - lra.
  - unfold constant_draws. lra.
Defined.

Lemma damping_zero_is_identity_witness :
  damping 0 0 (one_state, constant_draws 0) =
  (Ret tt, (one_state, later_draws (constant_draws 0))).
Proof.
  refine (damping_zero_is_identity one_state (constant_draws 0) 0
            eq_refl eq_refl one_state_norm _).
  unfold constant_draws. lra.
Defined.

Lemma damping_one_clears_qubit_witness :
  exists branch,
    damping 0 1 (one_state, constant_draws 0) =
      (Ret tt, (mkStatevector 1 (normalized branch 1), later_draws (constant_draws 0))) /\
    (0 < norm_sqr branch 1)%R /\
    norm_sqr (normalized branch 1) 1 = 1%R /\
    forall i, N.testbit i 0 = true -> vget (normalized branch 1) i = czero.
Proof.
  refine (damping_one_clears_qubit one_state (constant_draws 0) 0
            eq_refl eq_refl one_state_norm _).
  unfold constant_draws. lra.
Defined.

(** ** The sampler *)

Lemma measure_scan_found (st : list complex_t) (count : nat) (i k : N) (r : R) :
  (0 <= r)%R -> measure_scan st count i r = Some k ->
  (i <= k < i + N.of_nat count)%N /\ (0 < abs_sqr (vget st k))%R.
Proof.
  revert i r. induction count as [|count IH]; intros i r Hr Hs; simpl in Hs; [discriminate|].
  unfold Rltb in Hs. destruct (Rlt_dec r (abs_sqr (vget st i))) as [Hlt|Hge].
  - injection Hs as <-. split; [lia | lra].
  - destruct (IH (i + 1)%N (r - abs_sqr (vget st i))%R ltac:(lra) Hs) as [Hk Hpos].
    split; [lia | exact Hpos].
Qed.

Lemma measure_scan_exhausted (st : list complex_t) (r : R) (count : nat) (i : N) :
  measure_scan st count i (remainder st r i) = None ->
  (0 <= remainder st r i)%R ->
  (0 <= remainder st r (i + N.of_nat count))%R.
Proof.
  revert i. induction count as [|count IH]; intros i Hs Hr.
  - rewrite N.add_0_r. exact Hr.
  - simpl in Hs. unfold Rltb in Hs.
    destruct (Rlt_dec (remainder st r i) (abs_sqr (vget st i))) as [Hlt|Hge]; [discriminate|].
    rewrite <- remainder_succ, <- N.add_1_r in Hs.
    replace (i + N.of_nat (S count))%N with (i + 1 + N.of_nat count)%N by lia.
    apply IH; [exact Hs|]. rewrite N.add_1_r, remainder_succ. lra.
Qed.

Lemma remainder_norm (st : list complex_t) (r : R) (k : N) :
  remainder st r k =
  (r - for_range k (fun i norm => (norm + abs_sqr (vget st i))%R) 0)%R.
Proof.
  induction k as [|k IH] using N.peano_ind.
  - unfold remainder. rewrite !for_range_0. lra.
  - rewrite remainder_succ, for_range_succ, IH. lra.
Qed.

Lemma remainder_antitone (st : list complex_t) (r : R) (k n : N) :
  (k <= n)%N -> (remainder st r n <= remainder st r k)%R.
Proof.
  induction n as [|n IH] using N.peano_ind; intros Hk.
  - assert (k = 0%N) as -> by lia. lra.
  - destruct (N.eq_dec k (N.succ n)) as [->|Hne]; [lra|].
    rewrite remainder_succ. pose proof (abs_sqr_nonneg (vget st n)).
    specialize (IH ltac:(lia)). lra.
Qed.

(** X17.  The sampler on a draw below the norm.  When the draw [r] is not
    negative and below the sum of the squared magnitudes, which on a unit
    vector is every draw in [[0, 1)], [get_measure_no_readout_error]
    returns; the index it returns is below [2^n] and belongs to an
    amplitude that is not zero; the simulator is untouched and one draw is
    used. *)
Theorem sampler_returns_possible_outcome (w : Machine) :
  let st := state (simulator w.1) in
  let nq := total_qubit (simulator w.1) in
  (0 <= w.2 0%nat < norm_sqr st nq)%R ->
  exists i,
    get_measure_no_readout_error w = (Ret i, (w.1, later_draws w.2)) /\
    (i < pow2 nq)%N /\ (0 < abs_sqr (vget st i))%R.
Proof.
  intros st nq Hr. rewrite get_measure_run. fold st nq.
  destruct (measure_scan st (N.to_nat (pow2 nq)) 0 (w.2 0%nat)) as [i|] eqn:Es.
  - exists i. split; [reflexivity|].
    destruct (measure_scan_found st _ 0 i _ (proj1 Hr) Es) as [Hi Hpos].
    split; [lia | exact Hpos].
  - exfalso.
    assert (H0 : remainder st (w.2 0%nat) 0 = w.2 0%nat) by reflexivity.
    rewrite <- H0 in Es. apply measure_scan_exhausted in Es; [|rewrite H0; apply Hr].
    rewrite N.add_0_l, N2Nat.id, remainder_norm in Es.
    fold (norm_sqr st nq) in Es. lra.
Qed.

(** X18.  The sampler on a draw that is not below the norm.  When the
    draw is at least the sum of the squared magnitudes, no index is found
    and [get_measure_no_readout_error] throws its internal runtime error,
    with one draw used and the simulator untouched; with the theorem before,
    for a draw that is not negative the sampler fails exactly then. *)
Theorem sampler_fails_beyond_norm (w : Machine) :
  (norm_sqr (state (simulator w.1)) (total_qubit (simulator w.1)) <= w.2 0%nat)%R ->
  get_measure_no_readout_error w =
  (Throw (RuntimeError measure_message), (w.1, later_draws w.2)).
Proof.
  intros Hr. rewrite get_measure_run.
  set (st := state (simulator w.1)) in *. set (nq := total_qubit (simulator w.1)) in *.
  assert (H0 : remainder st (w.2 0%nat) 0 = w.2 0%nat) by reflexivity.
  rewrite <- H0 at 1. rewrite measure_scan_none; [reflexivity|].
  intros j Hj.
  pose proof (remainder_antitone st (w.2 0%nat) (N.succ j) (pow2 nq) ltac:(lia)) as Hm.
  rewrite (remainder_norm st _ (pow2 nq)) in Hm. fold (norm_sqr st nq) in Hm. lra.
Qed.

Lemma sampler_returns_possible_outcome_witness :
  exists i,
    get_measure_no_readout_error
      (set_simulator one_state (member_init 1 []), constant_draws 0.5) =
      (Ret i, (set_simulator one_state (member_init 1 []), later_draws (constant_draws 0.5))) /\
    (i < 2)%N /\ (0 < abs_sqr (vget (state one_state) i))%R.
Proof.
  refine (sampler_returns_possible_outcome
            (set_simulator one_state (member_init 1 []), constant_draws 0.5) _).
  change (norm_sqr _ _) with (norm_sqr (state one_state) 1). rewrite one_state_norm.
  unfold constant_draws. simpl. lra.
Defined.

Lemma sampler_fails_beyond_norm_witness :
  get_measure_no_readout_error
    (set_simulator one_state (member_init 1 []), constant_draws 1) =
  (Throw (RuntimeError measure_message),
   (set_simulator one_state (member_init 1 []), later_draws (constant_draws 1))).
Proof.
  refine (sampler_fails_beyond_norm
            (set_simulator one_state (member_init 1 []), constant_draws 1) _).
  change (norm_sqr _ _) with (norm_sqr (state one_state) 1). rewrite one_state_norm.
  unfold constant_draws. simpl. lra.
Defined.

(** ** Readout error *)

Lemma land_pow2_eqb (a n : N) : (N.land a (2 ^ n) =? 0)%N = negb (N.testbit a n).
Proof.
  destruct (N.testbit a n) eqn:E; simpl.
  - apply N.eqb_neq. intros H0.
    assert (Hb : N.testbit (N.land a (2 ^ n)) n = true)
      by (rewrite N.land_spec, E, N.pow2_bits_true; reflexivity).
    rewrite H0, N.bits_0 in Hb. discriminate.
  - apply N.eqb_eq. apply N.bits_inj. intros k.
    rewrite N.land_spec, N.pow2_bits_eqb, N.bits_0.
    destruct (N.eqb_spec n k) as [<-|_]; [rewrite E; reflexivity | apply andb_false_r].
Qed.

Lemma sub_pow2_clearbit (a n : N) :
  N.testbit a n = true -> (a - 2 ^ n)%N = N.clearbit a n.
Proof.
  intros E. rewrite N.clearbit_spec'. apply N.sub_nocarry_ldiff.
  apply N.bits_inj. intros k. rewrite N.ldiff_spec, N.pow2_bits_eqb, N.bits_0.
  destruct (N.eqb_spec n k) as [<-|_]; [rewrite E|]; reflexivity.
Qed.

Lemma add_pow2_setbit (a n : N) :
  N.testbit a n = false -> (a + 2 ^ n)%N = N.setbit a n.
Proof.
  intros E. rewrite N.setbit_spec', N.add_nocarry_lxor.
  - apply N.bits_inj. intros k. rewrite N.lxor_spec, N.lor_spec, N.pow2_bits_eqb.
    destruct (N.eqb_spec n k) as [<-|_]; [rewrite E; reflexivity|].
    destruct (N.testbit a k); reflexivity.
  - apply N.eqb_eq. rewrite land_pow2_eqb, E. reflexivity.
Qed.

(** The loop of [get_measure] after [n] turns: the bits below [n] are
    flipped where the draw fell below the flip probability, the others are
    untouched, and [n] draws are used. *)
Lemma readout_loop_invariant (m : list (R * R)) (meas : N) (rng : Rng) (n : N) :
  (forall j,
     N.testbit (for_range n (readout_step m) (meas, rng)).1 j =
     if (j <? n)%N
     then xorb (N.testbit meas j) (Rltb (rng (N.to_nat j)) (flip_probability m meas j))
     else N.testbit meas j) /\
  (forall k, (for_range n (readout_step m) (meas, rng)).2 k = rng (k + N.to_nat n)%nat).
Proof.
  induction n as [|n [Hbits Hrng]] using N.peano_ind.
  - rewrite for_range_0. simpl. split.
    + intros j. destruct (j <? 0)%N eqn:E; [apply N.ltb_lt in E; lia | reflexivity].
    + intros k. rewrite Nat.add_0_r. reflexivity.
  - rewrite for_range_succ.
    set (acc := for_range n (readout_step m) (meas, rng)) in *.
    assert (Hn : N.testbit acc.1 n = N.testbit meas n).
    { rewrite Hbits, N.ltb_irrefl. reflexivity. }
    assert (Hdraw : acc.2 0%nat = rng (N.to_nat n)) by (rewrite Hrng; reflexivity).
    assert (Hlater : forall k, later_draws acc.2 k = rng (k + N.to_nat (N.succ n))%nat).
    { intros k. unfold later_draws. rewrite Hrng. f_equal. lia. }
    assert (Hkeep : forall j,
              N.testbit acc.1 j =
              if (j <? N.succ n)%N
              then xorb (N.testbit meas j)
                     (if (j =? n)%N then false
                      else Rltb (rng (N.to_nat j)) (flip_probability m meas j))
              else N.testbit meas j).
    { intros j. rewrite Hbits.
      destruct (N.ltb_spec j n), (N.ltb_spec j (N.succ n)), (N.eqb_spec j n);
        try lia; try reflexivity.
      subst j. destruct (N.testbit meas n); reflexivity. }
    unfold readout_step. cbv zeta. unfold pow2.
    rewrite land_pow2_eqb, negb_involutive, Hn, Hdraw.
    unfold flip_probability in *.
    destruct (N.testbit meas n) eqn:Ebit.
    + destruct (Rltb (rng (N.to_nat n)) (error_matrix m n).2) eqn:Eflip; simpl.
      * split; [|exact Hlater]. intros j.
        rewrite sub_pow2_clearbit by (rewrite Hn; reflexivity).
        rewrite N.clearbit_eqb, Hkeep.
        destruct (N.eqb_spec n j) as [<-|Hne].
        -- rewrite (proj2 (N.ltb_lt n (N.succ n))) by lia.
           rewrite Ebit, Eflip, andb_false_r. reflexivity.
        -- rewrite andb_true_r. rewrite (proj2 (N.eqb_neq j n)) by congruence. reflexivity.
      * split; [|exact Hlater]. intros j. rewrite Hkeep.
        destruct (N.eqb_spec j n) as [->|Hne]; [|reflexivity].
        rewrite Ebit, Eflip. reflexivity.
    + destruct (Rltb (rng (N.to_nat n)) (error_matrix m n).1) eqn:Eflip; simpl.
      * split; [|exact Hlater]. intros j.
        rewrite add_pow2_setbit by (rewrite Hn; reflexivity).
        rewrite N.setbit_eqb, Hkeep.
        destruct (N.eqb_spec n j) as [<-|Hne].
        -- rewrite (proj2 (N.ltb_lt n (N.succ n))) by lia.
           rewrite Ebit, Eflip. reflexivity.
        -- rewrite (proj2 (N.eqb_neq j n)) by congruence. reflexivity.
      * split; [|exact Hlater]. intros j. rewrite Hkeep.
        destruct (N.eqb_spec j n) as [->|Hne]; [|reflexivity].
        rewrite Ebit, Eflip. reflexivity.
Qed.

Lemma get_measure_readout_run (w : Machine) :
  get_measure w =
  match get_measure_no_readout_error w with
  | (Ret meas_result, w') =>
    let m := measurement_error_matrices w'.1 in
    if (length m =? 0)%nat then (Ret meas_result, w')
    else if negb (N.of_nat (length m) =? nqubit w'.1)%N
    then (Throw (RuntimeError readout_message), w')
    else
      let final := for_range (nqubit w'.1) (readout_step m) (meas_result, w'.2) in
      (Ret final.1, (w'.1, final.2))
  | (Throw e, w') => (Throw e, w')
  | (Undefined, w') => (Undefined, w')
  end.
Proof.
  unfold get_measure. rewrite bind_run.
  destruct (get_measure_no_readout_error w) as [[meas|e|] w']; try reflexivity.
  rewrite bind_run. simpl.
  destruct (length (measurement_error_matrices w'.1) =? 0)%nat; [reflexivity|].
  destruct (N.of_nat (length (measurement_error_matrices w'.1)) =? nqubit w'.1)%N;
    reflexivity.
Qed.

Lemma sampler_keeps_object (w : Machine) :
  (get_measure_no_readout_error w).2 = (w.1, later_draws w.2).
Proof. rewrite get_measure_run. destruct (measure_scan _ _ _ _); reflexivity. Qed.

(** X19.  A vector of readout-error pairs that is not empty and whose
    length is not the number of qubits makes every call of [get_measure]
    throw, but only after the outcome was sampled: the draw of the sampler
    is used, an error of the sampler comes first, and otherwise the
    runtime error about the size of [measurement_error_matrices] is
    thrown. *)
Theorem readout_needs_one_pair_per_qubit (w : Machine) :
  measurement_error_matrices w.1 <> [] ->
  N.of_nat (length (measurement_error_matrices w.1)) <> nqubit w.1 ->
  get_measure w =
  (match (get_measure_no_readout_error w).1 with
   | Ret _ => Throw (RuntimeError readout_message)
   | Throw e => Throw e
   | Undefined => Undefined
   end, (w.1, later_draws w.2)).
Proof.
  intros Hne Hlen. rewrite get_measure_readout_run.
  pose proof (sampler_keeps_object w) as Hw.
  destruct (get_measure_no_readout_error w) as [[meas|e|] w']; simpl in Hw; subst w';
    try reflexivity.
  simpl. destruct (measurement_error_matrices w.1) as [|e l] eqn:Em; [congruence|].
  simpl length in *. rewrite (proj2 (N.eqb_neq _ _) Hlen). reflexivity.
Qed.

(** X20.  Readout error flips the bits of the sampled outcome one by one.
    With one error pair per qubit, [get_measure] returns whenever the
    sampler does; bit [j] of the result, for a qubit [j] of the register,
    is bit [j] of the sampled outcome, flipped exactly when the draw for
    that qubit is below the flip probability of the qubit, which is the
    second entry of its pair if the sampled bit is set and the first if it
    is clear; the bits above the register are those of the sampled
    outcome.  The draws are used in order, one for the sampler and one per
    qubit. *)
Theorem readout_flips_bits_independently (w : Machine) (meas : N) :
  measurement_error_matrices w.1 <> [] ->
  N.of_nat (length (measurement_error_matrices w.1)) = nqubit w.1 ->
  (get_measure_no_readout_error w).1 = Ret meas ->
  exists result rng',
    get_measure w = (Ret result, (w.1, rng')) /\
    (forall j,
       N.testbit result j =
       if (j <? nqubit w.1)%N
       then xorb (N.testbit meas j)
              (Rltb (w.2 (S (N.to_nat j)))
                 (flip_probability (measurement_error_matrices w.1) meas j))
       else N.testbit meas j) /\
    (forall k, rng' k = w.2 (S (k + N.to_nat (nqubit w.1)))).
Proof.
  intros Hne Hlen Hs. rewrite get_measure_readout_run.
  pose proof (sampler_keeps_object w) as Hw.
  destruct (get_measure_no_readout_error w) as [[meas'|e|] w']; simpl in Hw, Hs; subst w';
    try discriminate.
  injection Hs as ->. simpl.
  destruct (measurement_error_matrices w.1) as [|e l] eqn:Em; [congruence|].
  simpl length in *. rewrite Hlen, N.eqb_refl. simpl.
  destruct (readout_loop_invariant (e :: l) meas (later_draws w.2) (nqubit w.1))
    as [Hbits Hrng].
  eexists. eexists. split; [reflexivity|]. split.
  - intros j. rewrite Hbits. reflexivity.
  - intros k. rewrite Hrng. reflexivity.
Qed.

Lemma one_state_sample (s : NoisySimulator) (rng : Rng) :
  simulator s = one_state -> (0 <= rng 0%nat < 1)%R ->
  get_measure_no_readout_error (s, rng) = (Ret 1%N, (s, later_draws rng)).
Proof.
  intros Hs Hr. rewrite get_measure_run. simpl. rewrite Hs.
  destruct one_state_magnitudes as [H0 H1].
  change (measure_scan _ _ _ _) with
    (if Rltb (rng 0%nat) (abs_sqr (vget (state one_state) 0)) then Some 0%N
     else if Rltb (rng 0%nat - abs_sqr (vget (state one_state) 0))
               (abs_sqr (vget (state one_state) 1))
          then Some 1%N else None).
  rewrite H0, H1, Rltb_false, Rltb_true by lra. reflexivity.
Qed.

Lemma readout_needs_one_pair_per_qubit_witness :
  get_measure (set_simulator one_state (member_init 2 [(0.125, 0.25)%R]), constant_draws 0) =
  (Throw (RuntimeError readout_message),
   (set_simulator one_state (member_init 2 [(0.125, 0.25)%R]),
    later_draws (constant_draws 0))).
Proof.
  rewrite (readout_needs_one_pair_per_qubit
             (set_simulator one_state (member_init 2 [(0.125, 0.25)%R]), constant_draws 0)
             ltac:(discriminate) ltac:(discriminate)).
  rewrite one_state_sample; [reflexivity | reflexivity | unfold constant_draws; lra].
Defined.

Lemma readout_flips_bits_independently_witness :
  exists result rng',
    get_measure (readout_example, constant_draws 0) = (Ret result, (readout_example, rng')) /\
    (forall j,
       N.testbit result j =
       if (j <? 1)%N
       then xorb (N.testbit 1 j)
              (Rltb (constant_draws 0 (S (N.to_nat j)))
                 (flip_probability [(0.125, 0.25)%R] 1 j))
       else N.testbit 1 j) /\
    (forall k, rng' k = constant_draws 0 (S (k + 1))).
Proof.
  refine (readout_flips_bits_independently (readout_example, constant_draws 0) 1
            ltac:(discriminate) eq_refl _).
  rewrite one_state_sample; [reflexivity | reflexivity | unfold constant_draws; lra].
Defined.

(** ** Shots *)

Lemma histogram_total_insert (m : gmap N N) (k v : N) :
  m !! k = None -> histogram_total (<[k := v]> m) = (v + histogram_total m)%N.
Proof.
  intros Hk. unfold histogram_total.
  apply (map_fold_insert_L (fun _ seen total => (seen + total)%N)); [|exact Hk].
  intros. lia.
Qed.

Lemma histogram_total_count (meas : N) (m : gmap N N) :
  histogram_total (count_outcome meas m) = (histogram_total m + 1)%N.
Proof.
  unfold count_outcome. destruct (m !! meas) as [seen|] eqn:E.
  - pose proof (histogram_total_insert (delete meas m) meas seen (lookup_delete_eq m meas))
      as Hm.
    rewrite (insert_delete_id m meas seen E) in Hm.
    rewrite <- insert_delete_eq, histogram_total_insert by apply lookup_delete_eq. lia.
  - rewrite histogram_total_insert by exact E. lia.
Qed.

Section ShotsProperties.
Context `{G : GateNumbering} `{K : Simulator.Ops}.
Variable preprocess_measure_list : list N -> N -> outcome (gmap N N).
Variable get_state_with_qubit : N -> gmap N N -> outcome N.

Lemma shots_loop_total (shots : nat) (m result : gmap N N) (w w' : Machine) :
  shots_loop shots m w = (Ret result, w') ->
  histogram_total result = (histogram_total m + N.of_nat shots)%N.
Proof.
  revert m w. induction shots as [|shots IH]; intros m w Hrun.
  - injection Hrun as <- _. simpl. lia.
  - simpl in Hrun. rewrite bind_run in Hrun.
    destruct (execute_once w) as [[[]|e|] w1]; try discriminate.
    rewrite bind_run in Hrun.
    destruct (get_measure w1) as [[meas|e|] w2]; try discriminate.
    rewrite (IH _ _ Hrun), histogram_total_count. lia.
Qed.

Lemma shots_list_loop_total (shots : nat) (m result : gmap N N) (w w' : Machine) :
  shots_list_loop get_state_with_qubit shots m w = (Ret result, w') ->
  histogram_total result = (histogram_total m + N.of_nat shots)%N.
Proof.
  revert m w. induction shots as [|shots IH]; intros m w Hrun.
  - injection Hrun as <- _. simpl. lia.
  - simpl in Hrun. rewrite bind_run in Hrun.
    destruct (execute_once w) as [[[]|e|] w1]; try discriminate.
    rewrite bind_run in Hrun.
    destruct (get_measure w1) as [[meas|e|] w2]; try discriminate.
    rewrite bind_run in Hrun. simpl in Hrun. rewrite bind_run, lift_outcome_run in Hrun.
    destruct (get_state_with_qubit meas (measure_map w2.1)) as [meas_idx|e|];
      try discriminate.
    rewrite (IH _ _ Hrun), histogram_total_count. lia.
Qed.

(** X21.  [measure_shots(shots)] counts every shot once: when it returns,
    the counts of the histogram add up to [shots].  Each shot runs
    [execute_once] and [get_measure] and adds one to the count of the
    outcome, starting a count at 1 for an outcome not seen before. *)
Theorem measure_shots_counts_every_shot (shots : N) (w w' : Machine)
    (measured_result : gmap N N) :
  measure_shots shots w = (Ret measured_result, w') ->
  histogram_total measured_result = shots.
Proof.
  unfold measure_shots. intros Hrun. rewrite (shots_loop_total _ _ _ _ _ Hrun).
  unfold histogram_total. rewrite map_fold_empty. lia.
Qed.

(** X22.  [measure_shots(measure_list, shots)] counts every shot once as
    well: whatever the two helpers of the measurement plan compute, when
    the call returns, the counts of the histogram over the reduced outcomes
    add up to [shots]. *)
Theorem measure_shots_list_counts_every_shot (measure_list : list N) (shots : N)
    (w w' : Machine) (measured_result : gmap N N) :
  measure_shots_list preprocess_measure_list get_state_with_qubit measure_list shots w =
    (Ret measured_result, w') ->
  histogram_total measured_result = shots.
Proof.
  unfold measure_shots_list. intros Hrun.
  rewrite bind_run in Hrun. simpl in Hrun. rewrite bind_run, lift_outcome_run in Hrun.
  destruct (preprocess_measure_list measure_list (nqubit w.1)) as [m|e|]; try discriminate.
  rewrite bind_run in Hrun. simpl in Hrun.
  rewrite (shots_list_loop_total _ _ _ _ _ Hrun).
  unfold histogram_total. rewrite map_fold_empty. lia.
Qed.

End ShotsProperties.

Lemma zero_state_sample (s : NoisySimulator) (rng : Rng) :
  simulator s = zero_state -> (0 <= rng 0%nat < 1)%R ->
  get_measure_no_readout_error (s, rng) = (Ret 0%N, (s, later_draws rng)).
Proof.
  intros Hs Hr. rewrite get_measure_run. simpl. rewrite Hs.
  assert (H0 : abs_sqr (vget (state zero_state) 0) = 1%R)
    by (unfold abs_sqr, vget; simpl; lra).
  change (measure_scan _ _ _ _) with
    (if Rltb (rng 0%nat) (abs_sqr (vget (state zero_state) 0)) then Some 0%N
     else if Rltb (rng 0%nat - abs_sqr (vget (state zero_state) 0))
               (abs_sqr (vget (state zero_state) 1))
          then Some 1%N else None).
  rewrite H0, Rltb_true by lra. reflexivity.
Qed.

Lemma empty_program_execute :
  execute_once (H := header_numbering) (H0 := PauliKernel.ops)
    (member_init 1 [], constant_draws 0) =
  (Ret tt, (set_simulator zero_state (member_init 1 []), constant_draws 0)).
Proof. reflexivity. Qed.

Lemma zero_state_measure :
  get_measure (set_simulator zero_state (member_init 1 []), constant_draws 0) =
  (Ret 0%N, (set_simulator zero_state (member_init 1 []), later_draws (constant_draws 0))).
Proof.
  rewrite get_measure_readout_run, zero_state_sample;
    [reflexivity | reflexivity | unfold constant_draws; lra].
Qed.

Lemma measure_shots_counts_every_shot_witness :
  exists measured_result w',
    measure_shots (H := header_numbering) (H0 := PauliKernel.ops) 1
      (member_init 1 [], constant_draws 0) = (Ret measured_result, w') /\
    histogram_total measured_result = 1%N.
Proof.
  assert (Hrun : measure_shots (H := header_numbering) (H0 := PauliKernel.ops) 1
                   (member_init 1 [], constant_draws 0) =
                 (Ret (count_outcome 0 ∅),
                  (set_simulator zero_state (member_init 1 []),
                   later_draws (constant_draws 0)))).
  { unfold measure_shots. change (N.to_nat 1) with 1%nat. simpl shots_loop.
    rewrite bind_run, empty_program_execute, bind_run, zero_state_measure. reflexivity. }
  exists (count_outcome 0 ∅). eexists. split; [exact Hrun|].
  exact (@measure_shots_counts_every_shot header_numbering PauliKernel.ops 1 _ _ _ Hrun).
Defined.

Lemma measure_shots_list_counts_every_shot_witness :
  exists measured_result w',
    measure_shots_list (H := header_numbering) (H0 := PauliKernel.ops)
      empty_plan whole_outcome [0%N] 1
      (member_init 1 [], constant_draws 0) = (Ret measured_result, w') /\
    histogram_total measured_result = 1%N.
Proof.
  assert (Hrun : measure_shots_list (H := header_numbering) (H0 := PauliKernel.ops)
                   empty_plan whole_outcome [0%N] 1
                   (member_init 1 [], constant_draws 0) =
                 (Ret (count_outcome 0 ∅),
                  (set_simulator zero_state (member_init 1 []),
                   later_draws (constant_draws 0)))).
  { unfold measure_shots_list. change (N.to_nat 1) with 1%nat. simpl shots_list_loop.
    rewrite bind_run. unfold get at 1. cbv beta iota.
    rewrite bind_run, lift_outcome_run. unfold empty_plan. cbv beta iota.
    rewrite bind_run. unfold modify at 1. cbv beta iota.
    change (set_measure _ ∅ _, _) with (member_init 1 [], constant_draws 0).
    rewrite bind_run, empty_program_execute, bind_run, zero_state_measure.
    reflexivity. }
  exists (count_outcome 0 ∅). eexists. split; [exact Hrun|].
  exact (@measure_shots_list_counts_every_shot header_numbering PauliKernel.ops
           empty_plan whole_outcome [0%N] 1 _ _ _ Hrun).
Defined.

(** ** What a program of recording calls leaves alone *)

Section ProgramProperties.
Context `{G : GateNumbering}.

Lemma program_shape (cs : list Recording) (s : NoisySimulator) :
  exists ops, (for_each cs record s).2 = set_opcodes ops s.
Proof.
  revert s. induction cs as [|c cs IH]; intros s.
  - exists (opcodes s). simpl. rewrite set_opcodes_opcodes. reflexivity.
  - simpl. rewrite bind_run.
    assert (Hc : exists ops, (record c s).2 = set_opcodes ops s).
    { pose proof (record_shape c s) as Hs. destruct (recorded_opcode c) as [o|].
      - destruct Hs as [ops [-> _]]. eexists. reflexivity.
      - destruct Hs as [-> _]. exists (opcodes s). rewrite set_opcodes_opcodes. reflexivity. }
    destruct Hc as [ops Hops].
    destruct (record c s) as [[[]|e|] s1]; simpl in Hops; subst s1.
    + destruct (IH (set_opcodes ops s)) as [ops' ->]. exists ops'. reflexivity.
    + exists ops. reflexivity.
    + exists ops. reflexivity.
Qed.

Variable preprocess_measure_list : list N -> N -> outcome (gmap N N).

(** X23.  [measure] on a simulator that has not executed yet plans against
    a register of zero qubits.  The constructor leaves the state-vector
    member with [total_qubit = 0] and no recording call touches it, so
    after any program of recording calls [measure] hands
    [preprocess_measure_list] the qubit list and the register size 0, not
    [nqubit].  The qubit list is stored before the helper runs: if the
    helper throws, the new list stays with the old measurement map. *)
Theorem measure_before_execution (n_qubit : N) (noise_description : gmap string R)
    (measurement_error : list (R * R)) (cs : list Recording) (measure_qubits_ : list N) :
  let s := (for_each cs record
              (NoisySimulator_new n_qubit noise_description measurement_error).2).2 in
  measure preprocess_measure_list measure_qubits_ s =
  match preprocess_measure_list measure_qubits_ 0 with
  | Ret m => (Ret tt, set_measure measure_qubits_ m s)
  | Throw e => (Throw e, set_measure measure_qubits_ (measure_map s) s)
  | Undefined => (Undefined, set_measure measure_qubits_ (measure_map s) s)
  end.
Proof.
  intros s.
  assert (Hsim : total_qubit (simulator s) = 0%N).
  { unfold s. destruct (program_shape cs
      (NoisySimulator_new n_qubit noise_description measurement_error).2) as [ops ->].
    unfold NoisySimulator_new. rewrite load_noise_run. reflexivity. }
  unfold measure. rewrite bind_run. simpl. rewrite bind_run. simpl.
  rewrite bind_run, lift_outcome_run. simpl. rewrite Hsim.
  destruct (preprocess_measure_list measure_qubits_ 0); reflexivity.
Qed.

Hypothesis Hwf : numbering_wf G.

Lemma built_noise_keys (noise_description : gmap string R) (s : NoisySimulator)
    (e : NoiseType * R) :
  noise s = ∅ ->
  e ∈ map_entries (noise (_load_noise noise_description s).2) ->
  e.1 <> TwoQubitDepolarizing.
Proof.
  intros Hs He Ht. apply map_entries_lookup in He. rewrite Ht in He.
  rewrite load_noise_run in He. simpl in He.
  rewrite !lookup_record_token in He. simpl in He. rewrite Hs, lookup_empty in He.
  discriminate.
Qed.

(** X24.  The replay's case for [TwoQubitDepolarizing] is never fed by the
    recorder: on an object built by the constructor, whatever program of
    recording calls has run, no opcode of the stream carries the tag of
    [TwoQubitDepolarizing].  Gate opcodes carry gate tags, which start at
    1000, and the noise opcodes carry the keys of the global noise map,
    which the constructor fills with the four other noise types only. *)
Theorem twoqubit_depolarizing_never_recorded (n_qubit : N)
    (noise_description : gmap string R) (measurement_error : list (R * R))
    (cs : list Recording) :
  let s := (for_each cs record
              (NoisySimulator_new n_qubit noise_description measurement_error).2).2 in
  Forall (fun o => op o <> NoiseType_u32 TwoQubitDepolarizing) (opcodes s).
Proof.
  set (built := (NoisySimulator_new n_qubit noise_description measurement_error).2).
  assert (Hinv : forall s,
            dynamic_class s = Class_NoisySimulator -> noise s = noise built ->
            Forall (fun o => op o <> NoiseType_u32 TwoQubitDepolarizing) (opcodes s) ->
            Forall (fun o => op o <> NoiseType_u32 TwoQubitDepolarizing)
              (opcodes (for_each cs record s).2)).
  { induction cs as [|c cs IH]; intros s Hc Hn Hops; [exact Hops|].
    simpl. rewrite bind_run.
    assert (Hr : noise_in_range (noise s)).
    { rewrite Hn. unfold built, NoisySimulator_new.
      apply (constructed_noise_in_range n_qubit noise_description measurement_error).
      reflexivity. }
    destruct (recorded_opcode c) as [o|] eqn:Ho.
    - rewrite (global_policy_step c o s Hc Hr Ho). apply IH; [exact Hc | exact Hn |].
      simpl. apply Forall_app. split; [exact Hops|]. constructor.
      + destruct (recorded_gate_of_opcode c o Ho) as [g [_ ->]].
        destruct Hwf as [Hge _]. specialize (Hge g). unfold gate_tag. simpl. lia.
      + unfold generic_opcodes. apply Forall_fmap. apply Forall_forall. intros e He. simpl.
        rewrite Hn in He. unfold built, NoisySimulator_new in He.
        apply built_noise_keys in He; [|reflexivity].
        destruct e as [[] p]; simpl in *; congruence.
    - pose proof (record_shape c s) as Hs. rewrite Ho in Hs. destruct Hs as [Hs [e He]].
      destruct (record c s) as [[[]|e'|] s1]; simpl in Hs, He; subst s1; try discriminate.
      exact Hops. }
  intros s. apply Hinv.
  - unfold built, NoisySimulator_new. rewrite load_noise_run. reflexivity.
  - reflexivity.
  - unfold built, NoisySimulator_new. rewrite load_noise_run. constructor.
Qed.

End ProgramProperties.

Lemma twoqubit_depolarizing_never_recorded_witness :
  Forall (fun o => op o <> NoiseType_u32 TwoQubitDepolarizing)
    (opcodes (for_each [call_x 0 [] false; call_cz 0 1 [] false]
                (record (H := header_numbering))
                (NoisySimulator_new 2 ∅ []).2).2).
Proof.
  exact (@twoqubit_depolarizing_never_recorded header_numbering header_numbering_wf
           2 ∅ [] [call_x 0 [] false; call_cz 0 1 [] false]).
Defined.

(** ** The helpers of the earlier damping *)

(** A loop that moves a function of each one-state amplitude to its
    zero-state and clears the one-state, after the indices below [k]. *)
Lemma transfer_loop_invariant (g : complex_t -> complex_t) (st : list complex_t) (qn k : N) :
  (k <= N.of_nat (length st))%N ->
  for_range k (fun i st =>
    if qubit_is_one i qn then vset (vset st (i - pow2 qn) (g (vget st i))) i czero else st) st
  = imap (fun j _ =>
      let i := N.of_nat j in
      if N.testbit i qn then (if (i <? k)%N then czero else vget st i)
      else (if (i + pow2 qn <? k)%N then g (vget st (i + pow2 qn)) else vget st i)) st.
Proof.
  induction k as [|k IH] using N.peano_ind; intros Hk.
  - rewrite for_range_0. apply list_eq. intros j.
    rewrite list_lookup_imap. destruct (st !! j) as [z|] eqn:Hz; [|reflexivity]. simpl.
    rewrite vget_lookup, Hz. simpl.
    destruct (N.testbit (N.of_nat j) qn).
    + destruct (N.of_nat j); reflexivity.
    + destruct (N.of_nat j + pow2 qn)%N; reflexivity.
  - rewrite for_range_succ, IH by lia. rewrite qubit_is_one_testbit.
    set (upto := fun k => imap (fun j _ =>
      let i := N.of_nat j in
      if N.testbit i qn then (if (i <? k)%N then czero else vget st i)
      else (if (i + pow2 qn <? k)%N then g (vget st (i + pow2 qn)) else vget st i)) st).
    change (imap _ st) with (upto k) at 1 2 3.
    change (imap _ st) with (upto (N.succ k)).
    assert (Hcur : vget (upto k) k =
                   if N.testbit k qn then vget st k
                   else if (k + pow2 qn <? k)%N then g (vget st (k + pow2 qn)) else vget st k).
    { unfold vget at 1. unfold upto. rewrite list_lookup_imap.
      destruct (st !! N.to_nat k) as [z|] eqn:Hz; [|exfalso].
      - simpl. rewrite N2Nat.id, N.ltb_irrefl. reflexivity.
      - apply lookup_ge_None in Hz. lia. }
    destruct (N.testbit k qn) eqn:Hbit.
    + destruct (testbit_sub_pow2 k qn Hbit) as [Hclear Hsum]. unfold pow2 in *.
      rewrite Hcur. apply list_eq. intros j.
      rewrite !lookup_vset, length_vset. unfold upto, pow2.
      rewrite length_imap, !list_lookup_imap.
      destruct (st !! j) as [z|] eqn:Hz;
        [|repeat case_decide; try reflexivity;
          apply lookup_ge_None in Hz; lia].
      simpl.
      destruct (decide (N.to_nat k = j /\ _)) as [[<- _]|Hnk].
      * rewrite N2Nat.id, Hbit. rewrite (proj2 (N.ltb_lt k (N.succ k))) by lia. reflexivity.
      * assert (Hjk : N.of_nat j <> k).
        { intros <-. apply Hnk. rewrite Nat2N.id. split; [reflexivity|].
          apply lookup_lt_Some in Hz. exact Hz. }
        destruct (decide (N.to_nat (k - 2 ^ qn) = j /\ _)) as [[<- _]|Hnz].
        -- rewrite N2Nat.id, Hclear, Hsum.
           rewrite (proj2 (N.ltb_lt k (N.succ k))) by lia. reflexivity.
        -- assert (Hjz : (N.of_nat j + 2 ^ qn)%N <> k).
           { intros E. apply Hnz. split; [lia|]. apply lookup_lt_Some in Hz. lia. }
           destruct (N.testbit (N.of_nat j) qn).
           ++ destruct (N.ltb_spec (N.of_nat j) k), (N.ltb_spec (N.of_nat j) (N.succ k));
                try reflexivity; lia.
           ++ destruct (N.ltb_spec (N.of_nat j + 2 ^ qn) k),
                       (N.ltb_spec (N.of_nat j + 2 ^ qn) (N.succ k));
                try reflexivity; lia.
    + apply list_eq. intros j. unfold upto. rewrite !list_lookup_imap.
      destruct (st !! j) as [z|] eqn:Hz; [|reflexivity]. simpl.
      destruct (N.testbit (N.of_nat j) qn) eqn:Hj.
      * assert (N.of_nat j <> k) by (intros <-; congruence).
        destruct (N.ltb_spec (N.of_nat j) k), (N.ltb_spec (N.of_nat j) (N.succ k));
          try reflexivity; lia.
      * assert ((N.of_nat j + pow2 qn)%N <> k).
        { intros <-. unfold pow2 in Hbit. rewrite testbit_add_pow2, Hj in Hbit.
          discriminate. }
        destruct (N.ltb_spec (N.of_nat j + pow2 qn) k),
                 (N.ltb_spec (N.of_nat j + pow2 qn) (N.succ k));
          try reflexivity; lia.
Qed.

Lemma reset_loop_closed (st : list complex_t) (nq qn : N) :
  length st = N.to_nat (pow2 nq) -> (qn < nq)%N ->
  reset_loop st nq qn = reset_state st qn.
Proof.
  intros Hlen Hq. unfold reset_loop.
  pose (g := fun z : complex_t => ((abs_sqr z * abs_sqr z)%R, 0%R) : complex_t).
  transitivity (for_range (pow2 nq) (fun i st =>
    if qubit_is_one i qn then vset (vset st (i - pow2 qn) (g (vget st i))) i czero else st) st).
  - apply for_range_ext. intros i acc _. rewrite qubit_is_one_testbit.
    destruct (N.testbit i qn) eqn:Hbit; [|reflexivity]. cbv zeta. unfold pow2.
    rewrite <- N.clearbit_spec', <- (sub_pow2_clearbit i qn Hbit). reflexivity.
  - rewrite transfer_loop_invariant by lia.
    unfold reset_state. apply imap_ext. intros j z Hz. simpl.
    pose proof (below_length st nq j z Hlen Hz) as Hj.
    destruct (N.testbit (N.of_nat j) qn) eqn:Hbit.
    + rewrite (proj2 (N.ltb_lt _ _) Hj). reflexivity.
    + unfold pow2 in *. rewrite (proj2 (N.ltb_lt _ _) (set_bit_below _ _ _ Hq Hj Hbit)).
      reflexivity.
Qed.

(** X25.  [reset] in closed form.  A qubit index that is not below the
    register size makes [reset] throw an invalid-argument error that names
    both numbers, with the state untouched.  Otherwise, on a register of
    [2^n] amplitudes, it returns with every one-state amplitude of the
    qubit cleared and every zero-state amplitude overwritten by the real
    number [|psi|^4] of its partner [psi]: the old zero-state amplitude and
    the phase of the partner are gone.  No draw is used. *)
Theorem reset_closed_form (sv : StatevectorSimulator) (rng : Rng) (qn : N) :
  length (state sv) = N.to_nat (pow2 (total_qubit sv)) ->
  reset qn (sv, rng) =
  if (total_qubit sv <=? qn)%N
  then (Throw (InvalidArgument (exceed_message (total_qubit sv) qn)), (sv, rng))
  else (Ret tt, (mkStatevector (total_qubit sv) (reset_state (state sv) qn), rng)).
Proof.
  intros Hlen. unfold reset. rewrite bind_run. simpl.
  destruct (N.leb_spec (total_qubit sv) qn) as [Hge|Hlt]; [reflexivity|].
  unfold set_state, modify. simpl. rewrite reset_loop_closed by assumption. reflexivity.
Qed.

Lemma reset_closed_form_witness :
  reset 0 (one_state, constant_draws 0) =
  (Ret tt, (mkStatevector 1 (reset_state (state one_state) 0), constant_draws 0)).
Proof. exact (reset_closed_form one_state (constant_draws 0) 0 eq_refl). Defined.

Lemma sum_where_positive (n : N) (c : N -> bool) (f : N -> R) :
  (forall i, (0 <= f i)%R) ->
  (0 < sum_where n c f)%R <-> exists i, (i < n)%N /\ c i = true /\ (0 < f i)%R.
Proof.
  intros Hf. induction n as [|n IH] using N.peano_ind.
  - unfold sum_where. rewrite for_range_0. split; [lra|]. intros [i [Hi _]]. lia.
  - rewrite sum_where_succ.
    pose proof (sum_where_nonneg n c f Hf) as Hn. pose proof (Hf n) as Hfn.
    split.
    + intros Hpos. destruct (c n) eqn:Ec.
      * destruct (Rlt_dec 0 (f n)) as [Hlt|Hnlt].
        -- exists n. split; [lia|]. split; assumption.
        -- assert (Hs : (0 < sum_where n c f)%R) by lra.
           apply IH in Hs. destruct Hs as [i [Hi Hci]]. exists i. split; [lia | exact Hci].
      * apply IH in Hpos. destruct Hpos as [i [Hi Hci]]. exists i. split; [lia | exact Hci].
    + intros [i [Hi [Hci Hfi]]].
      destruct (N.eq_dec i n) as [->|Hne].
      * rewrite Hci. lra.
      * assert (Hs : (0 < sum_where n c f)%R).
        { apply IH. exists i. split; [lia|]. split; assumption. }
        destruct (c n); lra.
Qed.

Lemma is_qubit_one_scan_true (st : list complex_t) (count : nat) (i qn : N) :
  is_qubit_one_scan st count i qn = true <->
  exists j, (i <= j < i + N.of_nat count)%N /\ N.testbit j qn = true /\
            (0 < abs_sqr (vget st j))%R.
Proof.
  revert i. induction count as [|count IH]; intros i; simpl.
  - split; [discriminate|]. intros [j [Hj _]]. lia.
  - rewrite qubit_is_one_testbit. unfold Rgtb.
    destruct (N.testbit i qn) eqn:Hbit; simpl.
    + destruct (Rgt_dec (abs_sqr (vget st i)) 0) as [Hgt|Hngt].
      * split; [|reflexivity]. intros _. exists i. split; [lia|]. split; [exact Hbit | lra].
      * rewrite IH. split.
        -- intros [j [Hj Hrest]]. exists j. split; [lia | exact Hrest].
        -- intros [j [Hj [Hb Hpos]]]. exists j.
           assert (j <> i) by (intros ->; lra). split; [lia|]. split; assumption.
    + rewrite IH. split.
      * intros [j [Hj Hrest]]. exists j. split; [lia | exact Hrest].
      * intros [j [Hj [Hb Hpos]]]. exists j.
        assert (j <> i) by (intros ->; congruence). split; [lia|]. split; assumption.
Qed.

(** X26.  [is_qubit_one] tells whether the qubit can be found at one: it
    returns true exactly when the probability of the qubit being one, the
    sum of [|psi[i]|^2] over the indices with the bit of the qubit set, is
    positive.  It returns always, reads the state only and uses no draw. *)
Theorem is_qubit_one_iff_probability (k : Kernel) (qn : N) :
  exists b,
    is_qubit_one qn k = (Ret b, k) /\
    (b = true <-> (0 < probability (state k.1) (total_qubit k.1) qn true)%R).
Proof.
  eexists. split; [reflexivity|]. simpl.
  rewrite is_qubit_one_scan_true, probability_true, sum_where_positive
    by (intros i; apply abs_sqr_nonneg).
  rewrite N2Nat.id. split.
  - intros [j [Hj Hrest]]. exists j. split; [lia | exact Hrest].
  - intros [j [Hj Hrest]]. exists j. split; [lia | exact Hrest].
Qed.

Lemma scaled_scaled (st : list complex_t) (qn : N) (x y : R) :
  scaled (scaled st qn x) qn y = scaled st qn (x * y).
Proof.
  unfold scaled. apply list_eq. intros j. rewrite !list_lookup_imap.
  destruct (st !! j) as [[a b]|]; [|reflexivity]. simpl.
  destruct (N.testbit (N.of_nat j) qn); [|reflexivity].
  unfold cscale. simpl. do 2 f_equal; ring.
Qed.

Lemma scale_amplitude_run (sv : StatevectorSimulator) (rng : Rng) (qn : N) (x : R) :
  length (state sv) = N.to_nat (pow2 (total_qubit sv)) ->
  scale_amplitude qn x (sv, rng) =
  (Ret tt, (mkStatevector (total_qubit sv) (scaled (state sv) qn x), rng)).
Proof.
  intros Hlen. unfold scale_amplitude. rewrite bind_run. simpl.
  unfold set_state, modify. simpl.
  change (for_range _ _ (state sv)) with (damping_scale (state sv) (total_qubit sv) qn x).
  rewrite damping_scale_closed by exact Hlen. reflexivity.
Qed.

(** X27.  [scale_amplitude] multiplies the one-state amplitudes of the
    qubit by the factor and nothing else.  On a register of [2^n]
    amplitudes the squared magnitudes afterwards sum to the factor squared
    times the probability of one plus the probability of zero; two calls
    in a row are one call with the product of the factors; the factor 1
    changes nothing. *)
Theorem scale_amplitude_composes (sv : StatevectorSimulator) (rng : Rng) (qn : N) (x y : R) :
  length (state sv) = N.to_nat (pow2 (total_qubit sv)) ->
  (scale_amplitude qn x;; scale_amplitude qn y) (sv, rng) =
    scale_amplitude qn (x * y) (sv, rng) /\
  scale_amplitude qn 1 (sv, rng) = (Ret tt, (sv, rng)) /\
  norm_sqr (state (scale_amplitude qn x (sv, rng)).2.1) (total_qubit sv) =
    (x * x * probability (state sv) (total_qubit sv) qn true
     + probability (state sv) (total_qubit sv) qn false)%R.
Proof.
  intros Hlen. split; [|split].
  - rewrite bind_run, (scale_amplitude_run sv rng qn x Hlen). cbv beta iota.
    rewrite scale_amplitude_run by (unfold scaled; simpl; rewrite length_imap; exact Hlen).
    rewrite (scale_amplitude_run sv rng qn (x * y) Hlen).
    simpl. rewrite scaled_scaled. reflexivity.
  - rewrite scale_amplitude_run by exact Hlen. rewrite scaled_one. destruct sv; reflexivity.
  - rewrite scale_amplitude_run by exact Hlen. simpl. apply norm_sqr_scaled.
Qed.

Lemma scale_amplitude_composes_witness :
  (scale_amplitude 0 2;; scale_amplitude 0 3) (one_state, constant_draws 0) =
  scale_amplitude 0 (2 * 3) (one_state, constant_draws 0).
Proof.
  exact (proj1 (scale_amplitude_composes one_state (constant_draws 0) 0 2 3 eq_refl)).
Defined.

(** ** Replay of recorded gates *)

Lemma for_each_ext {S A : Type} (l : list A) (body body' : A -> M S unit) (s : S) :
  (forall a s, a ∈ l -> body a s = body' a s) ->
  for_each l body s = for_each l body' s.
Proof.
  revert s. induction l as [|a l IH]; intros s Hb; [reflexivity|].
  rewrite !for_each_cons_run, (Hb a s) by left.
  destruct (body' a s) as [[[]|e|] s']; try reflexivity.
  apply IH. intros a' s'' Ha'. apply Hb. right. exact Ha'.
Qed.

Lemma for_each_fmap {S A B : Type} (f : A -> B) (l : list A) (body : B -> M S unit) (s : S) :
  for_each (f <$> l) body s = for_each l (fun a => body (f a)) s.
Proof.
  revert s. induction l as [|a l IH]; intros s; [reflexivity|].
  rewrite fmap_cons, !for_each_cons_run.
  destruct (body (f a) s) as [[[]|e|] s']; try reflexivity. apply IH.
Qed.

Lemma lift_bind {A B : Type} (m : M StatevectorSimulator A)
    (f : A -> M StatevectorSimulator B) (w : Machine) :
  on_simulator (on_statevector (m ≫= f)) w =
  (on_simulator (on_statevector m) ≫= fun a => on_simulator (on_statevector (f a))) w.
Proof.
  destruct w as [s rng]. rewrite bind_run.
  unfold on_simulator, on_statevector. simpl. rewrite bind_run.
  destruct (m (simulator s)) as [[a|e|] sv']; reflexivity.
Qed.

Lemma lift_for_each {A : Type} (l : list A) (body : A -> M StatevectorSimulator unit)
    (w : Machine) :
  on_simulator (on_statevector (for_each l body)) w =
  for_each l (fun a => on_simulator (on_statevector (body a))) w.
Proof.
  revert w. induction l as [|a l IH]; intros w.
  - destruct w as [s rng]. unfold on_simulator, on_statevector. simpl.
    rewrite set_simulator_simulator. reflexivity.
  - simpl. rewrite lift_bind, !bind_run.
    destruct (on_simulator (on_statevector (body a)) w) as [[[]|e|] w']; try reflexivity.
    apply IH.
Qed.

Section ReplayOfRecordings.
Context `{G : GateNumbering} `{K : Simulator.Ops}.
Hypothesis Hwf : numbering_wf G.

(** X28.  Neither the recorder nor the replay checks the operands of an
    opcode.  Under the global policy, [load_opcode] with a gate name that
    the parser knows records the opcode with whatever qubits and
    parameters it is given and returns; for a gate that the replay knows,
    when the qubits are fewer than the gate acts on or the parameters
    fewer than the replay reads for the gate, the replay of that opcode
    subscripts a vector out of range, which is undefined behaviour. *)
Theorem replay_missing_operand_undefined (s : NoisySimulator) (name : string)
    (g : SupportOperationType) (qs : list N) (ps : list R) (dg : bool) (gc : list N)
    (k : Kernel) :
  dynamic_class s = Class_NoisySimulator -> noise_in_range (noise s) ->
  string_to_SupportOperationType name = Ret g ->
  switch (gate_tag g) <> case_default ->
  (length qs < Z.to_nat (gate_qubit_count g))%nat \/
  (length ps < gate_parameter_count g)%nat ->
  load_opcode name qs ps dg gc s =
    (Ret tt,
     set_opcodes
       (opcodes s ++ mkOpcode (gate_tag g) qs ps dg gc :: generic_opcodes qs (noise s)) s) /\
  execute_opcode (mkOpcode (gate_tag g) qs ps dg gc) k = (Undefined, k).
Proof.
  intros Hc Hr Hname Hknown Hshort. split.
  - exact (global_policy_step (call_load_opcode name qs ps dg gc)
             (mkOpcode (gate_tag g) qs ps dg gc) s Hc Hr
             ltac:(simpl; rewrite Hname; reflexivity)).
  - unfold execute_opcode. cbn [op].
    rewrite (switch_gate_tag Hwf) in Hknown |- *.
    destruct g; try congruence; simpl in Hshort |- *;
      destruct qs as [|q0 [|q1 [|q2 qs]]]; simpl in Hshort |- *;
      destruct ps as [|p0 [|p1 ps]]; simpl in Hshort |- *;
      try reflexivity; exfalso; destruct Hshort; lia.
Qed.

Lemma replay_recorded_call (c : Recording) (m : M StatevectorSimulator unit)
    (o : OpcodeType) (k : Kernel) :
  kernel_call c = Some m -> recorded_opcode c = Some o ->
  (forall controller target gc dg, c = call_cnot controller target gc dg ->
     gc = [] /\ dg = false) ->
  execute_opcode o k = on_statevector m k.
Proof.
  intros Hm Ho Hcnot. destruct c; simpl in Hm, Ho; try discriminate;
    injection Hm as <-; injection Ho as <-;
    unfold execute_opcode; cbn [op]; rewrite (switch_gate_tag Hwf); try reflexivity.
  destruct (Hcnot _ _ _ _ eq_refl) as [-> ->]. reflexivity.
Qed.

(** X29.  Replay is faithful to the recording of a gate, CNOT apart.  For
    every mutator of a gate the replay knows, the replay of the opcode
    that the mutator records is the call of the kernel function of the
    same name with the same positional arguments: qubits, parameters,
    controller list and dagger flag.  ([rphi] hands its parameters on in
    the order [phi, theta] in which it takes them.)  For [cnot] this holds
    only when the call had no controller and no dagger, which the replay
    drops. *)
Theorem replay_is_faithful_to_recording (c : Recording) (m : M StatevectorSimulator unit)
    (o : OpcodeType) (k : Kernel) :
  kernel_call c = Some m -> recorded_opcode c = Some o -> replayable c ->
  execute_opcode o k = on_statevector m k.
Proof.
  intros Hm Ho [_ Hcnot]. exact (replay_recorded_call c m o k Hm Ho Hcnot).
Qed.

Lemma kernel_call_recorded (c : Recording) :
  is_Some (kernel_call c) -> is_Some (recorded_opcode c).
Proof. destruct c; simpl; intros [m Hm]; try discriminate; eexists; reflexivity. Qed.

Lemma generic_opcodes_empty (qs : list N) : generic_opcodes qs ∅ = [].
Proof. reflexivity. Qed.

Lemma noiseless_program_stream (cs : list Recording) (s : NoisySimulator) :
  dynamic_class s = Class_NoisySimulator -> noise s = ∅ ->
  Forall (fun c => is_Some (recorded_opcode c)) cs ->
  (for_each cs record s).2 = set_opcodes (opcodes s ++ omap recorded_opcode cs) s.
Proof.
  intros Hc Hn Hcs. revert s Hc Hn.
  induction Hcs as [|c cs [o Ho] _ IH]; intros s Hc Hn.
  - simpl. rewrite app_nil_r, set_opcodes_opcodes. reflexivity.
  - simpl. rewrite bind_run.
    rewrite (global_policy_step c o s Hc ltac:(rewrite Hn; split; apply lookup_empty) Ho).
    rewrite Hn, generic_opcodes_empty, IH by assumption. simpl. rewrite Ho.
    rewrite <- app_assoc. reflexivity.
Qed.

(** X30.  Without noise, recording a program and executing it is running
    the program on the kernel.  For an object of the base class with an
    empty noise map and an empty stream, and a program of mutator calls of
    gates the replay knows (CNOT without controller and dagger),
    [execute_once] after the recording does what the kernel does when
    [init_n_qubit(nqubit)] is followed by the kernel calls of the program
    in order: same outcome, same state vector, no draw used. *)
Theorem noiseless_replay_runs_the_program (cs : list Recording) (s : NoisySimulator)
    (rng : Rng) :
  dynamic_class s = Class_NoisySimulator -> noise s = ∅ -> opcodes s = [] ->
  Forall replayable cs ->
  let recorded := (for_each cs record s).2 in
  execute_once (recorded, rng) =
  on_simulator
    (on_statevector (Simulator.init_n_qubit (nqubit s);; kernel_program cs))
    (recorded, rng).
Proof.
  intros Hc Hn Hops Hcs recorded.
  assert (Hrec : recorded = set_opcodes (omap recorded_opcode cs) s).
  { unfold recorded. rewrite noiseless_program_stream; [rewrite Hops; reflexivity | | |];
      try assumption.
    eapply Forall_impl; [exact Hcs|]. intros c [Hk _]. apply kernel_call_recorded. exact Hk. }
  unfold execute_once. rewrite bind_run. simpl. rewrite lift_bind, !bind_run.
  replace (nqubit recorded) with (nqubit s) by (rewrite Hrec; reflexivity).
  destruct (on_simulator (on_statevector (Simulator.init_n_qubit (nqubit s))) (recorded, rng))
    as [[[]|e|] w1]; try reflexivity.
  unfold kernel_program. rewrite lift_for_each. unfold replay.
  replace (opcodes recorded) with (omap recorded_opcode cs) by (rewrite Hrec; reflexivity).
  clear Hrec recorded. revert w1.
  induction Hcs as [|c cs [[m Hm] Hcnot] _ IH]; intros w1; [reflexivity|].
  destruct (kernel_call_recorded c (ex_intro _ m Hm)) as [o Ho].
  assert (Hom : omap recorded_opcode (c :: cs) = o :: omap recorded_opcode cs)
    by (simpl; rewrite Ho; reflexivity).
  assert (Hstep : on_simulator (execute_opcode o) w1 =
                  on_simulator (on_statevector (default (mret tt) (kernel_call c))) w1).
  { rewrite Hm. simpl default. unfold on_simulator.
    rewrite (replay_recorded_call c m o _ Hm Ho Hcnot). reflexivity. }
  rewrite Hom, !for_each_cons_run, Hstep.
  destruct (on_simulator (on_statevector (default (mret tt) (kernel_call c))) w1)
    as [[[]|e|] w2]; try reflexivity.
  apply IH.
Qed.

End ReplayOfRecordings.

Lemma replay_missing_operand_undefined_witness :
  load_opcode (H := header_numbering) "CZ" [0%N] [] false [] bitflip_example =
    (Ret tt,
     set_opcodes
       [mkOpcode 1006 [0%N] [] false []; mkOpcode 3 [0%N] [0.5%R] false []]
       bitflip_example) /\
  execute_opcode (H := header_numbering) (H0 := PauliKernel.ops)
    (mkOpcode 1006 [0%N] [] false []) (one_state, constant_draws 0) =
  (Undefined, (one_state, constant_draws 0)).
Proof.
  refine (@replay_missing_operand_undefined header_numbering PauliKernel.ops
            header_numbering_wf bitflip_example "CZ" CZ [0%N] [] false []
            (one_state, constant_draws 0) eq_refl _ eq_refl _ _).
  - split; reflexivity.
  - rewrite (switch_gate_tag header_numbering_wf). discriminate.
  - left. simpl. lia.
Defined.

Lemma replay_is_faithful_to_recording_witness :
  execute_opcode (H := header_numbering) (H0 := PauliKernel.ops)
    (mkOpcode 1006 [0%N; 1%N] [] true [2%N]) (one_state, constant_draws 0) =
  on_statevector (Simulator.cz (Ops := PauliKernel.ops) 0 1 [2%N] true)
    (one_state, constant_draws 0).
Proof.
  refine (@replay_is_faithful_to_recording header_numbering PauliKernel.ops
            header_numbering_wf (call_cz 0 1 [2%N] true) _ _ (one_state, constant_draws 0)
            eq_refl eq_refl _).
  split; [eexists; reflexivity|]. intros controller target gc dg E. discriminate E.
Defined.

Lemma noiseless_replay_runs_the_program_witness :
  execute_once (H := header_numbering) (H0 := PauliKernel.ops)
    ((for_each [call_x 0 [] false; call_cnot 0 1 [] false]
        (record (H := header_numbering)) (member_init 2 [])).2, constant_draws 0) =
  on_simulator
    (on_statevector
       (Simulator.init_n_qubit (Ops := PauliKernel.ops) 2;;
        kernel_program (H := PauliKernel.ops) [call_x 0 [] false; call_cnot 0 1 [] false]))
    ((for_each [call_x 0 [] false; call_cnot 0 1 [] false]
        (record (H := header_numbering)) (member_init 2 [])).2, constant_draws 0).
Proof.
  refine (@noiseless_replay_runs_the_program header_numbering PauliKernel.ops
            header_numbering_wf [call_x 0 [] false; call_cnot 0 1 [] false]
            (member_init 2 []) (constant_draws 0) eq_refl eq_refl eq_refl _).
  apply Forall_cons. split.
  - split; [eexists; reflexivity|]. intros a b gc dg E. discriminate E.
  - apply Forall_cons. split; [|apply Forall_nil_2].
    split; [eexists; reflexivity|].
    intros a b gc dg E. injection E as _ _ <- <-. split; reflexivity.
Defined.
